(** * MassiveSweeper backend: the world grid and its mutation algorithms

    A shallow embedding of [src/server.js] (with [constants.js]) and the
    properties of its reveal, flood-fill, flag, chord and chunk code, of
    the statistics, reset and reveal-all endpoints and of the messages of
    the socket handlers. The older lazily-chunked server file of the
    repository is embedded in [Module Legacy], for the places where it
    behaves differently.

    Conventions of the embedding.
    - JavaScript numbers are doubles. Those that hold grid coordinates and
      counters are integers and are kept in [Z]: sums and products of
      integers are exact in doubles up to 2^53, and a statement that
      depends on a coordinate computed from a request beyond the world
      carries that bound. The arithmetic on fractions (the mine
      percentage, the percentage of revealed cells) and the operations on
      the numbers of a request, integers or not, are done in doubles
      ([Number]).
    - [completeGrid] is an array of rows of cell objects: [list (list Cell.t)].
      Reading an array at an index that is not there gives [undefined]
      ([None]); reading a property of [undefined] raises a [TypeError].
    - An exception is a value: every operation returns a [Result].
    - The [Set] of visited keys holds the strings [`${x},${y}`]; for integers
      that string determines the pair, so the set is a [gset (Z * Z)].
    - A record pushed on a result list holds the cell OBJECT, which stays
      shared with the grid; the embedding keeps the reference as the global
      coordinate of that object ([Update.cell]). *)

From Stdlib Require Import ZArith QArith Qround Lia Ascii SpecFloat.
From stdpp Require Import base option list gmap sets strings pretty.

Local Close Scope Q_scope.
Local Open Scope Z_scope.
#[local] Set Warnings "-clear-no-such-hyp".

(** ** Exceptions *)

Inductive Error : Type :=
  | TypeError   (* property read on [undefined] *)
  | Exhausted.  (* the run did not finish within the given number of steps *)

Inductive Result (A : Type) : Type :=
  | Ok (a : A)
  | Throw (e : Error).
Arguments Ok {A} a.
Arguments Throw {A} e.

#[global] Instance Result_ret : MRet Result := fun A a => Ok a.
#[global] Instance Result_bind : MBind Result := fun A B f r =>
  match r with
  | Ok a => f a
  | Throw e => Throw e
  end.

Definition throws {A} (r : Result A) : Prop := exists e, r = Throw e.

(** ** Cells, grids, update records *)

Module Cell.
Record t : Type := mk {
  x : Z;
  y : Z;
  revealed : bool;
  hasMine : bool;
  adjacentMines : Z;
  flagged : bool;
}.

Definition setRevealed (c : t) : t :=
  mk (x c) (y c) true (hasMine c) (adjacentMines c) (flagged c).
Definition setHasMine (c : t) : t :=
  mk (x c) (y c) (revealed c) true (adjacentMines c) (flagged c).
Definition setAdjacentMines (n : Z) (c : t) : t :=
  mk (x c) (y c) (revealed c) (hasMine c) n (flagged c).
Definition toggleFlagged (c : t) : t :=
  mk (x c) (y c) (revealed c) (hasMine c) (adjacentMines c) (negb (flagged c)).

(** The object literal of [initializeCompleteGrid] and of the out-of-bounds
    branch of [extractChunkFromCompleteGrid]. *)
Definition fresh (x y : Z) : t := mk x y false false 0 false.
End Cell.

Abbreviation Grid := (list (list Cell.t)).

Module Update.
(** [{ cx, cy, x, y, cell }]; [cell] is the grid position of the shared
    cell object. *)
Record t : Type := mk {
  cx : Z;
  cy : Z;
  x : Z;
  y : Z;
  cell : Z * Z;
}.
End Update.

(** [a[i]] on a JavaScript array, for an integer [i]. *)
Definition index {A} (a : list A) (i : Z) : option A :=
  if decide (0 <= i) then a !! Z.to_nat i else None.

(** [completeGrid[gy][gx]] followed by a property read of the cell. *)
Definition getCell (g : Grid) (gx gy : Z) : Result Cell.t :=
  match index g gy with
  | None => Throw TypeError
  | Some row =>
      match index row gx with
      | None => Throw TypeError
      | Some c => Ok c
      end
  end.

(** An assignment to a field of the object [completeGrid[gy][gx]]. *)
Definition updCell (f : Cell.t -> Cell.t) (gx gy : Z) (g : Grid) : Grid :=
  alter (alter f (Z.to_nat gx)) (Z.to_nat gy) g.

(** [for (const a of l) s = f(s, a)], stopping at the first exception. *)
Fixpoint forEach {A St} (f : St -> A -> Result St) (l : list A) (s : St)
  : Result St :=
  match l with
  | [] => Ok s
  | a :: l' => s' ← f s a; forEach f l' s'
  end.

(** The two nested loops [for dy in -1..1] [for dx in -1..1] with the
    [continue] at [(0, 0)]: the offsets [(dx, dy)] in the order visited. *)
Definition neighborOffsets : list (Z * Z) :=
  dy ← [-1; 0; 1];
  dx ← [-1; 0; 1];
  if decide (dx = 0 /\ dy = 0) then [] else [(dx, dy)].

(** [Math.round] on an exact rational: halves go up. *)
Definition Math_round (q : Q) : Z := Qfloor (q + (1 # 2))%Q.

(** ** Numbers

    A JavaScript number is an IEEE 754 double. [Number.t] is the Standard
    Library's specification of binary floats at precision 53 and maximal
    exponent 1024, and [*], [/] and [+] are its operations, which round to
    the nearest double, ties to even. *)

Module Number.

Definition t : Type := spec_float.
Definition prec : Z := 53.
Definition emax : Z := 1024.

Definition mul : t -> t -> t := SFmul prec emax.
Definition div : t -> t -> t := SFdiv prec emax.
Definition add : t -> t -> t := SFadd prec emax.

(** [a < b] and [a <= b]; both are false when an operand is [NaN]. *)
Definition ltb : t -> t -> bool := SFltb.
Definition leb : t -> t -> bool := SFleb.

(** The number an integer denotes: the integer itself up to 2^53 in
    absolute value, the nearest double beyond. *)
Definition ofZ (z : Z) : t := binary_normalize prec emax z 0 false.

(** The number a decimal literal denotes: the double nearest to the
    rational. *)
Definition ofQ (q : Q) : t :=
  match Qnum q with
  | Z0 => S754_zero false
  | Zpos n => SFdiv prec emax (S754_finite false n 0) (S754_finite false (Qden q) 0)
  | Zneg n => SFdiv prec emax (S754_finite true n 0) (S754_finite false (Qden q) 0)
  end.

(** The mantissa and the exponent are those of a double. *)
Definition valid (n : t) : Prop := valid_binary prec emax n = true.

(** The exact value of a finite number. *)
Definition value (n : t) : option Q :=
  match n with
  | S754_zero _ => Some 0%Q
  | S754_finite s m e =>
      let z := if s then Zneg m else Zpos m in
      Some (if 0 <=? e then inject_Z (z * 2 ^ e) else Qmake z (Z.to_pos (2 ^ (- e))))
  | S754_infinity _ | S754_nan => None
  end.

(** The integer a number is, when it is one ([Number.isInteger]); [-0] is
    the integer 0. *)
Definition toZ (n : t) : option Z :=
  match n with
  | S754_zero _ => Some 0
  | S754_finite s m e =>
      let z := if s then Zneg m else Zpos m in
      if 0 <=? e then Some (z * 2 ^ e)
      else if Zpos m mod 2 ^ (- e) =? 0 then Some (z / 2 ^ (- e))
      else None
  | S754_infinity _ | S754_nan => None
  end.

(** Not below zero, not above zero ([NaN] and the zeros are both), and
    zero or [NaN]. *)
Definition nonneg (n : t) : bool :=
  match n with
  | S754_finite true _ _ | S754_infinity true => false
  | _ => true
  end.
Definition nonpos (n : t) : bool :=
  match n with
  | S754_finite false _ _ | S754_infinity false => false
  | _ => true
  end.
Definition null (n : t) : bool :=
  match n with
  | S754_zero _ | S754_nan => true
  | _ => false
  end.

End Number.

(** [Math.round(n)] as the mine placement loops use it, in the test
    [placed < mineCount] against an integer counter that starts at 0. For a
    finite [n] it is the integer [Math.round] returns. The test against
    [NaN] is false, as it is against 0; the test against [Infinity] is true
    for every finite counter, as it is against 2^1024. *)
Definition roundedCount (n : Number.t) : Z :=
  match n with
  | S754_nan => 0
  | S754_infinity false => 2 ^ 1024
  | S754_infinity true => - 2 ^ 1024
  | _ => default 0 (Math_round <$> Number.value n)
  end.

(** ** Chunks sent to clients *)

(** [{ ...completeGrid[gridY][gridX] }]: a copy of the cell's fields, or the
    empty object when the spread operand is [undefined]. *)
Inductive ChunkCell : Type :=
  | CellCopy (c : Cell.t)
  | EmptyObject.

Abbreviation Chunk := (list (list ChunkCell)).

(** [getChunkKey] of [constants.js]. *)
Definition getChunkKey (cx cy : Z) : string :=
  pretty cx +:+ "," +:+ pretty cy.

(** ** The server state: the module-level variables of [server.js] *)

Record Server : Type := mkServer {
  completeGrid : Grid;
  gridChunks : gmap string Chunk;
  uniqueUsersEver : Z;
  bombsExploded : Z;
}.

Definition withGrid (g : Grid) (sv : Server) : Server :=
  mkServer g (gridChunks sv) (uniqueUsersEver sv) (bombsExploded sv).
Definition withChunks (m : gmap string Chunk) (sv : Server) : Server :=
  mkServer (completeGrid sv) m (uniqueUsersEver sv) (bombsExploded sv).
Definition explode (sv : Server) : Server :=
  mkServer (completeGrid sv) (gridChunks sv) (uniqueUsersEver sv)
           (bombsExploded sv + 1).

(** The variables a [flood] closure captures and mutates. *)
Record FloodState : Type := mkFlood {
  grid : Grid;
  visited : gset (Z * Z);
  revealed : list Update.t;
}.

(** * The lazily-chunked server file

    The older server file of the repository ([src/unnamed/part_002]) keeps
    no world grid. A chunk of cell objects is created, mined and counted by
    the first request that touches it, and the chunks stored in
    [gridChunks] are the world: reveals and flags mutate the stored cell
    objects. Its [Math.floor(n / CHUNK_SIZE)] and [n % CHUNK_SIZE] are
    [Z.div] and [Z.rem], which agree with JavaScript for a chunk size other
    than 0. *)

Module Legacy.

(** The module-level variables; [randoms] is the number of values
    [Math.random()] has returned so far. *)
Record State : Type := mkState {
  gridChunks : gmap string Grid;
  bombsExploded : Z;
  randoms : nat;
}.

(** [{ cx, cy, x, y, cell }], where [cell] is the object stored at that
    address. *)
Record Update : Type := mkUpdate {
  cx : Z;
  cy : Z;
  x : Z;
  y : Z;
}.

Definition start : State := mkState ∅ 0 0%nat.

(** An assignment to a field of the cell object [chunk[y][x]] of the stored
    chunk [(cx, cy)]. *)
Definition updStored (f : Cell.t -> Cell.t) (cx cy x y : Z) (sv : State) : State :=
  mkState (alter (updCell f x y) (getChunkKey cx cy) (gridChunks sv))
          (bombsExploded sv) (randoms sv).

Definition explode (sv : State) : State :=
  mkState (gridChunks sv) (bombsExploded sv + 1) (randoms sv).

(** The variables a [flood] closure captures and mutates. *)
Record FloodState : Type := mkFlood {
  state : State;
  visited : gset (Z * Z * Z * Z);
  revealed : list Update;
}.

Section Chunked.

Variable CHUNK_SIZE : Z.
Variable GRID_WIDTH : Z.
Variable GRID_HEIGHT : Z.
Variable MINE_PERCENTAGE : Q.

(** The values [Math.random()] returns, in order. *)
Variable random : nat -> Q.

(** A bound on the iterations of one run of the mine placement loop. *)
Variable fuel : nat.

Definition createEmptyChunk (cx cy : Z) : Grid :=
  (fun y => (fun x => Cell.fresh (cx * CHUNK_SIZE + x) (cy * CHUNK_SIZE + y))
              <$> seqZ 0 CHUNK_SIZE)
    <$> seqZ 0 CHUNK_SIZE.

(** [Math.round(totalCells * MINE_PERCENTAGE)], where [totalCells] is
    [CHUNK_SIZE * CHUNK_SIZE]: both products are products of doubles. *)
Definition mineCount : Z :=
  roundedCount
    (Number.mul (Number.mul (Number.ofZ CHUNK_SIZE) (Number.ofZ CHUNK_SIZE))
                (Number.ofQ MINE_PERCENTAGE)).

(** The [while (placed < mineCount)] loop of [placeMinesInChunk]; returns
    the chunk and the number of random values consumed so far. *)
Fixpoint placeMinesLoop (n : nat) (i : nat) (placed : Z) (chunk : Grid)
  : Result (Grid * nat) :=
  if decide (placed < mineCount) then
    match n with
    | O => Throw Exhausted
    | S n' =>
        let x := Qfloor (random i * inject_Z CHUNK_SIZE)%Q in
        let y := Qfloor (random (S i) * inject_Z CHUNK_SIZE)%Q in
        c ← getCell chunk x y;
        if negb (Cell.hasMine c)
        then placeMinesLoop n' (S (S i)) (placed + 1)
                            (updCell Cell.setHasMine x y chunk)
        else placeMinesLoop n' (S (S i)) placed chunk
    end
  else Ok (chunk, i).

Definition placeMinesInChunk (i : nat) (chunk : Grid) : Result (Grid * nat) :=
  placeMinesLoop fuel i 0 chunk.

(** [countAdjacentMines]: a neighbour inside the chunk is read from the
    chunk; one outside it is read from the neighbouring chunk if that chunk
    is in [gridChunks] at the time of the call, and skipped otherwise. *)
Definition countAdjacentMines (m : gmap string Grid) (chunk : Grid)
    (x y cx cy : Z) : Result Z :=
  forEach (fun count '(dx, dy) =>
             let nx := x + dx in
             let ny := y + dy in
             if (0 <=? nx) && (nx <? CHUNK_SIZE) && (0 <=? ny) && (ny <? CHUNK_SIZE)
             then
               c ← getCell chunk nx ny;
               Ok (if Cell.hasMine c then count + 1 else count)
             else
               let n_cx := cx + nx / CHUNK_SIZE in
               let n_cy := cy + ny / CHUNK_SIZE in
               match m !! getChunkKey n_cx n_cy with
               | Some n_chunk =>
                   let n_x := Z.rem (nx + CHUNK_SIZE) CHUNK_SIZE in
                   let n_y := Z.rem (ny + CHUNK_SIZE) CHUNK_SIZE in
                   match index n_chunk n_y ≫= (fun row => index row n_x) with
                   | Some c => Ok (if Cell.hasMine c then count + 1 else count)
                   | None => Ok count
                   end
               | None => Ok count
               end)
          neighborOffsets 0.

Definition fillAdjacentCounts (m : gmap string Grid) (chunk : Grid) (cx cy : Z)
  : Result Grid :=
  forEach (fun chunk y =>
    forEach (fun chunk x =>
               _ ← getCell chunk x y;
               n ← countAdjacentMines m chunk x y cx cy;
               Ok (updCell (Cell.setAdjacentMines n) x y chunk))
            (seqZ 0 CHUNK_SIZE) chunk)
    (seqZ 0 CHUNK_SIZE) chunk.

Definition getOrCreateChunk (cx cy : Z) (sv : State) : Result (Grid * State) :=
  let key := getChunkKey cx cy in
  match gridChunks sv !! key with
  | Some chunk => Ok (chunk, sv)
  | None =>
      placed ← placeMinesInChunk (randoms sv) (createEmptyChunk cx cy);
      chunk ← fillAdjacentCounts (gridChunks sv) placed.1 cx cy;
      Ok (chunk, mkState (<[key := chunk]> (gridChunks sv)) (bombsExploded sv) placed.2)
  end.

(** One iteration of the neighbour loops inside [flood]; [rec] is the
    recursive call. *)
Definition floodNeighbor (rec : Z -> Z -> Z -> Z -> FloodState -> Result FloodState)
    (cx cy x y : Z) (st : FloodState) (d : Z * Z) : Result FloodState :=
  let nx := x + d.1 in
  let ny := y + d.2 in
  let '(n_cx, nx) := if nx <? 0 then (cx - 1, nx + CHUNK_SIZE) else (cx, nx) in
  let '(n_cy, ny) := if ny <? 0 then (cy - 1, ny + CHUNK_SIZE) else (cy, ny) in
  let '(n_cx, nx) := if CHUNK_SIZE <=? nx then (n_cx + 1, nx - CHUNK_SIZE) else (n_cx, nx) in
  let '(n_cy, ny) := if CHUNK_SIZE <=? ny then (n_cy + 1, ny - CHUNK_SIZE) else (n_cy, ny) in
  if (n_cx <? 0) || (n_cy <? 0) || (GRID_WIDTH <=? n_cx * CHUNK_SIZE)
     || (GRID_HEIGHT <=? n_cy * CHUNK_SIZE)
  then Ok st
  else
    r ← getOrCreateChunk n_cx n_cy (state st);
    let st' := mkFlood r.2 (visited st) (revealed st) in
    match index r.1 ny ≫= (fun row => index row nx) with
    | Some n_cell =>
        if negb (Cell.revealed n_cell) && negb (Cell.flagged n_cell)
           && negb (Cell.hasMine n_cell)
        then rec n_cx n_cy nx ny st'
        else Ok st'
    | None => Ok st'
    end.

(** The closure [flood] of [revealCell]; [depth] bounds the nesting of
    calls. *)
Fixpoint flood (depth : nat) (cx cy x y : Z) (st : FloodState)
  : Result FloodState :=
  match depth with
  | O => Throw Exhausted
  | S depth' =>
      let key := (cx, cy, x, y) in
      if decide (key ∈ visited st) then Ok st else
      let vis := {[key]} ∪ visited st in
      r ← getOrCreateChunk cx cy (state st);
      cell ← getCell r.1 x y;
      if Cell.revealed cell || Cell.flagged cell
      then Ok (mkFlood r.2 vis (revealed st))
      else
        let st1 := mkFlood (updStored Cell.setRevealed cx cy x y r.2) vis
                           (revealed st ++ [mkUpdate cx cy x y]) in
        if (Cell.adjacentMines cell =? 0) && negb (Cell.hasMine cell)
        then forEach (floodNeighbor (flood depth') cx cy x y) neighborOffsets st1
        else Ok st1
  end.

Definition revealCell (depth : nat) (cx cy x y : Z) (sv : State)
  : Result (list Update * State) :=
  r ← getOrCreateChunk cx cy sv;
  cell ← getCell r.1 x y;
  if Cell.revealed cell || Cell.flagged cell then Ok ([], r.2) else
  if (Cell.adjacentMines cell =? 0) && negb (Cell.hasMine cell) then
    st ← flood depth cx cy x y (mkFlood r.2 ∅ []);
    Ok (revealed st, state st)
  else
    let sv1 := if Cell.hasMine cell then explode r.2 else r.2 in
    Ok ([mkUpdate cx cy x y], updStored Cell.setRevealed cx cy x y sv1).

(** The [flag_cell] handler. *)
Definition flag_cell (cx cy x y : Z) (sv : State)
  : Result (option Update * State) :=
  r ← getOrCreateChunk cx cy sv;
  cell ← getCell r.1 x y;
  if Cell.revealed cell then Ok (None, r.2) else
  Ok (Some (mkUpdate cx cy x y), updStored Cell.toggleFlagged cx cy x y r.2).

(** The cell object at a position of the world, when its chunk exists. *)
Definition look (sv : State) (p : Z * Z) : option Cell.t :=
  chunk ← gridChunks sv !! getChunkKey (p.1 / CHUNK_SIZE) (p.2 / CHUNK_SIZE);
  row ← index chunk (p.2 `mod` CHUNK_SIZE);
  index row (p.1 `mod` CHUNK_SIZE).

(** How many of the eight neighbours of [p] hold a mine. *)
Definition mineNeighbors (sv : State) (p : Z * Z) : Z :=
  Z.of_nat (length (filter
    (fun d => Cell.hasMine <$> look sv (p.1 + d.1, p.2 + d.2) = Some true)
    neighborOffsets)).

End Chunked.
End Legacy.

(** * Concrete worlds

    A world of one row and four columns with chunks of two cells: two zero
    cells, a cell numbered 1, and a mine. It is what
    [initializeCompleteGrid] builds when [Math.random()] keeps returning
    0.75. *)

Definition demoRandom : nat -> Q := fun _ => (3 # 4)%Q.

Definition demoGrid : Grid :=
  [[Cell.mk 0 0 false false 0 false; Cell.mk 1 0 false false 0 false;
    Cell.mk 2 0 false false 1 false; Cell.mk 3 0 false true 0 false]].

Definition demoServer : Server := mkServer demoGrid ∅ 0 0.

(** The two zero cells. *)
Definition demoRegion : gset (Z * Z) := {[(0, 0); (1, 0)]}.

(** The same world after the numbered cell was revealed and the mine
    flagged. *)
Definition chordGrid : Grid :=
  [[Cell.mk 0 0 false false 0 false; Cell.mk 1 0 false false 0 false;
    Cell.mk 2 0 true false 1 false; Cell.mk 3 0 false true 0 true]].

Definition chordServer : Server := mkServer chordGrid ∅ 0 0.

(** A run of the lazily-chunked server with chunks of 2 x 2 cells and one
    mine per chunk: [Math.random()] returns 0.75 once and 0 afterwards, so
    that the mine of chunk (0, 0) falls on the world cell (1, 0) and the
    mine of chunk (1, 0) on the world cell (2, 0). *)
Definition legacyRandom : nat -> Q :=
  fun i => if decide (i = 0%nat) then (3 # 4)%Q else 0%Q.

(** Chunk (0, 0) as that run creates it, and the server state after the
    request that created it. *)
Definition legacyChunk : Grid :=
  [[Cell.mk 0 0 false false 1 false; Cell.mk 1 0 false true 0 false];
   [Cell.mk 0 1 false false 1 false; Cell.mk 1 1 false false 1 false]].

Definition legacySeen : Legacy.State :=
  Legacy.mkState {[ getChunkKey 0 0 := legacyChunk ]} 0 2.

(** A world of 3 x 2 cells with half of them mined, as the draws
    (0, 0), (0, 0) again, (1, 0) and (2, 1) of [Math.random()] make it: the
    second draw hits a mined cell and places nothing. *)
Definition sampledRandom : nat -> Q :=
  fun i => nth i [0; 0; 0; 0; 1 # 3; 0; 2 # 3; 1 # 2]%Q 0%Q.

Definition sampledGrid : Grid :=
  [[Cell.mk 0 0 false true 1 false; Cell.mk 1 0 false true 2 false;
    Cell.mk 2 0 false false 2 false];
   [Cell.mk 0 1 false false 2 false; Cell.mk 1 1 false false 3 false;
    Cell.mk 2 1 false true 1 false]].


(** Decides a closed decidable proposition by evaluation. *)
Ltac by_evaluation :=
  match goal with
  | |- ?P => apply (bool_decide_unpack P); vm_compute; exact I
  end.

(** ** Answers of the statistics endpoints *)

(** [{ revealed, total, percent, bombsExploded }] *)
Module RevealedStats.
Record t : Type := mk {
  revealed : Z;
  total : Z;
  percent : Number.t;
  bombsExploded : Z;
}.
End RevealedStats.

(** [{ flagged, correctFlags, totalMines }] *)
Module FlaggedStats.
Record t : Type := mk {
  flagged : Z;
  correctFlags : Z;
  totalMines : Z;
}.
End FlaggedStats.

(** A loop inside a [try] block: the state reached when the loop ended, and
    the exception that ended it, if one did. *)
Fixpoint forEachTry {A St} (f : St -> A -> Result St) (l : list A) (s : St)
  : St * option Error :=
  match l with
  | [] => (s, None)
  | a :: l' =>
      match f s a with
      | Ok s' => forEachTry f l' s'
      | Throw e => (s, Some e)
      end
  end.

(** The answers of [GET /reveal-all]. *)
Inductive RevealAllResponse : Type :=
  | Forbidden                          (* status 403, in production *)
  | RevealedCells (revealedCount : Z)  (* [{ success: true, revealedCount }] *)
  | Failed.                            (* status 500, from the [catch] *)


(** A [cell_update] message as it goes out: the address, and the fields
    the cell object has at the time of the [emit]. *)
Module CellUpdate.
Record t : Type := mk {
  cx : Z;
  cy : Z;
  x : Z;
  y : Z;
  cell : Cell.t;
}.
End CellUpdate.


(** A result record of an operation called with the numbers of a request:
    the single-cell branches repeat the address as it was sent. *)
Module NumUpdate.
Record t : Type := mk {
  cx : Number.t;
  cy : Number.t;
  x : Number.t;
  y : Number.t;
  cell : Z * Z;
}.

(** A record whose address the code computed from integers. *)
Definition ofUpdate (u : Update.t) : t :=
  mk (Number.ofZ (Update.cx u)) (Number.ofZ (Update.cy u))
     (Number.ofZ (Update.x u)) (Number.ofZ (Update.y u)) (Update.cell u).
End NumUpdate.


Section Server.

(** The constants of [constants.js]. [MINE_PERCENTAGE] is the decimal
    literal; the code computes with the double nearest to it
    ([Number.ofQ]). *)
Variable CHUNK_SIZE : Z.
Variable GRID_WIDTH : Z.
Variable GRID_HEIGHT : Z.
Variable MINE_PERCENTAGE : Q.

(** [nx >= 0 && nx < GRID_WIDTH && ny >= 0 && ny < GRID_HEIGHT] *)
Definition inBounds (nx ny : Z) : bool :=
  (0 <=? nx) && (nx <? GRID_WIDTH) && (0 <=? ny) && (ny <? GRID_HEIGHT).

(** [globalX < 0 || globalX >= GRID_WIDTH || globalY < 0 || globalY >= GRID_HEIGHT] *)
Definition outOfBounds (globalX globalY : Z) : bool :=
  (globalX <? 0) || (GRID_WIDTH <=? globalX)
  || (globalY <? 0) || (GRID_HEIGHT <=? globalY).

(** *** Initialization *)

(** The allocation loops of [initializeCompleteGrid]. *)
Definition allocateGrid : Grid :=
  (fun y => (fun x => Cell.fresh x y) <$> seqZ 0 GRID_WIDTH)
    <$> seqZ 0 GRID_HEIGHT.

(** [Math.round(totalCells * MINE_PERCENTAGE)], where [totalCells] is
    [GRID_WIDTH * GRID_HEIGHT]: both products are products of doubles. *)
Definition mineCount : Z :=
  roundedCount
    (Number.mul (Number.mul (Number.ofZ GRID_WIDTH) (Number.ofZ GRID_HEIGHT))
                (Number.ofQ MINE_PERCENTAGE)).

(** The [while (placed < mineCount)] loop of [placeMinesInCompleteGrid].
    [rnd] is the sequence of values [Math.random()] returns, [i] the number
    of values already consumed, [fuel] bounds the number of iterations. *)
Fixpoint placeMinesLoop (fuel : nat) (rnd : nat -> Q) (i : nat)
    (placed : Z) (g : Grid) : Result Grid :=
  if decide (placed < mineCount) then
    match fuel with
    | O => Throw Exhausted
    | S fuel' =>
        let x := Qfloor (rnd i * inject_Z GRID_WIDTH)%Q in
        let y := Qfloor (rnd (S i) * inject_Z GRID_HEIGHT)%Q in
        c ← getCell g x y;
        if negb (Cell.hasMine c)
        then placeMinesLoop fuel' rnd (S (S i)) (placed + 1)
                            (updCell Cell.setHasMine x y g)
        else placeMinesLoop fuel' rnd (S (S i)) placed g
    end
  else Ok g.

Definition placeMinesInCompleteGrid (fuel : nat) (rnd : nat -> Q) (g : Grid)
  : Result Grid :=
  placeMinesLoop fuel rnd 0%nat 0 g.

Definition countAdjacentMinesInCompleteGrid (g : Grid) (x y : Z) : Result Z :=
  forEach (fun count '(dx, dy) =>
             let nx := x + dx in
             let ny := y + dy in
             if inBounds nx ny then
               c ← getCell g nx ny;
               Ok (if Cell.hasMine c then count + 1 else count)
             else Ok count)
          neighborOffsets 0.

Definition calculateAdjacentCountsForCompleteGrid (g : Grid) : Result Grid :=
  forEach (fun g y =>
    forEach (fun g x =>
               _ ← getCell g x y;
               n ← countAdjacentMinesInCompleteGrid g x y;
               Ok (updCell (Cell.setAdjacentMines n) x y g))
            (seqZ 0 GRID_WIDTH) g)
    (seqZ 0 GRID_HEIGHT) g.

Definition initializeCompleteGrid (fuel : nat) (rnd : nat -> Q) : Result Grid :=
  g ← placeMinesInCompleteGrid fuel rnd allocateGrid;
  calculateAdjacentCountsForCompleteGrid g.

(** *** Chunk extraction

    [startX + x] and [startY + y] are sums of integers, which the code's
    doubles hold exactly up to 2^53. *)

Definition extractChunkFromCompleteGrid (g : Grid) (cx cy : Z) : Result Chunk :=
  let startX := cx * CHUNK_SIZE in
  let startY := cy * CHUNK_SIZE in
  forEach (fun chunk y =>
    row ← forEach (fun row x =>
               let gridX := startX + x in
               let gridY := startY + y in
               if (gridX <? GRID_WIDTH) && (gridY <? GRID_HEIGHT) then
                 match index g gridY with
                 | None => Throw TypeError
                 | Some r =>
                     match index r gridX with
                     | Some c => Ok (row ++ [CellCopy c])
                     | None => Ok (row ++ [EmptyObject])
                     end
                 end
               else Ok (row ++ [CellCopy (Cell.fresh gridX gridY)]))
            (seqZ 0 CHUNK_SIZE) [];
    Ok (chunk ++ [row]))
    (seqZ 0 CHUNK_SIZE) [].

(** [getOrCreateChunk] of [server.js]: the chunk is extracted on the first
    request for its key and served from [gridChunks] afterwards. *)
Definition getOrCreateChunk (cx cy : Z) (sv : Server) : Result (Chunk * Server) :=
  let key := getChunkKey cx cy in
  match gridChunks sv !! key with
  | Some chunk => Ok (chunk, sv)
  | None =>
      chunk ← extractChunkFromCompleteGrid (completeGrid sv) cx cy;
      Ok (chunk, withChunks (<[key := chunk]> (gridChunks sv)) sv)
  end.

(** [getOrCreateChunk] of the sibling server file that keeps no chunk map
    (its comment: always extract fresh data instead of caching). *)
Definition getOrCreateChunk_uncached (cx cy : Z) (sv : Server)
  : Result (Chunk * Server) :=
  chunk ← extractChunkFromCompleteGrid (completeGrid sv) cx cy;
  Ok (chunk, sv).

(** *** Reveal and flood fill *)

(** The record pushed by [flood] and by the single-cell branch of
    [revealCellWithFlood]. *)
Definition updateAt (globalX globalY : Z) : Update.t :=
  Update.mk (globalX / CHUNK_SIZE) (globalY / CHUNK_SIZE)
            (Z.rem globalX CHUNK_SIZE) (Z.rem globalY CHUNK_SIZE)
            (globalX, globalY).

(** One iteration of the neighbour loops inside [flood]; [rec] is the
    recursive call. *)
Definition floodNeighbor (rec : Z -> Z -> FloodState -> Result FloodState)
    (globalX globalY : Z) (st : FloodState) (d : Z * Z) : Result FloodState :=
  let nx := globalX + d.1 in
  let ny := globalY + d.2 in
  if inBounds nx ny then
    neighborCell ← getCell (grid st) nx ny;
    if negb (Cell.revealed neighborCell) && negb (Cell.flagged neighborCell)
       && negb (Cell.hasMine neighborCell)
    then rec nx ny st
    else Ok st
  else Ok st.

(** The closure [flood]; the same code appears in [revealCell] and in
    [revealCellWithFlood]. [depth] bounds the nesting of calls. *)
Fixpoint flood (depth : nat) (globalX globalY : Z) (st : FloodState)
  : Result FloodState :=
  match depth with
  | O => Throw Exhausted
  | S depth' =>
      let key := (globalX, globalY) in
      if decide (key ∈ visited st) then Ok st else
      let vis := {[key]} ∪ visited st in
      cell ← getCell (grid st) globalX globalY;
      if Cell.revealed cell || Cell.flagged cell
      then Ok (mkFlood (grid st) vis (revealed st))
      else
        let st1 := mkFlood (updCell Cell.setRevealed globalX globalY (grid st))
                           vis
                           (revealed st ++ [updateAt globalX globalY]) in
        if (Cell.adjacentMines cell =? 0) && negb (Cell.hasMine cell)
        then forEach (floodNeighbor (flood depth') globalX globalY)
                     neighborOffsets st1
        else Ok st1
  end.

(** Nesting depth granted to [flood]: one frame per cell of the world and
    one more. *)
Definition stackDepth : nat := S (Z.to_nat (GRID_WIDTH * GRID_HEIGHT)).

Definition revealCell (cx cy x y : Z) (sv : Server)
  : Result (list Update.t * Server) :=
  let globalX := cx * CHUNK_SIZE + x in
  let globalY := cy * CHUNK_SIZE + y in
  if outOfBounds globalX globalY then Ok ([], sv) else
  cell ← getCell (completeGrid sv) globalX globalY;
  if Cell.revealed cell || Cell.flagged cell then Ok ([], sv) else
  if (Cell.adjacentMines cell =? 0) && negb (Cell.hasMine cell) then
    st ← flood stackDepth globalX globalY (mkFlood (completeGrid sv) ∅ []);
    Ok (revealed st, withGrid (grid st) sv)
  else
    let sv1 := if Cell.hasMine cell then explode sv else sv in
    Ok ([Update.mk cx cy x y (globalX, globalY)],
        withGrid (updCell Cell.setRevealed globalX globalY (completeGrid sv1)) sv1).

Definition revealCellWithFlood (globalX globalY : Z) (sv : Server)
  : Result (list Update.t * Server) :=
  cell ← getCell (completeGrid sv) globalX globalY;
  if Cell.revealed cell || Cell.flagged cell then Ok ([], sv) else
  if (Cell.adjacentMines cell =? 0) && negb (Cell.hasMine cell) then
    st ← flood stackDepth globalX globalY (mkFlood (completeGrid sv) ∅ []);
    Ok (revealed st, withGrid (grid st) sv)
  else
    Ok ([updateAt globalX globalY],
        withGrid (updCell Cell.setRevealed globalX globalY (completeGrid sv)) sv).

(** *** Flagging: the [flag_cell] handler *)

Definition flag_cell (cx cy x y : Z) (sv : Server)
  : Result (option Update.t * Server) :=
  let globalX := cx * CHUNK_SIZE + x in
  let globalY := cy * CHUNK_SIZE + y in
  if outOfBounds globalX globalY then Ok (None, sv) else
  cell ← getCell (completeGrid sv) globalX globalY;
  if Cell.revealed cell then Ok (None, sv) else
  Ok (Some (Update.mk cx cy x y (globalX, globalY)),
      withGrid (updCell Cell.toggleFlagged globalX globalY (completeGrid sv)) sv).

(** *** Chord click *)

Record Scan : Type := mkScan {
  flagCount : Z;
  revealedMineCount : Z;
  adjacentCells : list (Z * Z);
}.

(** One iteration of the neighbour loops of [handleChordClick]. *)
Definition scanNeighbor (g : Grid) (globalX globalY : Z) (s : Scan) (d : Z * Z)
  : Result Scan :=
  let nx := globalX + d.1 in
  let ny := globalY + d.2 in
  if inBounds nx ny then
    neighborCell ← getCell g nx ny;
    if Cell.flagged neighborCell then
      Ok (mkScan (flagCount s + 1) (revealedMineCount s) (adjacentCells s))
    else if Cell.revealed neighborCell && Cell.hasMine neighborCell then
      Ok (mkScan (flagCount s) (revealedMineCount s + 1) (adjacentCells s))
    else if negb (Cell.revealed neighborCell) then
      Ok (mkScan (flagCount s) (revealedMineCount s) (adjacentCells s ++ [(nx, ny)]))
    else Ok s
  else Ok s.

Definition scanNeighbors (g : Grid) (globalX globalY : Z) : Result Scan :=
  forEach (scanNeighbor g globalX globalY) neighborOffsets (mkScan 0 0 []).

(** One iteration of [for (const { x: nx, y: ny, cell: neighborCell } of
    adjacentCells)]. *)
Definition chordStep (acc : list Update.t * Server) (n : Z * Z)
  : Result (list Update.t * Server) :=
  let '(out, sv) := acc in
  let '(nx, ny) := n in
  neighborCell ← getCell (completeGrid sv) nx ny;
  if Cell.hasMine neighborCell then
    let sv1 := explode sv in
    Ok (out ++ [updateAt nx ny],
        withGrid (updCell Cell.setRevealed nx ny (completeGrid sv1)) sv1)
  else
    r ← revealCellWithFlood nx ny sv;
    Ok (out ++ r.1, r.2).

Definition handleChordClick (cx cy x y : Z) (sv : Server)
  : Result (list Update.t * Server) :=
  let globalX := cx * CHUNK_SIZE + x in
  let globalY := cy * CHUNK_SIZE + y in
  if outOfBounds globalX globalY then Ok ([], sv) else
  cell ← getCell (completeGrid sv) globalX globalY;
  if negb (Cell.revealed cell) || (Cell.adjacentMines cell =? 0) then Ok ([], sv) else
  s ← scanNeighbors (completeGrid sv) globalX globalY;
  if flagCount s + revealedMineCount s =? Cell.adjacentMines cell then
    forEach chordStep (adjacentCells s) ([], sv)
  else Ok ([], sv).

(** *** Validation helpers of [constants.js]

    Stated on integer arguments, for which [Number.isInteger] holds. *)

(** [cx >= 0 && cy >= 0] *)
Definition isValidChunkCoords (cx cy : Z) : bool := (0 <=? cx) && (0 <=? cy).

(** [x >= 0 && y >= 0 && x < CHUNK_SIZE && y < CHUNK_SIZE] *)
Definition isValidCellCoords (x y : Z) : bool :=
  (0 <=? x) && (0 <=? y) && (x <? CHUNK_SIZE) && (y <? CHUNK_SIZE).

(** *** [GET /chunk-count]: [gridChunks.size] *)
Definition chunk_count (sv : Server) : Z := Z.of_nat (size (gridChunks sv)).

(** *** [GET /revealed-stats] *)

(** The body of the two loops: [total++; if (completeGrid[y][x].revealed)
    revealed++]. *)
Definition revealedStep (g : Grid) (acc : Z * Z) (x y : Z) : Result (Z * Z) :=
  let '(revealed, total) := acc in
  c ← getCell g x y;
  Ok (if Cell.revealed c then revealed + 1 else revealed, total + 1).

Definition revealed_stats (sv : Server) : Result RevealedStats.t :=
  acc ← forEach (fun acc y =>
                   forEach (fun acc x => revealedStep (completeGrid sv) acc x y)
                           (seqZ 0 GRID_WIDTH) acc)
                (seqZ 0 GRID_HEIGHT) (0, 0);
  let '(revealed, total) := acc in
  Ok (RevealedStats.mk revealed total
        (if 0 <? total
         then Number.mul (Number.div (Number.ofZ revealed) (Number.ofZ total))
                         (Number.ofZ 100)
         else Number.ofZ 0)
        (bombsExploded sv)).

(** *** [GET /flagged-stats] *)

(** The body of the two loops on the counters [flagged], [correctFlags] and
    [totalMines]. *)
Definition flaggedStep (g : Grid) (acc : FlaggedStats.t) (x y : Z)
  : Result FlaggedStats.t :=
  cell ← getCell g x y;
  let totalMines := if Cell.hasMine cell
                    then FlaggedStats.totalMines acc + 1
                    else FlaggedStats.totalMines acc in
  if Cell.flagged cell then
    Ok (FlaggedStats.mk (FlaggedStats.flagged acc + 1)
          (if Cell.hasMine cell
           then FlaggedStats.correctFlags acc + 1
           else FlaggedStats.correctFlags acc)
          totalMines)
  else
    Ok (FlaggedStats.mk (FlaggedStats.flagged acc) (FlaggedStats.correctFlags acc)
          totalMines).

Definition flagged_stats (sv : Server) : Result FlaggedStats.t :=
  forEach (fun acc y =>
             forEach (fun acc x => flaggedStep (completeGrid sv) acc x y)
                     (seqZ 0 GRID_WIDTH) acc)
          (seqZ 0 GRID_HEIGHT) (FlaggedStats.mk 0 0 0).

(** *** [POST /reset-chunks]

    [gridChunks.clear()], then [initializeCompleteGrid()] on a new array. *)
Definition reset_chunks (fuel : nat) (rnd : nat -> Q) (sv : Server)
  : Result Server :=
  g ← initializeCompleteGrid fuel rnd;
  Ok (mkServer g ∅ (uniqueUsersEver sv) (bombsExploded sv)).

(** *** [GET /reveal-all] *)

(** The body of the first pair of loops: a cell that is neither revealed
    nor flagged is revealed and counted. *)
Definition revealAllStep (acc : Grid * Z) (q : Z * Z) : Result (Grid * Z) :=
  cell ← getCell acc.1 q.1 q.2;
  if negb (Cell.revealed cell) && negb (Cell.flagged cell)
  then Ok (updCell Cell.setRevealed q.1 q.2 acc.1, acc.2 + 1)
  else Ok acc.

(** The body of the second pair of loops: a [cell_update] is emitted for
    every revealed cell. *)
Definition broadcastStep (g : Grid) (out : list Update.t) (q : Z * Z)
  : Result (list Update.t) :=
  cell ← getCell g q.1 q.2;
  if Cell.revealed cell then Ok (out ++ [updateAt q.1 q.2]) else Ok out.

(** The handler: the answer, the [cell_update] messages emitted, and the
    server state it leaves. Both pairs of loops run row by row over the
    positions [(x, y)] of the world, inside one [try]. *)
Definition reveal_all (production : bool) (sv : Server)
  : RevealAllResponse * list Update.t * Server :=
  if production then (Forbidden, [], sv) else
  let positions := y ← seqZ 0 GRID_HEIGHT; x ← seqZ 0 GRID_WIDTH; [(x, y)] in
  let '(acc, e1) := forEachTry revealAllStep positions (completeGrid sv, 0) in
  let sv' := withGrid acc.1 sv in
  match e1 with
  | Some _ => (Failed, [], sv')
  | None =>
      let '(emitted, e2) := forEachTry (broadcastStep acc.1) positions [] in
      match e2 with
      | Some _ => (Failed, emitted, sv')
      | None => (RevealedCells acc.2, emitted, sv')
      end
  end.

(** *** The socket handlers [reveal_cell] and [chord_click] *)

(** [for (const r of revealed) io.emit('cell_update', { cx: r.cx, cy: r.cy,
    x: r.x, y: r.y, cell: r.cell })], on the grid [g] the call left: the
    cell objects are the grid's own. *)
Definition broadcast (g : Grid) (revealed : list Update.t)
  : Result (list CellUpdate.t) :=
  forEach (fun out r =>
             cell ← getCell g (Update.cell r).1 (Update.cell r).2;
             Ok (out ++ [CellUpdate.mk (Update.cx r) (Update.cy r)
                                       (Update.x r) (Update.y r) cell]))
          revealed [].

Definition reveal_cell (cx cy x y : Z) (sv : Server)
  : Result (list CellUpdate.t * Server) :=
  r ← revealCell cx cy x y sv;
  msgs ← broadcast (completeGrid r.2) r.1;
  Ok (msgs, r.2).

Definition chord_click (cx cy x y : Z) (sv : Server)
  : Result (list CellUpdate.t * Server) :=
  r ← handleChordClick cx cy x y sv;
  msgs ← broadcast (completeGrid r.2) r.1;
  Ok (msgs, r.2).

(** *** The operations on the numbers of a request

    The socket handlers hand the fields [cx], [cy], [x] and [y] of a request
    to the operations as they arrive. For fields that are numbers, integers
    or not: the global coordinates are sums and products of doubles, the
    bounds test compares doubles (a comparison with [NaN] is false), and
    [completeGrid[globalY][globalX]] is [undefined] unless both coordinates
    are integers, since an array has elements at integers only. Past the
    read of the cell the coordinates are integers of the world and the code
    runs as it does on integer arguments. *)

(** The result of an operation on integers as the same operation on
    numbers reports it. *)
Definition asNumbers (r : Result (list Update.t * Server))
  : Result (list NumUpdate.t * Server) :=
  match r with
  | Ok (out, sv) => Ok (NumUpdate.ofUpdate <$> out, sv)
  | Throw e => Throw e
  end.


(** [c * CHUNK_SIZE + v], the global coordinate of a request. *)
Definition globalCoordinate (c v : Number.t) : Number.t :=
  Number.add (Number.mul c (Number.ofZ CHUNK_SIZE)) v.

Definition outOfBounds_num (globalX globalY : Number.t) : bool :=
  Number.ltb globalX (Number.ofZ 0) || Number.leb (Number.ofZ GRID_WIDTH) globalX
  || Number.ltb globalY (Number.ofZ 0) || Number.leb (Number.ofZ GRID_HEIGHT) globalY.

(** [a[n]] on a JavaScript array, for a number [n]; with the element, the
    integer that [n] is. *)
Definition index_num {A} (a : list A) (n : Number.t) : option (Z * A) :=
  z ← Number.toZ n; v ← index a z; Some (z, v).

(** [completeGrid[globalY][globalX]] followed by a property read of the
    cell. *)
Definition getCell_num (g : Grid) (globalX globalY : Number.t)
  : Result (Z * Z * Cell.t) :=
  match index_num g globalY with
  | None => Throw TypeError
  | Some (gy, row) =>
      match index_num row globalX with
      | None => Throw TypeError
      | Some (gx, c) => Ok (gx, gy, c)
      end
  end.

Definition revealCell_num (cx cy x y : Number.t) (sv : Server)
  : Result (list NumUpdate.t * Server) :=
  let globalX := globalCoordinate cx x in
  let globalY := globalCoordinate cy y in
  if outOfBounds_num globalX globalY then Ok ([], sv) else
  found ← getCell_num (completeGrid sv) globalX globalY;
  let '(gx, gy, cell) := found in
  if Cell.revealed cell || Cell.flagged cell then Ok ([], sv) else
  if (Cell.adjacentMines cell =? 0) && negb (Cell.hasMine cell) then
    st ← flood stackDepth gx gy (mkFlood (completeGrid sv) ∅ []);
    Ok (NumUpdate.ofUpdate <$> revealed st, withGrid (grid st) sv)
  else
    let sv1 := if Cell.hasMine cell then explode sv else sv in
    Ok ([NumUpdate.mk cx cy x y (gx, gy)],
        withGrid (updCell Cell.setRevealed gx gy (completeGrid sv1)) sv1).

Definition flag_cell_num (cx cy x y : Number.t) (sv : Server)
  : Result (option NumUpdate.t * Server) :=
  let globalX := globalCoordinate cx x in
  let globalY := globalCoordinate cy y in
  if outOfBounds_num globalX globalY then Ok (None, sv) else
  found ← getCell_num (completeGrid sv) globalX globalY;
  let '(gx, gy, cell) := found in
  if Cell.revealed cell then Ok (None, sv) else
  Ok (Some (NumUpdate.mk cx cy x y (gx, gy)),
      withGrid (updCell Cell.toggleFlagged gx gy (completeGrid sv)) sv).

Definition handleChordClick_num (cx cy x y : Number.t) (sv : Server)
  : Result (list NumUpdate.t * Server) :=
  let globalX := globalCoordinate cx x in
  let globalY := globalCoordinate cy y in
  if outOfBounds_num globalX globalY then Ok ([], sv) else
  found ← getCell_num (completeGrid sv) globalX globalY;
  let '(gx, gy, cell) := found in
  if negb (Cell.revealed cell) || (Cell.adjacentMines cell =? 0) then Ok ([], sv) else
  s ← scanNeighbors (completeGrid sv) gx gy;
  if flagCount s + revealedMineCount s =? Cell.adjacentMines cell then
    asNumbers (forEach chordStep (adjacentCells s) ([], sv))
  else Ok ([], sv).


(** ** Specification vocabulary *)

(** The cell object at a position, when there is one. *)
Definition look (g : Grid) (p : Z * Z) : option Cell.t :=
  match getCell g p.1 p.2 with
  | Ok c => Some c
  | Throw _ => None
  end.

(** A world grid has [GRID_HEIGHT] rows of [GRID_WIDTH] cells. *)
Definition wfGrid (g : Grid) : Prop :=
  length g = Z.to_nat GRID_HEIGHT
  /\ Forall (fun row => length row = Z.to_nat GRID_WIDTH) g.

Definition inWorld (p : Z * Z) : Prop := inBounds p.1 p.2 = true.

(** [q] is one of the eight neighbours of [p]. *)
Definition nbr (p q : Z * Z) : Prop :=
  exists d, d ∈ neighborOffsets /\ q = (p.1 + d.1, p.2 + d.2).

(** In the world, neither revealed nor flagged. *)
Definition hidden (g : Grid) (p : Z * Z) : Prop :=
  inWorld p /\ exists c, look g p = Some c
    /\ Cell.revealed c = false /\ Cell.flagged c = false.

(** Hidden and not a mine: the test [flood] makes before it steps on a
    neighbour. *)
Definition open (g : Grid) (p : Z * Z) : Prop :=
  inWorld p /\ exists c, look g p = Some c
    /\ Cell.revealed c = false /\ Cell.flagged c = false
    /\ Cell.hasMine c = false.

(** A cell [flood] expands: no mine on it and none counted around it. *)
Definition zero (g : Grid) (p : Z * Z) : Prop :=
  exists c, look g p = Some c
    /\ Cell.adjacentMines c = 0 /\ Cell.hasMine c = false.

(** One step of the flood: from an expanding cell to an open neighbour. *)
Definition floodStep (g : Grid) (p q : Z * Z) : Prop :=
  zero g p /\ nbr p q /\ open g q.

(** The positions of the cell objects a result list refers to. *)
Definition cellsOf (l : list Update.t) : list (Z * Z) := Update.cell <$> l.

(** The grid after [cell.revealed = true] on each listed position. *)
Definition revealAll (l : list (Z * Z)) (g : Grid) : Grid :=
  fold_left (fun g p => updCell Cell.setRevealed p.1 p.2 g) l g.

(** The global coordinate a record's chunk and local coordinates name. *)
Definition globalOf (u : Update.t) : Z * Z :=
  (Update.cx u * CHUNK_SIZE + Update.x u, Update.cy u * CHUNK_SIZE + Update.y u).

(** ** The cells of the world as a finite set *)

Definition worldList : list (Z * Z) :=
  y ← seqZ 0 GRID_HEIGHT; x ← seqZ 0 GRID_WIDTH; [(x, y)].

Definition worldCells : gset (Z * Z) := list_to_set worldList.

(** What holds of the captured variables between any two steps of a flood
    that started on the grid [g0]. *)
Record FInv (g0 : Grid) (st : FloodState) : Prop := mkFInv {
  finv_grid : grid st = revealAll (cellsOf (revealed st)) g0;
  finv_nodup : NoDup (cellsOf (revealed st));
  finv_out : forall p, p ∈ cellsOf (revealed st) -> p ∈ visited st /\ hidden g0 p;
  finv_vis : forall p, p ∈ visited st -> inWorld p;
  finv_skip : forall p, p ∈ visited st -> p ∉ cellsOf (revealed st) -> ~ hidden g0 p;
  finv_rec : forall u, u ∈ revealed st ->
                       u = updateAt (Update.cell u).1 (Update.cell u).2;
}.

Definition unvisited (st : FloodState) : nat := size (worldCells ∖ visited st).

(** What a call [flood(p)] (or a run of the neighbour loops of [p])
    achieves between its start [st] and its end [st']. *)

Record FPost (g0 : Grid) (p : Z * Z) (st st' : FloodState) : Prop := mkFPost {
  fp_inv : FInv g0 st';
  fp_mono : visited st ⊆ visited st';
  fp_prefix : exists l, revealed st' = revealed st ++ l;
  fp_closed : forall q r,
    q ∈ visited st' -> q ∉ visited st -> q ∈ cellsOf (revealed st') ->
    floodStep g0 q r -> r ∈ visited st';
  fp_sound : forall q,
    q ∈ cellsOf (revealed st') -> q ∉ cellsOf (revealed st) ->
    rtc (floodStep g0) p q;
}.

(** The cells a reveal at [p] uncovers: nothing unless [p] is hidden, and
    then everything the flood steps reach from [p]. For a mine or a numbered
    cell no step leaves [p], and the set is [{p}]. *)
Definition uncovers (g : Grid) (p q : Z * Z) : Prop :=
  hidden g p /\ rtc (floodStep g) p q.

(** The records of a result list name, by chunk and local coordinates, the
    cells they refer to. *)
Definition wellAddressed (out : list Update.t) : Prop :=
  forall u, u ∈ out -> globalOf u = Update.cell u.

(** *** Mines, and what a reveal achieves *)

Definition hasMineAt (g : Grid) (p : Z * Z) : bool :=
  match look g p with
  | Some c => Cell.hasMine c
  | None => false
  end.

(** How many of the listed positions hold a mine. *)
Definition minesAmong (g : Grid) (l : list (Z * Z)) : Z :=
  Z.of_nat (length (filter (fun q => hasMineAt g q = true) l)).

(** What a reveal achieves: the result list [out], without repetition, holds
    exactly the cells [uncovers] names, and the grid differs from the one
    before by [revealed = true] on those cells. *)
Record RevealPost (g : Grid) (p : Z * Z) (out : list Update.t) (g' : Grid)
  : Prop := mkRevealPost {
  rp_grid : g' = revealAll (cellsOf out) g;
  rp_nodup : NoDup (cellsOf out);
  rp_cells : forall q, q ∈ cellsOf out <-> uncovers g p q;
  rp_addr : 0 < CHUNK_SIZE -> wellAddressed out;
}.

(** *** The neighbours a chord click looks at *)

Definition flaggedAt (g : Grid) (p : Z * Z) : bool :=
  match look g p with
  | Some c => Cell.flagged c
  | None => false
  end.

Definition revealedAt (g : Grid) (p : Z * Z) : bool :=
  match look g p with
  | Some c => Cell.revealed c
  | None => false
  end.

Definition shift (p d : Z * Z) : Z * Z := (p.1 + d.1, p.2 + d.2).

(** The neighbours of [p] that lie in the world, in loop order. *)
Definition neighborsIn (p : Z * Z) (ds : list (Z * Z)) : list (Z * Z) :=
  filter (fun q => inBounds q.1 q.2 = true) (shift p <$> ds).

Definition neighborsOf (p : Z * Z) : list (Z * Z) := neighborsIn p neighborOffsets.

(** The three classes the scan sorts the neighbours into. *)
Definition isFlagged (g : Grid) (q : Z * Z) : Prop := flaggedAt g q = true.
Definition isRevealedMine (g : Grid) (q : Z * Z) : Prop :=
  flaggedAt g q = false /\ revealedAt g q = true /\ hasMineAt g q = true.
Definition isCandidate (g : Grid) (q : Z * Z) : Prop :=
  flaggedAt g q = false /\ revealedAt g q = false.

#[local] Instance isFlagged_dec g q : Decision (isFlagged g q).
Proof. unfold isFlagged. apply _. Defined.
#[local] Instance isRevealedMine_dec g q : Decision (isRevealedMine g q).
Proof. unfold isRevealedMine. apply _. Defined.
#[local] Instance isCandidate_dec g q : Decision (isCandidate g q).
Proof. unfold isCandidate. apply _. Defined.

Definition flaggedNeighborCount (g : Grid) (p : Z * Z) : Z :=
  Z.of_nat (length (filter (isFlagged g) (neighborsOf p))).
Definition revealedMineNeighborCount (g : Grid) (p : Z * Z) : Z :=
  Z.of_nat (length (filter (isRevealedMine g) (neighborsOf p))).
Definition candidates (g : Grid) (p : Z * Z) : list (Z * Z) :=
  filter (isCandidate g) (neighborsOf p).

(** What holds between two steps of the reveal loop of
    [handleChordClick], started on the server state [sv0], once the
    candidates [seen] have been revealed. *)
Record ChordInv (sv0 : Server) (seen : list (Z * Z)) (out : list Update.t)
    (sv : Server) : Prop := mkChordInv {
  ci_grid : completeGrid sv = revealAll (cellsOf out) (completeGrid sv0);
  ci_nodup : NoDup (cellsOf out);
  ci_cells : forall q, q ∈ cellsOf out <-> exists m, m ∈ seen /\ uncovers (completeGrid sv0) m q;
  ci_addr : 0 < CHUNK_SIZE -> wellAddressed out;
  ci_bombs : bombsExploded sv = bombsExploded sv0 + minesAmong (completeGrid sv0) (cellsOf out);
  ci_chunks : gridChunks sv = gridChunks sv0;
  ci_users : uniqueUsersEver sv = uniqueUsersEver sv0;
}.

(** The chord click acts: the target is a revealed cell of the world with a
    non-zero number, and the flags and revealed mines around it add up to
    that number. *)
Definition chordFires (g : Grid) (p : Z * Z) : Prop :=
  inWorld p /\ exists c, look g p = Some c
    /\ Cell.revealed c = true /\ Cell.adjacentMines c <> 0
    /\ flaggedNeighborCount g p + revealedMineNeighborCount g p
       = Cell.adjacentMines c.

(** *** What a result list says about the change of the grid *)

(** [out] lists, without repetition, exactly the cells whose [revealed]
    went from false to true between [g] and [g']; every other cell object is
    the same, and no cell changed any other field. *)
Record Changed (g : Grid) (out : list Update.t) (g' : Grid) : Prop := mkChanged {
  ch_nodup : NoDup (cellsOf out);
  ch_exact : forall q, q ∈ cellsOf out
                       <-> revealedAt g q = false /\ revealedAt g' q = true;
  ch_listed : forall q, q ∈ cellsOf out -> revealedAt g' q = true;
  ch_frame : forall q, q ∉ cellsOf out -> look g' q = look g q;
  ch_flagged : forall q, flaggedAt g' q = flaggedAt g q;
  ch_mines : forall q, hasMineAt g' q = hasMineAt g q;
  ch_counts : forall q, Cell.adjacentMines <$> look g' q
                        = Cell.adjacentMines <$> look g q;
  ch_mono : forall q, revealedAt g q = true -> revealedAt g' q = true;
  ch_wf : wfGrid g -> wfGrid g';
}.

(** The coordinates the records of a result list carry. *)
Definition coordsOf (out : list Update.t) : list (Z * Z) := globalOf <$> out.

(** What is asked of a returned list [out], between the grid [g]
    before the call and the grid [g'] after it. *)
Definition listsChanges (g : Grid) (out : list Update.t) (g' : Grid) : Prop :=
  NoDup (coordsOf out)
  /\ (forall q, q ∈ coordsOf out
                <-> revealedAt g q = false /\ revealedAt g' q = true)
  /\ (forall u, u ∈ out -> Update.cell u = globalOf u
                           /\ revealedAt g' (Update.cell u) = true)
  /\ (forall q, q ∉ coordsOf out ->
                revealedAt g' q = revealedAt g q /\ flaggedAt g' q = flaggedAt g q).

(** *** Counts, regions, layouts *)

(** The number of neighbours of [p] inside the world that hold a mine. *)
Definition mineNeighbors (g : Grid) (p : Z * Z) : Z := minesAmong g (neighborsOf p).

(** Every cell's [adjacentMines] is the number of mines around it. *)
Definition adjacencyInvariant (g : Grid) : Prop :=
  forall p c, look g p = Some c -> Cell.adjacentMines c = mineNeighbors g p.

(** [R] is 8-connected: any two of its cells are joined by a path of
    neighbour steps that stays in [R]. *)
Definition connected (R : gset (Z * Z)) : Prop :=
  forall p q, p ∈ R -> q ∈ R -> rtc (fun a b => nbr a b /\ b ∈ R) p q.

(** [q] borders [R]: a cell of the world outside [R], next to a cell of
    [R]. *)
Definition borders (R : gset (Z * Z)) (q : Z * Z) : Prop :=
  inWorld q /\ (q ∉ R) /\ exists p, p ∈ R /\ nbr p q.

Definition numbered (g : Grid) (q : Z * Z) : Prop :=
  exists c, look g q = Some c /\ 0 < Cell.adjacentMines c.

(** The number of mines in the world, counted as the [/flagged-stats] loops
    count [totalMines]: over every [y < GRID_HEIGHT] and [x < GRID_WIDTH]. *)
Definition totalMines (g : Grid) : Z := minesAmong g worldList.

(** The state of the adjacency pass: the cells in [P] have their count,
    the others are untouched, and no other field changed. *)
Definition countsSet (g : Grid) (P : Z * Z -> Prop) (g' : Grid) : Prop :=
  wfGrid g'
  /\ forall q c, look g q = Some c ->
       exists n, look g' q = Some (Cell.setAdjacentMines n c)
                 /\ (P q -> n = mineNeighbors g q)
                 /\ (~ P q -> n = Cell.adjacentMines c).

(** The mine layout and the counts of [g] are those of [g']. *)
Definition layoutKept (g g' : Grid) : Prop :=
  wfGrid g'
  /\ (forall q, hasMineAt g' q = hasMineAt g q)
  /\ (forall q, Cell.adjacentMines <$> look g' q = Cell.adjacentMines <$> look g q).

(** The element pushed for the grid position [(gridX, gridY)]. *)
Definition extractCell (g : Grid) (gridX gridY : Z) : Result ChunkCell :=
  if (gridX <? GRID_WIDTH) && (gridY <? GRID_HEIGHT) then
    match index g gridY with
    | None => Throw TypeError
    | Some r =>
        match index r gridX with
        | Some c => Ok (CellCopy c)
        | None => Ok EmptyObject
        end
    end
  else Ok (CellCopy (Cell.fresh gridX gridY)).

(** The chunk cell for a position at or beyond the origin: a copy of the
    world's cell, or a default cell outside the world. *)
Definition chunkCellAt (g : Grid) (q : Z * Z) : ChunkCell :=
  match look g q with
  | Some c => CellCopy c
  | None => CellCopy (Cell.fresh q.1 q.2)
  end.

(** One [reveal_cell] request for the cell at the global coordinate [n],
    addressed as the result records address it; the records it returns are
    added to the ones collected so far. *)
Definition revealAt (acc : list Update.t * Server) (n : Z * Z)
  : Result (list Update.t * Server) :=
  r ← revealCell (n.1 / CHUNK_SIZE) (n.2 / CHUNK_SIZE)
                 (Z.rem n.1 CHUNK_SIZE) (Z.rem n.2 CHUNK_SIZE) acc.2;
  Ok (acc.1 ++ r.1, r.2).

(** No character of the string is a comma. *)
Fixpoint noComma (s : string) : bool :=
  match s with
  | EmptyString => true
  | String a s' => negb (Ascii.eqb a ","%char) && noComma s'
  end.

(** How many cells of the world satisfy [P]. *)
Definition countCells (P : Z * Z -> bool) : Z :=
  Z.of_nat (length (filter (fun q => P q = true) worldList)).

(** Neither revealed nor flagged, as a test. *)
Definition isHidden (g : Grid) (q : Z * Z) : bool :=
  negb (revealedAt g q) && negb (flaggedAt g q).

(** The cells of the world that satisfy [P], row by row. *)
Definition cellsWhere (P : Z * Z -> bool) : list (Z * Z) :=
  filter (fun q => P q = true) worldList.

(** Every cell object carries the coordinates of its place in the grid, as
    [initializeCompleteGrid] writes them. *)
Definition coordinatesKept (g : Grid) : Prop :=
  forall q c, look g q = Some c -> Cell.x c = q.1 /\ Cell.y c = q.2.

(** *** Numbers *)

(** A mantissa that lies above the least exponent keeps a digit when it is
    shifted to its precision. *)
Definition aboveLeast (m e : Z) : Prop :=
  0 < m /\ emin Number.prec Number.emax < e + Zdigits2 m.

(** The double that holds a positive integer below 2^53: the mantissa of
    53 digits and its exponent. *)
Definition mant (z : Z) : positive := Z.to_pos (z * 2 ^ (52 - Z.log2 z)).
Definition expo (z : Z) : Z := Z.log2 z - 52.

Definition exactNumber (z : Z) : Number.t :=
  match z with
  | Z0 => S754_zero false
  | Zpos p => S754_finite false (mant (Z.pos p)) (expo (Z.pos p))
  | Zneg p => S754_finite true (mant (Z.pos p)) (expo (Z.pos p))
  end.



(** ** Numbers: signs *)

Lemma binary_round_aux_sign s m e l :
  match binary_round_aux Number.prec Number.emax s m e l with
  | S754_zero s' | S754_infinity s' | S754_finite s' _ _ => s' = s
  | S754_nan => True
  end.
Proof.
  unfold binary_round_aux.
  destruct (shr_fexp _ _ m e l) as [mrs' e'].
  destruct (shr_fexp _ _ _ e' loc_Exact) as [mrs'' e''].
  destruct (shr_m mrs''); [done| |done].
  by destruct (e'' <=? _).
Qed.

Lemma Number_round_nonneg m e l :
  Number.nonneg (binary_round_aux Number.prec Number.emax false m e l) = true.
Proof.
  pose proof (binary_round_aux_sign false m e l) as H.
  destruct (binary_round_aux _ _ _ _ _ _) as [s'|s'| |s' m' e']; by subst.
Qed.

Lemma Number_round_nonpos m e l :
  Number.nonpos (binary_round_aux Number.prec Number.emax true m e l) = true.
Proof.
  pose proof (binary_round_aux_sign true m e l) as H.
  destruct (binary_round_aux _ _ _ _ _ _) as [s'|s'| |s' m' e']; by subst.
Qed.

Lemma Number_ofZ_nonneg z : 0 <= z -> Number.nonneg (Number.ofZ z) = true.
Proof.
  intros Hz. destruct z as [|p|p]; [done| |lia].
  unfold Number.ofZ, binary_normalize, binary_round.
  destruct (shl_align _ _ _) as [mz ez]. apply Number_round_nonneg.
Qed.

Lemma Number_ofQ_nonneg q : (0 <= q)%Q -> Number.nonneg (Number.ofQ q) = true.
Proof.
  destruct q as [[|n|n] d]; unfold Qle; cbn [Qnum Qden]; intros Hq; [done| |lia].
  unfold Number.ofQ. cbn [Qnum Qden SFdiv xorb].
  destruct (SFdiv_core_binary _ _ _ _ _ _) as [[mz ez] lz].
  apply Number_round_nonneg.
Qed.

Lemma Number_ofQ_nonpos q : (q <= 0)%Q -> Number.nonpos (Number.ofQ q) = true.
Proof.
  destruct q as [[|n|n] d]; unfold Qle; cbn [Qnum Qden]; intros Hq; [done|lia|].
  unfold Number.ofQ. cbn [Qnum Qden SFdiv xorb].
  destruct (SFdiv_core_binary _ _ _ _ _ _) as [[mz ez] lz].
  apply Number_round_nonpos.
Qed.

Lemma Number_mul_nonneg x y :
  Number.nonneg x = true -> Number.nonneg y = true ->
  Number.nonneg (Number.mul x y) = true.
Proof.
  destruct x as [sx|[]| |[] mx ex], y as [sy|[]| |[] my ey]; try done.
  intros _ _. apply Number_round_nonneg.
Qed.

Lemma Number_mul_nonpos x y :
  Number.nonneg x = true -> Number.nonpos y = true ->
  Number.nonpos (Number.mul x y) = true.
Proof.
  destruct x as [sx|[]| |[] mx ex], y as [sy|[]| |[] my ey]; try done.
  intros _ _. apply Number_round_nonpos.
Qed.

Lemma Number_mul_null x y :
  Number.null x = true -> Number.null (Number.mul x y) = true.
Proof. by destruct x as [sx|[]| |[] mx ex], y as [sy|[]| |[] my ey]. Qed.

Lemma Math_round_nonneg q : (0 <= q)%Q -> 0 <= Math_round q.
Proof.
  intros Hq. unfold Math_round.
  change (Qfloor 0 <= Qfloor (q + (1 # 2))). apply Qfloor_resp_le.
  apply Qle_trans with q; [done|].
  rewrite <- (Qplus_0_r q) at 1. apply Qplus_le_r. done.
Qed.

Lemma Math_round_nonpos q : (q <= 0)%Q -> Math_round q <= 0.
Proof.
  intros Hq. unfold Math_round.
  change (Qfloor (q + (1 # 2)) <= Qfloor (1 # 2)). apply Qfloor_resp_le.
  rewrite <- (Qplus_0_l (1 # 2)) at 2. by apply Qplus_le_l.
Qed.

Lemma Number_value_sign s m e q :
  Number.value (S754_finite s m e) = Some q ->
  if s then (q <= 0)%Q else (0 <= q)%Q.
Proof.
  cbn [Number.value]. intros [= <-].
  pose proof (Z.pow_nonneg 2 e).
  destruct s, (0 <=? e); try (unfold Qle; cbn; lia);
    change 0%Q with (inject_Z 0); rewrite <- Zle_Qle; nia.
Qed.

Lemma roundedCount_nonneg n : Number.nonneg n = true -> 0 <= roundedCount n.
Proof.
  destruct n as [s|[]| |[] m e]; intros Hn; try discriminate Hn; try reflexivity.
  - unfold roundedCount. apply Z.lt_le_incl, Z.pow_pos_nonneg; lia.
  - pose proof (Number_value_sign false m e) as H. unfold roundedCount.
    destruct (Number.value _) as [q|]; [|done].
    apply Math_round_nonneg. by apply H.
Qed.

Lemma roundedCount_nonpos n : Number.nonpos n = true -> roundedCount n <= 0.
Proof.
  destruct n as [s|[]| |[] m e]; intros Hn; try discriminate Hn; try reflexivity.
  - unfold roundedCount. pose proof (Z.pow_pos_nonneg 2 1024). lia.
  - pose proof (Number_value_sign true m e) as H. unfold roundedCount.
    destruct (Number.value _) as [q|]; [|done].
    apply Math_round_nonpos. by apply H.
Qed.

Lemma roundedCount_null n : Number.null n = true -> roundedCount n = 0.
Proof. by destruct n as [s|[]| |[] m e]. Qed.

Lemma Number_mul_null_r x y :
  Number.null y = true -> Number.null (Number.mul x y) = true.
Proof. by destruct x as [sx|[]| |[] mx ex], y as [sy|[]| |[] my ey]. Qed.

(** ** Numbers: an integer other than 0 is a number other than 0 *)

Lemma digits2_pos_log2 p : Z.pos (digits2_pos p) = Z.log2 (Z.pos p) + 1.
Proof.
  assert (forall q, digits2_pos q = Pos.size q) as Hsize.
  { induction q as [q IH|q IH|]; cbn; by rewrite ?IH. }
  rewrite Hsize. destruct p; cbn; lia.
Qed.

Lemma shr_1_m mrs : 0 <= shr_m mrs -> shr_m (shr_1 mrs) = shr_m mrs / 2.
Proof.
  destruct mrs as [m r s]. cbn [shr_m]. intros Hm.
  destruct m as [|[p|p|]|p]; cbn [shr_1 shr_m]; try done; try lia.
  - rewrite Pos2Z.inj_xI. apply Z.div_unique with 1; lia.
  - rewrite Pos2Z.inj_xO. apply Z.div_unique with 0; lia.
Qed.

Lemma shr_iter_m p mrs :
  0 <= shr_m mrs ->
  shr_m (SpecFloat.iter_pos shr_1 p mrs) = shr_m mrs / 2 ^ Z.pos p.
Proof.
  revert mrs. induction p as [p IH|p IH|]; intros mrs Hm; cbn [SpecFloat.iter_pos].
  - assert (0 < 2 ^ Z.pos p) as Hpow by by apply Z.pow_pos_nonneg.
    assert (0 <= shr_m (shr_1 mrs)) as H1.
    { rewrite shr_1_m by done. by apply Z.div_pos. }
    assert (0 <= shr_m (SpecFloat.iter_pos shr_1 p (shr_1 mrs))) as H2.
    { rewrite IH by done. by apply Z.div_pos. }
    rewrite IH, IH, shr_1_m by done.
    rewrite !Z.div_div by lia.
    f_equal. replace (Z.pos p~1) with (1 + (Z.pos p + Z.pos p)) by lia.
    rewrite !Z.pow_add_r, Z.pow_1_r by lia. ring.
  - assert (0 < 2 ^ Z.pos p) as Hpow by by apply Z.pow_pos_nonneg.
    assert (0 <= shr_m (SpecFloat.iter_pos shr_1 p mrs)) as H2.
    { rewrite IH by done. by apply Z.div_pos. }
    rewrite IH, IH by done.
    rewrite !Z.div_div by lia.
    f_equal. replace (Z.pos p~0) with (Z.pos p + Z.pos p) by lia.
    by rewrite Z.pow_add_r by lia.
  - by apply shr_1_m.
Qed.

Lemma Zdigits2_log2 m : 0 < m -> Zdigits2 m = Z.log2 m + 1.
Proof. destruct m as [|p|p]; [lia| |lia]. intros _. apply digits2_pos_log2. Qed.

Lemma shr_fexp_aboveLeast m e l :
  aboveLeast m e ->
  aboveLeast (shr_m (shr_fexp Number.prec Number.emax m e l).1)
             (shr_fexp Number.prec Number.emax m e l).2.
Proof.
  intros [Hm He]. unfold shr_fexp, shr.
  remember (fexp Number.prec Number.emax (Zdigits2 m + e) - e) as n eqn:Hn.
  assert (shr_m (shr_record_of_loc m l) = m) as Hrec by by destruct l as [|[]].
  destruct n as [|p|p]; cbn [fst snd]; rewrite ?Hrec; try done.
  rewrite shr_iter_m by (rewrite Hrec; lia). rewrite Hrec.
  rewrite Zdigits2_log2 in He, Hn by done.
  assert (Z.pos p <= Z.log2 m) as Hp.
  { unfold fexp, emin, Number.prec, Number.emax in *. lia. }
  rewrite <- Z.shiftr_div_pow2 by lia.
  assert (0 < Z.shiftr m (Z.pos p)) as Hpos.
  { rewrite Z.shiftr_div_pow2 by lia.
    apply Z.div_str_pos. split; [by apply Z.pow_pos_nonneg|].
    etrans; [|apply Z.log2_spec; lia]. apply Z.pow_le_mono_r; lia. }
  split; [done|]. rewrite Zdigits2_log2 by done.
  rewrite Z.log2_shiftr by done. lia.
Qed.

Lemma round_nearest_even_aboveLeast m e l :
  aboveLeast m e -> aboveLeast (round_nearest_even m l) e.
Proof.
  intros [Hm He].
  assert (m <= round_nearest_even m l) as Hle.
  { destruct l as [|[]]; cbn; try lia. destruct (Z.even m); lia. }
  split; [lia|]. rewrite Zdigits2_log2 in * by lia.
  pose proof (Z.log2_le_mono m _ Hle). lia.
Qed.

Lemma binary_round_aux_aboveLeast s m e l :
  aboveLeast m e ->
  match binary_round_aux Number.prec Number.emax s m e l with
  | S754_finite _ _ _ | S754_infinity _ => True
  | _ => False
  end.
Proof.
  intros H. unfold binary_round_aux.
  pose proof (shr_fexp_aboveLeast m e l H) as H1.
  destruct (shr_fexp _ _ m e l) as [mrs' e']. cbn [fst snd] in H1.
  pose proof (round_nearest_even_aboveLeast _ _ (loc_of_shr_record mrs') H1) as H2.
  pose proof (shr_fexp_aboveLeast _ _ loc_Exact H2) as H3.
  destruct (shr_fexp _ _ _ e' loc_Exact) as [mrs'' e'']. cbn [fst snd] in H3.
  destruct H3 as [H3 _]. destruct (shr_m mrs''); [lia| |lia].
  by destruct (e'' <=? _).
Qed.

Lemma Number_ofZ_pos z :
  0 < z ->
  match Number.ofZ z with
  | S754_finite false _ _ | S754_infinity false => True
  | _ => False
  end.
Proof.
  intros Hz. destruct z as [|p|p]; [lia| |lia].
  unfold Number.ofZ, binary_normalize, binary_round.
  pose proof (binary_round_aux_sign false) as Hsign.
  pose proof (binary_round_aux_aboveLeast false) as Hpos.
  destruct (shl_align p 0 _) as [mz ez] eqn:Hal.
  specialize (Hsign (Z.pos mz) ez loc_Exact).
  specialize (Hpos (Z.pos mz) ez loc_Exact).
  assert (aboveLeast (Z.pos mz) ez) as Habove.
  { split; [done|]. unfold shl_align in Hal.
    pose proof (Pos2Z.is_pos (digits2_pos mz)).
    pose proof (Pos2Z.is_pos (digits2_pos p)).
    unfold fexp, emin, Number.prec, Number.emax in *. cbn [Zdigits2].
    destruct (_ - 0) eqn:Hd in Hal; injection Hal as <- <-; lia. }
  specialize (Hpos Habove).
  destruct (binary_round_aux _ _ _ _ _ _) as [s'|s'| |s' m' e']; by subst.
Qed.

(** [(0 / total) * 100] is [0] for every [total] above 0. *)
Lemma percent_of_none t :
  0 < t ->
  Number.mul (Number.div (Number.ofZ 0) (Number.ofZ t)) (Number.ofZ 100)
  = Number.ofZ 0.
Proof.
  intros Ht. pose proof (Number_ofZ_pos t Ht) as H.
  by destruct (Number.ofZ t) as [s'|[]| |[] m' e'].
Qed.

(** ** Numbers: integers below 2^53 *)










Lemma exactNumber_neg z :
  0 < z < 2 ^ 53 -> exactNumber (- z) = S754_finite true (mant z) (expo z).
Proof. intros Hz. destruct z as [|p|p]; [lia|done|lia]. Qed.






Lemma cond_Zopp_exact a :
  a <> 0 -> cond_Zopp (a <? 0) (Z.abs a) = a.
Proof. intros Ha. destruct a; try done. Qed.








(** ** Numbers: every result of an operation is a double *)










(** The sign of the mine count. *)
Lemma mineCount_nonneg :
  0 <= GRID_WIDTH -> 0 <= GRID_HEIGHT -> (0 <= MINE_PERCENTAGE)%Q ->
  0 <= mineCount.
Proof.
  intros HW HH Hp. apply roundedCount_nonneg.
  apply Number_mul_nonneg; [|by apply Number_ofQ_nonneg].
  apply Number_mul_nonneg; by apply Number_ofZ_nonneg.
Qed.

Lemma mineCount_nonpos :
  0 <= GRID_WIDTH -> 0 <= GRID_HEIGHT ->
  GRID_WIDTH = 0 \/ GRID_HEIGHT = 0 \/ (MINE_PERCENTAGE <= 0)%Q ->
  mineCount <= 0.
Proof.
  intros HW HH [H0|[H0|Hp]].
  - unfold mineCount. rewrite roundedCount_null; [done|].
    do 2 apply Number_mul_null. by rewrite H0.
  - unfold mineCount. rewrite roundedCount_null; [done|].
    apply Number_mul_null, Number_mul_null_r. by rewrite H0.
  - apply roundedCount_nonpos.
    apply Number_mul_nonpos; [|by apply Number_ofQ_nonpos].
    apply Number_mul_nonneg; by apply Number_ofZ_nonneg.
Qed.

(** ** Grid lemmas *)

Lemma inBounds_spec nx ny :
  inBounds nx ny = true <-> 0 <= nx < GRID_WIDTH /\ 0 <= ny < GRID_HEIGHT.
Proof. unfold inBounds. rewrite !andb_true_iff. lia. Qed.

Lemma outOfBounds_inBounds gx gy : outOfBounds gx gy = negb (inBounds gx gy).
Proof.
  unfold outOfBounds, inBounds.
  destruct (Z.ltb_spec gx 0), (Z.leb_spec GRID_WIDTH gx), (Z.ltb_spec gy 0),
    (Z.leb_spec GRID_HEIGHT gy), (Z.leb_spec 0 gx), (Z.ltb_spec gx GRID_WIDTH),
    (Z.leb_spec 0 gy), (Z.ltb_spec gy GRID_HEIGHT); simpl; try reflexivity; lia.
Qed.

Lemma index_Some {A} (a : list A) i v :
  index a i = Some v <-> 0 <= i /\ a !! Z.to_nat i = Some v.
Proof.
  unfold index. destruct (decide (0 <= i)) as [Hi|Hi].
  - split; [intros E; by split | by intros [_ E]].
  - split; [done | by intros [? _]].
Qed.

Lemma index_lt {A} (a : list A) i :
  0 <= i -> (Z.to_nat i < length a)%nat -> is_Some (index a i).
Proof.
  intros Hi Hlen. unfold index. rewrite decide_True by done.
  by apply lookup_lt_is_Some_2.
Qed.

Lemma getCell_Ok g gx gy c :
  getCell g gx gy = Ok c <->
  0 <= gx /\ 0 <= gy /\
  exists row, g !! Z.to_nat gy = Some row /\ row !! Z.to_nat gx = Some c.
Proof.
  unfold getCell. split.
  - destruct (index g gy) as [row|] eqn:Hr; [|done].
    destruct (index row gx) as [c'|] eqn:Hc; [|done].
    intros [= ->]. apply index_Some in Hr as [Hy Hr].
    apply index_Some in Hc as [Hx Hc]. split; [done|]. split; [done|].
    by exists row.
  - intros (Hx & Hy & row & Hr & Hc).
    assert (index g gy = Some row) as -> by (by apply index_Some).
    assert (index row gx = Some c) as -> by (by apply index_Some).
    done.
Qed.

Lemma getCell_wf g gx gy :
  wfGrid g -> inBounds gx gy = true -> exists c, getCell g gx gy = Ok c.
Proof.
  intros [Hlen Hrows] [Hx Hy]%inBounds_spec.
  destruct (lookup_lt_is_Some_2 g (Z.to_nat gy)) as [row Hrow]; [lia|].
  assert (length row = Z.to_nat GRID_WIDTH) as Hw.
  { eapply Forall_lookup_1 in Hrows; eauto. }
  destruct (lookup_lt_is_Some_2 row (Z.to_nat gx)) as [c Hc]; [lia|].
  exists c. apply getCell_Ok. eauto 10 with lia.
Qed.

Lemma getCell_wf_inv g gx gy c :
  wfGrid g -> getCell g gx gy = Ok c -> inBounds gx gy = true.
Proof.
  intros [Hlen Hrows] (Hx & Hy & row & Hr & Hc)%getCell_Ok.
  apply inBounds_spec.
  pose proof (lookup_lt_Some _ _ _ Hr).
  eapply Forall_lookup_1 in Hrows; eauto.
  pose proof (lookup_lt_Some _ _ _ Hc). lia.
Qed.

Lemma wfGrid_updCell f gx gy g : wfGrid g -> wfGrid (updCell f gx gy g).
Proof.
  intros [Hlen Hrows]. split; unfold updCell.
  - by rewrite length_alter.
  - apply Forall_alter; [done|]. intros row _ Hrow. simpl.
    by rewrite length_alter.
Qed.

Lemma getCell_updCell_eq f gx gy g c :
  getCell g gx gy = Ok c -> getCell (updCell f gx gy g) gx gy = Ok (f c).
Proof.
  intros (Hx & Hy & row & Hr & Hc)%getCell_Ok. apply getCell_Ok.
  split; [done|]. split; [done|]. exists (alter f (Z.to_nat gx) row).
  unfold updCell. rewrite list_lookup_alter_eq, Hr. simpl.
  by rewrite list_lookup_alter_eq, Hc.
Qed.

Lemma getCell_updCell_ne f gx gy g nx ny :
  0 <= gx -> 0 <= gy -> (gx, gy) <> (nx, ny) ->
  getCell (updCell f gx gy g) nx ny = getCell g nx ny.
Proof.
  intros Hx Hy Hne. unfold getCell, index, updCell.
  destruct (decide (0 <= ny)) as [Hny|]; [|done].
  destruct (decide (gy = ny)) as [->|Hyne].
  - rewrite list_lookup_alter_eq. destruct (g !! Z.to_nat ny) as [row|]; [|done].
    simpl. destruct (decide (0 <= nx)) as [Hnx|]; [|done].
    rewrite list_lookup_alter_ne; [done|]. intros E. apply Hne. f_equal. lia.
  - rewrite list_lookup_alter_ne; [done|]. lia.
Qed.

Lemma look_Some g p c : look g p = Some c <-> getCell g p.1 p.2 = Ok c.
Proof. unfold look. destruct (getCell g p.1 p.2); naive_solver. Qed.

Lemma look_wf g p : wfGrid g -> inWorld p -> is_Some (look g p).
Proof.
  intros Hwf Hp. destruct (getCell_wf g p.1 p.2 Hwf Hp) as [c Hc].
  exists c. by apply look_Some.
Qed.

Lemma look_updCell f g p q :
  0 <= p.1 -> 0 <= p.2 ->
  look (updCell f p.1 p.2 g) q
  = if decide (p = q) then f <$> look g p else look g q.
Proof.
  intros Hx Hy. case_decide as Hpq.
  - subst q. unfold look. destruct (getCell g p.1 p.2) as [c|e] eqn:Hc.
    + by rewrite (getCell_updCell_eq _ _ _ _ _ Hc).
    + destruct (getCell (updCell f p.1 p.2 g) p.1 p.2) as [c'|] eqn:Hc'; [|done].
      exfalso. apply getCell_Ok in Hc' as (_ & _ & row & Hr & Hc').
      unfold updCell in Hr. rewrite list_lookup_alter_eq in Hr.
      destruct (g !! Z.to_nat p.2) as [row0|] eqn:Hr0; [|done].
      simpl in Hr. injection Hr as <-. rewrite list_lookup_alter_eq in Hc'.
      destruct (row0 !! Z.to_nat p.1) as [c0|] eqn:Hc0; [|done].
      assert (getCell g p.1 p.2 = Ok c0) by (apply getCell_Ok; eauto 10).
      congruence.
  - unfold look. rewrite getCell_updCell_ne; [done..|].
    destruct p, q; simpl in *. congruence.
Qed.

(** ** [revealAll]: the frame of a reveal *)

Lemma revealAll_snoc l p g :
  revealAll (l ++ [p]) g = updCell Cell.setRevealed p.1 p.2 (revealAll l g).
Proof. unfold revealAll. by rewrite fold_left_app. Qed.

Lemma revealAll_app l1 l2 g :
  revealAll (l1 ++ l2) g = revealAll l2 (revealAll l1 g).
Proof. unfold revealAll. by rewrite fold_left_app. Qed.

Lemma wfGrid_revealAll l g : wfGrid g -> wfGrid (revealAll l g).
Proof.
  revert g. induction l as [|p l IH]; intros g Hg; [done|].
  simpl. apply IH. by apply wfGrid_updCell.
Qed.

Lemma look_revealAll l g q :
  (forall p, p ∈ l -> 0 <= p.1 /\ 0 <= p.2) ->
  look (revealAll l g) q
  = (if decide (q ∈ l) then Cell.setRevealed else id) <$> look g q.
Proof.
  induction l as [|p l IH] using rev_ind; intros Hl.
  - simpl. destruct (decide (q ∈ [])) as [Hin%not_elem_of_nil|_]; [done|].
    by destruct (look g q).
  - rewrite revealAll_snoc.
    destruct (Hl p) as [Hx Hy]; [apply elem_of_app; right; by apply list_elem_of_singleton|].
    rewrite look_updCell by done.
    assert (forall p', p' ∈ l -> 0 <= p'.1 /\ 0 <= p'.2) as Hl'.
    { intros p' Hp'. apply Hl, elem_of_app. by left. }
    specialize (IH Hl').
    destruct (decide (p = q)) as [->|Hne].
    + rewrite IH. destruct (decide (q ∈ l ++ [q])) as [_|Hn].
      2:{ exfalso. apply Hn, elem_of_app. right. by apply list_elem_of_singleton. }
      destruct (look g q) as [c|]; [|done]. simpl. by case_decide.
    + rewrite IH. destruct (decide (q ∈ l)) as [Hin|Hnin];
        destruct (decide (q ∈ l ++ [p])) as [Hin'|Hnin']; try done.
      * exfalso. apply Hnin', elem_of_app. by left.
      * exfalso. apply elem_of_app in Hin' as [?|Hq%list_elem_of_singleton]; congruence.
Qed.

(** A reveal changes no field but [revealed]. *)
Lemma setRevealed_fields c :
  Cell.hasMine (Cell.setRevealed c) = Cell.hasMine c
  /\ Cell.flagged (Cell.setRevealed c) = Cell.flagged c
  /\ Cell.adjacentMines (Cell.setRevealed c) = Cell.adjacentMines c
  /\ Cell.x (Cell.setRevealed c) = Cell.x c
  /\ Cell.y (Cell.setRevealed c) = Cell.y c
  /\ Cell.revealed (Cell.setRevealed c) = true.
Proof. by destruct c. Qed.

Lemma elem_of_worldList p : p ∈ worldList <-> inWorld p.
Proof.
  unfold worldList, inWorld. rewrite inBounds_spec, list_elem_of_bind.
  split.
  - intros (y & (x & Hx & Hxy)%list_elem_of_bind & Hy).
    apply list_elem_of_singleton in Hx as ->. simpl.
    apply elem_of_seqZ in Hxy, Hy. lia.
  - intros [Hx Hy]. exists p.2. split; [|apply elem_of_seqZ; lia].
    apply list_elem_of_bind. exists p.1. split; [|apply elem_of_seqZ; lia].
    apply list_elem_of_singleton. by destruct p.
Qed.

Lemma elem_of_worldCells p : p ∈ worldCells <-> inWorld p.
Proof. unfold worldCells. by rewrite elem_of_list_to_set, elem_of_worldList. Qed.

Lemma length_worldList :
  length worldList = (Z.to_nat GRID_HEIGHT * Z.to_nat GRID_WIDTH)%nat.
Proof.
  unfold worldList. rewrite <- (length_seqZ 0 GRID_HEIGHT).
  induction (seqZ 0 GRID_HEIGHT) as [|y l IH]; [done|].
  cbn [mbind list_bind]. cbn [mbind] in IH. rewrite length_app, IH. simpl. f_equal.
  rewrite <- (length_seqZ 0 GRID_WIDTH).
  clear. induction (seqZ 0 GRID_WIDTH) as [|x l IH]; [done|].
  cbn. f_equal. apply IH.
Qed.

Lemma size_list_to_set_le (l : list (Z * Z)) :
  (size (list_to_set l : gset (Z * Z)) <= length l)%nat.
Proof.
  induction l as [|a l IH].
  - by rewrite list_to_set_nil, size_empty.
  - rewrite list_to_set_cons, size_union_alt, size_singleton. cbn [length].
    assert (size (list_to_set l ∖ {[a]} : gset (Z * Z)) <= size (list_to_set l : gset (Z * Z)))%nat
      by (apply subseteq_size; set_solver).
    lia.
Qed.

Lemma size_worldCells : (size worldCells < stackDepth)%nat.
Proof.
  unfold worldCells, stackDepth.
  pose proof (size_list_to_set_le worldList) as Hle.
  rewrite length_worldList in Hle.
  destruct (Z_le_gt_dec GRID_WIDTH 0), (Z_le_gt_dec GRID_HEIGHT 0);
    try (replace (Z.to_nat GRID_WIDTH) with 0%nat in Hle by lia);
    try (replace (Z.to_nat GRID_HEIGHT) with 0%nat in Hle by lia);
    lia.
Qed.

(** ** The flood fill *)

Section Flood.

(** The grid when the outermost [flood] call starts. *)
Variable g0 : Grid.
Hypothesis wf0 : wfGrid g0.

Lemma FInv_wf st : FInv g0 st -> wfGrid (grid st).
Proof. intros [-> _ _ _ _ _]. by apply wfGrid_revealAll. Qed.

Lemma inWorld_nonneg p : inWorld p -> 0 <= p.1 /\ 0 <= p.2.
Proof. intros ?%inBounds_spec. lia. Qed.

Lemma FInv_look st q :
  FInv g0 st ->
  look (grid st) q
  = (if decide (q ∈ cellsOf (revealed st)) then Cell.setRevealed else id)
      <$> look g0 q.
Proof.
  intros Hinv. rewrite (finv_grid g0 _ Hinv). apply look_revealAll.
  intros p Hp. apply inWorld_nonneg. by destruct (finv_out g0 _ Hinv p Hp) as [_ [? _]].
Qed.

Lemma FInv_look_fresh st q :
  FInv g0 st -> q ∉ cellsOf (revealed st) -> look (grid st) q = look g0 q.
Proof.
  intros Hinv Hq. rewrite FInv_look by done.
  destruct (decide (q ∈ cellsOf (revealed st))); [done|].
  by destruct (look g0 q).
Qed.

Lemma unvisited_mono st st' :
  visited st ⊆ visited st' -> (unvisited st' <= unvisited st)%nat.
Proof. intros Hsub. unfold unvisited. apply subseteq_size. set_solver. Qed.

Lemma unvisited_add p (g g' : Grid) V (o o' : list Update.t) :
  inWorld p -> p ∉ V ->
  (unvisited (mkFlood g' ({[p]} ∪ V) o') < unvisited (mkFlood g V o))%nat.
Proof.
  intros Hp Hn. unfold unvisited. apply subset_size. unfold visited.
  apply elem_of_worldCells in Hp. set_solver.
Qed.

Lemma FPost_refl p st : FInv g0 st -> FPost g0 p st st.
Proof.
  intros Hinv. split; [done|done|by exists []; rewrite app_nil_r|done..].
Qed.

Lemma cellsOf_snoc l u : cellsOf (l ++ [u]) = cellsOf l ++ [Update.cell u].
Proof. unfold cellsOf. by rewrite fmap_app. Qed.

Lemma cellsOf_app l1 l2 : cellsOf (l1 ++ l2) = cellsOf l1 ++ cellsOf l2.
Proof. unfold cellsOf. by rewrite fmap_app. Qed.

(** The neighbour loops of an expanding cell [p], given the contract of
    the recursive calls. *)
Lemma floodLoop_spec (rec : Z -> Z -> FloodState -> Result FloodState)
    (bound : nat) (p : Z * Z) :
  (forall q st, FInv g0 st -> inWorld q -> (unvisited st < bound)%nat ->
     exists st', rec q.1 q.2 st = Ok st' /\ FPost g0 q st st' /\ q ∈ visited st') ->
  zero g0 p ->
  forall ds st, ds ⊆ neighborOffsets -> FInv g0 st -> (unvisited st < bound)%nat ->
    exists st', forEach (floodNeighbor rec p.1 p.2) ds st = Ok st'
      /\ FPost g0 p st st'
      /\ (forall d, d ∈ ds -> open g0 (p.1 + d.1, p.2 + d.2) ->
                    (p.1 + d.1, p.2 + d.2) ∈ visited st').
Proof.
  intros Hrec Hzero. induction ds as [|d ds IH]; intros st Hds Hinv Hlt.
  - exists st. split; [done|]. split; [by apply FPost_refl|].
    intros d Hd. by apply not_elem_of_nil in Hd.
  - cbn [forEach].
    set (n := (p.1 + d.1, p.2 + d.2)).
    assert (forall st1, FPost g0 p st st1 -> n ∈ visited st1 \/ ~ open g0 n ->
              (unvisited st1 < bound)%nat ->
              exists st', forEach (floodNeighbor rec p.1 p.2) ds st1 = Ok st'
                /\ FPost g0 p st st'
                /\ (forall d0, d0 ∈ d :: ds -> open g0 (p.1 + d0.1, p.2 + d0.2) ->
                               (p.1 + d0.1, p.2 + d0.2) ∈ visited st')) as Hrest.
    { intros st1 H1 Hn Hlt1.
      assert (ds ⊆ neighborOffsets) as Hds'.
      { intros d' Hd'. apply Hds. by right. }
      destruct (IH st1 Hds' (fp_inv g0 _ _ _ H1) Hlt1) as (st' & Hrun & H2 & Hall).
      exists st'. split; [done|]. split.
      - destruct H1 as [Hi1 Hm1 [l1 Hl1] Hc1 Hs1], H2 as [Hi2 Hm2 [l2 Hl2] Hc2 Hs2].
        split; [done|set_solver| |..].
        + exists (l1 ++ l2). by rewrite Hl2, Hl1, app_assoc.
        + intros q r Hq Hnq Hout Hstep.
          destruct (decide (q ∈ visited st1)) as [Hq1|Hq1].
          * apply Hm2. apply (Hc1 q r); [done|done| |done].
            destruct (decide (q ∈ cellsOf (revealed st1))) as [|Hno]; [done|].
            exfalso. apply (finv_skip g0 _ Hi1 q Hq1 Hno).
            by apply (finv_out g0 _ Hi2).
          * by apply (Hc2 q r).
        + intros q Hq Hnq.
          destruct (decide (q ∈ cellsOf (revealed st1))) as [Hq1|Hq1].
          * by apply Hs1.
          * by apply Hs2.
      - intros d0 [->|Hd0]%elem_of_cons Hopen.
        + destruct Hn as [Hn|Hn]; [|done].
          by apply (fp_mono g0 _ _ _ H2).
        + by apply Hall. }
    destruct (inBounds (p.1 + d.1) (p.2 + d.2)) eqn:Hb.
    2:{ assert (floodNeighbor rec p.1 p.2 st d = Ok st) as ->
          by (unfold floodNeighbor; by rewrite Hb).
        cbn [mbind Result_bind].
        apply Hrest; [by apply FPost_refl| |done].
        right. intros [Hw _]. unfold inWorld in Hw. simpl in Hw. congruence. }
    destruct (getCell_wf (grid st) _ _ (FInv_wf _ Hinv) Hb) as [c Hc].
    assert (look (grid st) n = Some c) as Hlook by (by apply look_Some).
    destruct (negb (Cell.revealed c) && negb (Cell.flagged c)
              && negb (Cell.hasMine c)) eqn:Htest.
    + (* the neighbour is open: recursive call *)
      assert (floodNeighbor rec p.1 p.2 st d = rec n.1 n.2 st) as ->.
      { unfold floodNeighbor. cbv zeta. rewrite Hb, Hc. cbn [mbind Result_bind].
        by rewrite Htest. }
      apply andb_prop in Htest as [[Hr Hf]%andb_prop Hm].
      apply negb_true_iff in Hr, Hf, Hm.
      assert (n ∉ cellsOf (revealed st)) as Hfresh.
      { intros Hin. rewrite FInv_look in Hlook by done.
        rewrite decide_True in Hlook by done.
        destruct (look g0 n) as [c0|]; [|done]. injection Hlook as <-.
        by destruct c0. }
      assert (open g0 n) as Hopen.
      { split; [done|]. exists c. rewrite <- FInv_look_fresh with (st := st) by done.
        done. }
      destruct (Hrec n st Hinv Hb Hlt) as (st1 & Hrun & H1 & Hin1).
      rewrite Hrun. cbn [mbind Result_bind].
      apply Hrest.
      * destruct H1 as [Hi1 Hm1 Hl1 Hc1 Hs1]. split; [done..|].
        intros q Hq Hnq. eapply rtc_l; [|by apply Hs1].
        split; [done|]. split; [|done]. exists d. split; [|done].
        apply Hds. by left.
      * by left.
      * pose proof (unvisited_mono st st1 (fp_mono g0 _ _ _ H1)). lia.
    + (* already revealed by this flood, flagged, or a mine *)
      assert (floodNeighbor rec p.1 p.2 st d = Ok st) as ->.
      { unfold floodNeighbor. cbv zeta. rewrite Hb, Hc. cbn [mbind Result_bind].
        by rewrite Htest. }
      cbn [mbind Result_bind].
      apply Hrest; [by apply FPost_refl| |done].
      destruct (decide (n ∈ cellsOf (revealed st))) as [Hin|Hfresh].
      * left. by apply (finv_out g0 _ Hinv).
      * right. intros (_ & c0 & Hc0 & Hr & Hf & Hm).
        rewrite FInv_look_fresh in Hlook by done.
        rewrite Hc0 in Hlook. injection Hlook as ->.
        by rewrite Hr, Hf, Hm in Htest.
Qed.

(** The test [cell.adjacentMines === 0 && !cell.hasMine]. *)
Lemma zero_test g p c :
  look g p = Some c ->
  (Cell.adjacentMines c =? 0) && negb (Cell.hasMine c) = true <-> zero g p.
Proof.
  intros Hc. rewrite andb_true_iff, Z.eqb_eq, negb_true_iff. split.
  - intros [? ?]. by exists c.
  - intros (c' & Hc' & ? & ?). by simplify_eq.
Qed.

(** A call of [flood] with enough nesting depth left returns, and leaves
    every cell it added to the visited set closed under [floodStep]. *)
Lemma flood_spec depth : forall p st,
  FInv g0 st -> inWorld p -> (unvisited st < depth)%nat ->
  exists st', flood depth p.1 p.2 st = Ok st' /\ FPost g0 p st st' /\ p ∈ visited st'.
Proof.
  induction depth as [|depth IH]; intros p st Hinv Hp Hlt; [lia|].
  cbn [flood]. rewrite <- surjective_pairing.
  destruct (decide (p ∈ visited st)) as [Hvis|Hvis].
  { exists st. split; [done|]. split; [by apply FPost_refl|done]. }
  destruct (getCell_wf (grid st) p.1 p.2 (FInv_wf _ Hinv) Hp) as [c Hc].
  rewrite Hc. cbn [mbind Result_bind].
  assert (p ∉ cellsOf (revealed st)) as Hfresh.
  { intros Hin. by destruct (finv_out g0 _ Hinv p Hin). }
  assert (look g0 p = Some c) as Hc0.
  { rewrite <- FInv_look_fresh with (st := st) by done. by apply look_Some. }
  destruct (Cell.revealed c || Cell.flagged c) eqn:Hrf.
  { (* revealed or flagged: only the visited set grows *)
    eexists. split; [done|]. split; [|set_solver].
    destruct Hinv as [Hg Hnd Hout Hv Hsk Hrec]. split; cbn [grid visited revealed].
    - split; cbn [grid visited revealed]; [done|done| | | |done].
      + intros q Hq. destruct (Hout q Hq). split; [set_solver|done].
      + intros q [->%elem_of_singleton|Hq]%elem_of_union; [done|by apply Hv].
      + intros q [->%elem_of_singleton|Hq]%elem_of_union Hn; [|by apply Hsk].
        intros (_ & c' & Hc' & Hr & Hf). simplify_eq. by rewrite Hr, Hf in Hrf.
    - set_solver.
    - exists []. by rewrite app_nil_r.
    - intros q r [->%elem_of_singleton|Hq]%elem_of_union Hnq Hq'; [|done].
      by destruct (Hout p Hq').
    - done. }
  apply orb_false_elim in Hrf as [Hr Hf].
  assert (hidden g0 p) as Hhid by (split; [done|by exists c]).
  set (st1 := mkFlood (updCell Cell.setRevealed p.1 p.2 (grid st))
                      ({[p]} ∪ visited st) (revealed st ++ [updateAt p.1 p.2])).
  assert (cellsOf (revealed st1) = cellsOf (revealed st) ++ [p]) as Hcells.
  { unfold st1. cbn [revealed]. rewrite cellsOf_snoc. simpl.
    by rewrite <- surjective_pairing. }
  assert (FInv g0 st1) as Hinv1.
  { destruct Hinv as [Hg Hnd Hout Hv Hsk Hrec]. split.
    - rewrite Hcells, revealAll_snoc, <- Hg. done.
    - rewrite Hcells. apply NoDup_app. split; [done|]. split; [|apply NoDup_singleton].
      intros q Hq ->%list_elem_of_singleton. done.
    - rewrite Hcells. unfold st1. cbn [visited].
      intros q [Hq| ->%list_elem_of_singleton]%elem_of_app.
      + destruct (Hout q Hq). split; [set_solver|done].
      + split; [set_solver|done].
    - unfold st1. cbn [visited].
      intros q [->%elem_of_singleton|Hq]%elem_of_union; [done|by apply Hv].
    - rewrite Hcells. unfold st1. cbn [visited].
      intros q [->%elem_of_singleton|Hq]%elem_of_union Hn.
      + exfalso. apply Hn, elem_of_app. right. by apply list_elem_of_singleton.
      + apply Hsk; [done|]. intros Hq'. apply Hn, elem_of_app. by left.
    - unfold st1. cbn [revealed].
      intros u [Hu| ->%list_elem_of_singleton]%elem_of_app; [by apply Hrec|done]. }
  assert (unvisited st1 < depth)%nat as Hlt1.
  { pose proof (unvisited_add p (grid st)
                  (updCell Cell.setRevealed p.1 p.2 (grid st))
                  (visited st) (revealed st)
                  (revealed st ++ [updateAt p.1 p.2]) Hp Hvis) as Hadd.
    unfold st1. unfold unvisited in *. cbn [visited] in *. lia. }
  assert (forall st', FPost g0 p st1 st' ->
            (forall r, floodStep g0 p r -> r ∈ visited st') ->
            FPost g0 p st st' /\ p ∈ visited st') as Hfinish.
  { intros st' [Hi Hm [l Hl] Hcl Hso] Hp'.
    assert (p ∈ visited st') as Hpin by (apply Hm; unfold st1; set_solver).
    split; [|done]. split; [done| | | |].
    - intros q Hq. apply Hm. unfold st1. set_solver.
    - exists ([updateAt p.1 p.2] ++ l). rewrite Hl. unfold st1. cbn [revealed].
      by rewrite app_assoc.
    - intros q r Hq Hnq Hq' Hstep. destruct (decide (q = p)) as [->|Hne]; [by apply Hp'|].
      apply (Hcl q r); [done| |done|done]. unfold st1. set_solver.
    - intros q Hq Hnq. destruct (decide (q = p)) as [->|Hne]; [done|].
      apply Hso; [done|]. rewrite Hcells. intros [?| ?%list_elem_of_singleton]%elem_of_app; done. }
  fold st1.
  destruct ((Cell.adjacentMines c =? 0) && negb (Cell.hasMine c)) eqn:Hz.
  - (* an expanding cell: run the neighbour loops *)
    apply (zero_test g0 p c Hc0) in Hz.
    destruct (floodLoop_spec (flood depth) depth p) with (ds := neighborOffsets) (st := st1)
      as (st' & Hrun & Hpost & Hall); [| done | done | done | done |].
    { intros q st2 Hi2 Hq Hl2. by apply IH. }
    exists st'. split; [done|]. apply Hfinish; [done|].
    intros r (_ & (d & Hd & ->) & Hopen). by apply Hall.
  - (* a numbered cell: revealed, not expanded *)
    exists st1. split; [done|]. apply Hfinish; [by apply FPost_refl|].
    intros r (Hzero & _). apply (zero_test g0 p c Hc0) in Hzero. congruence.
Qed.

End Flood.

Lemma open_hidden g p : open g p -> hidden g p.
Proof. intros (? & c & ? & ? & ? & ?). split; [done|]. by exists c. Qed.

Lemma uncovers_hidden g p q : uncovers g p q -> hidden g q.
Proof.
  intros [Hp Hreach]. induction Hreach as [|a b c (_ & _ & Hb) _ IH]; [done|].
  apply IH. by apply open_hidden.
Qed.

Lemma uncovers_self g p : hidden g p -> uncovers g p p.
Proof. by split. Qed.

Lemma uncovers_nonzero g p q : ~ zero g p -> uncovers g p q -> q = p.
Proof.
  intros Hnz [_ Hreach]. destruct Hreach as [|a b c (Hz & _) _]; [done|].
  by destruct Hnz.
Qed.

(** The outermost call of [flood], from an empty visited set and an empty
    result list. *)
Lemma flood_top g p :
  wfGrid g -> hidden g p ->
  exists st', flood stackDepth p.1 p.2 (mkFlood g ∅ []) = Ok st'
    /\ grid st' = revealAll (cellsOf (revealed st')) g
    /\ NoDup (cellsOf (revealed st'))
    /\ (forall q, q ∈ cellsOf (revealed st') <-> uncovers g p q)
    /\ (forall u, u ∈ revealed st' -> u = updateAt (Update.cell u).1 (Update.cell u).2).
Proof.
  intros Hwf Hhid.
  assert (FInv g (mkFlood g ∅ [])) as Hinv0.
  { split; cbn [grid visited revealed cellsOf fmap list_fmap]; try done.
    - apply NoDup_nil_2.
    - intros q Hq. by apply not_elem_of_nil in Hq.
    - intros u Hu. by apply not_elem_of_nil in Hu. }
  destruct (flood_spec g Hwf stackDepth p (mkFlood g ∅ []) Hinv0 (proj1 Hhid))
    as (st' & Hrun & [Hinv Hmono _ Hclosed Hsound] & Hp).
  { unfold unvisited. cbn [visited].
    pose proof size_worldCells.
    assert (size (worldCells ∖ (∅ : gset (Z * Z))) <= size worldCells)%nat
      by (apply subseteq_size; set_solver).
    lia. }
  exists st'. split; [done|]. split; [by apply (finv_grid g)|].
  split; [by apply (finv_nodup g)|]. split; [|by apply (finv_rec g)].
  assert (forall q, hidden g q -> q ∈ visited st' -> q ∈ cellsOf (revealed st')) as Hin.
  { intros q Hq Hv. destruct (decide (q ∈ cellsOf (revealed st'))) as [|Hn]; [done|].
    by destruct (finv_skip g _ Hinv q Hv Hn). }
  intros q. split.
  - intros Hq. split; [done|]. apply Hsound; [done|]. apply not_elem_of_nil.
  - intros [_ Hreach]. revert q Hreach.
    apply (rtc_ind_r (fun q => q ∈ cellsOf (revealed st'))); [by apply Hin|].
    intros a b _ Hab IH.
    apply Hin; [apply open_hidden; apply Hab|].
    apply (Hclosed a b); [|set_solver|done|done].
    by apply (finv_out g _ Hinv).
Qed.

Section ChunkCoordinates.
Hypothesis chunk_pos : 0 < CHUNK_SIZE.

(** The chunk and local coordinates [flood] computes name the cell it
    revealed. *)
Lemma globalOf_updateAt gx gy :
  0 <= gx -> 0 <= gy -> globalOf (updateAt gx gy) = (gx, gy).
Proof.
  intros Hx Hy. unfold globalOf, updateAt. cbn.
  rewrite !Z.rem_mod_nonneg by lia.
  f_equal; rewrite Z.mul_comm; symmetry; apply Z.div_mod; lia.
Qed.
End ChunkCoordinates.

Lemma uncovers_zero_no_mine g p q :
  zero g p -> uncovers g p q -> hasMineAt g q = false.
Proof.
  intros (c & Hc & _ & Hm) [_ Hreach]. unfold hasMineAt.
  revert q Hreach. apply rtc_ind_r; [by rewrite Hc|].
  intros a b _ (_ & _ & _ & c' & -> & _ & _ & Hm') _. done.
Qed.

Lemma minesAmong_none g l :
  (forall q, q ∈ l -> hasMineAt g q = false) -> minesAmong g l = 0.
Proof.
  intros Hl. unfold minesAmong. induction l as [|a l IH]; [done|].
  rewrite filter_cons_False.
  - apply IH. intros q Hq. apply Hl. by right.
  - rewrite Hl; [done|by left].
Qed.

(** *** [revealCell] and [revealCellWithFlood] *)

Lemma RevealPost_nil g p : ~ hidden g p -> RevealPost g p [] g.
Proof.
  intros Hn. split; [done|apply NoDup_nil_2| |].
  - intros q. split; [by intros ?%not_elem_of_nil|by intros [? _]].
  - intros _ u Hu. by apply not_elem_of_nil in Hu.
Qed.

Lemma RevealPost_single g p c u :
  look g p = Some c -> hidden g p ->
  (Cell.adjacentMines c =? 0) && negb (Cell.hasMine c) = false ->
  Update.cell u = p -> (0 < CHUNK_SIZE -> globalOf u = p) ->
  RevealPost g p [u] (updCell Cell.setRevealed p.1 p.2 g).
Proof.
  intros Hc Hhid Hz Hu Hglob.
  assert (cellsOf [u] = [p]) as Hcells by (by cbn; rewrite Hu).
  split; rewrite ?Hcells; [done|apply NoDup_singleton| |].
  - intros q. rewrite list_elem_of_singleton. split.
    + intros ->. by apply uncovers_self.
    + apply uncovers_nonzero. intros Hzero.
      apply (zero_test g p c Hc) in Hzero. congruence.
  - intros HS u' ->%list_elem_of_singleton. rewrite Hu. by apply Hglob.
Qed.

Lemma RevealPost_flood g p :
  wfGrid g -> hidden g p ->
  exists st', flood stackDepth p.1 p.2 (mkFlood g ∅ []) = Ok st'
    /\ RevealPost g p (revealed st') (grid st').
Proof.
  intros Hwf Hhid.
  destruct (flood_top g p Hwf Hhid) as (st' & Hrun & Hg & Hnd & Hset & Hrec).
  exists st'. split; [done|]. split; [done..|].
  intros HS u Hu. rewrite (Hrec u Hu) at 1.
  assert (hidden g (Update.cell u)) as [Hw _].
  { eapply uncovers_hidden, Hset. unfold cellsOf. apply list_elem_of_fmap. eauto. }
  apply inWorld_nonneg in Hw as [? ?].
  rewrite globalOf_updateAt by done. by destruct (Update.cell u).
Qed.

(** [revealCell] returns for every coordinate. *)
Lemma revealCell_spec cx cy x y sv :
  wfGrid (completeGrid sv) ->
  let p := (cx * CHUNK_SIZE + x, cy * CHUNK_SIZE + y) in
  exists out sv',
    revealCell cx cy x y sv = Ok (out, sv')
    /\ RevealPost (completeGrid sv) p out (completeGrid sv')
    /\ gridChunks sv' = gridChunks sv
    /\ uniqueUsersEver sv' = uniqueUsersEver sv
    /\ bombsExploded sv'
       = bombsExploded sv + minesAmong (completeGrid sv) (cellsOf out).
Proof.
  intros Hwf p. unfold revealCell. fold p. change (cx * CHUNK_SIZE + x) with p.1.
  change (cy * CHUNK_SIZE + y) with p.2.
  rewrite outOfBounds_inBounds.
  destruct (inBounds p.1 p.2) eqn:Hb; cbn [negb].
  2:{ exists [], sv. split; [done|]. split.
      { apply RevealPost_nil. intros [Hw _]. unfold inWorld in Hw. congruence. }
      split; [done|]. split; [done|]. unfold minesAmong. cbn. lia. }
  destruct (getCell_wf _ _ _ Hwf Hb) as [c Hc]. rewrite Hc. cbn [mbind Result_bind].
  assert (look (completeGrid sv) p = Some c) as Hlook by (by apply look_Some).
  destruct (Cell.revealed c || Cell.flagged c) eqn:Hrf.
  { exists [], sv. split; [done|]. split.
    { apply RevealPost_nil. intros (_ & c' & Hc' & Hr & Hf). simplify_eq.
      by rewrite Hr, Hf in Hrf. }
    split; [done|]. split; [done|]. unfold minesAmong. cbn. lia. }
  apply orb_false_elim in Hrf as [Hr Hf].
  assert (hidden (completeGrid sv) p) as Hhid by (split; [done|by exists c]).
  destruct ((Cell.adjacentMines c =? 0) && negb (Cell.hasMine c)) eqn:Hz.
  - destruct (RevealPost_flood _ p Hwf Hhid) as (st' & Hrun & Hpost).
    rewrite Hrun. cbn [mbind Result_bind].
    exists (revealed st'), (withGrid (grid st') sv). split; [done|].
    split; [done|]. split; [done|]. split; [done|]. cbn.
    rewrite minesAmong_none; [lia|]. intros q Hq.
    apply (uncovers_zero_no_mine _ p); [by apply (zero_test _ p c)|].
    by apply (rp_cells _ _ _ _ Hpost).
  - eexists _, _. split; [done|]. split.
    { cbn [completeGrid withGrid].
      replace (completeGrid (if Cell.hasMine c then explode sv else sv))
        with (completeGrid sv) by (by destruct (Cell.hasMine c)).
      by apply (RevealPost_single _ p c). }
    unfold minesAmong. cbn [cellsOf fmap list_fmap Update.cell].
    destruct (Cell.hasMine c) eqn:Hm; cbn [explode withGrid gridChunks
      uniqueUsersEver bombsExploded completeGrid].
    + rewrite filter_cons_True by (unfold hasMineAt; by rewrite Hlook).
      done.
    + rewrite filter_cons_False by (unfold hasMineAt; rewrite Hlook; congruence).
      cbn. split; [done|]. split; [done|lia].
Qed.

(** [revealCellWithFlood], which [handleChordClick] calls on positions of the
    world. *)
Lemma revealCellWithFlood_spec gx gy sv :
  wfGrid (completeGrid sv) -> inBounds gx gy = true ->
  exists out g',
    revealCellWithFlood gx gy sv = Ok (out, withGrid g' sv)
    /\ RevealPost (completeGrid sv) (gx, gy) out g'.
Proof.
  intros Hwf Hb. set (p := (gx, gy)). unfold revealCellWithFlood.
  destruct (getCell_wf _ _ _ Hwf Hb) as [c Hc]. rewrite Hc. cbn [mbind Result_bind].
  assert (look (completeGrid sv) p = Some c) as Hlook by (by apply look_Some).
  destruct (Cell.revealed c || Cell.flagged c) eqn:Hrf.
  { exists [], (completeGrid sv). split; [by destruct sv|].
    apply RevealPost_nil. intros (_ & c' & Hc' & Hr & Hf). simplify_eq.
    by rewrite Hr, Hf in Hrf. }
  apply orb_false_elim in Hrf as [Hr Hf].
  assert (hidden (completeGrid sv) p) as Hhid by (split; [done|by exists c]).
  destruct ((Cell.adjacentMines c =? 0) && negb (Cell.hasMine c)) eqn:Hz.
  - destruct (RevealPost_flood _ p Hwf Hhid) as (st' & Hrun & Hpost).
    cbn [fst snd p] in Hrun. rewrite Hrun. cbn [mbind Result_bind].
    by exists (revealed st'), (grid st').
  - eexists _, _. split; [done|].
    apply (RevealPost_single _ p c); [done..|].
    intros HS. apply inBounds_spec in Hb. apply globalOf_updateAt; lia.
Qed.

(** *** The neighbour scan of [handleChordClick] *)

Lemma neighborsIn_cons p d ds :
  neighborsIn p (d :: ds)
  = if inBounds (p.1 + d.1) (p.2 + d.2)
    then shift p d :: neighborsIn p ds else neighborsIn p ds.
Proof.
  unfold neighborsIn. cbn [fmap list_fmap].
  destruct (inBounds (p.1 + d.1) (p.2 + d.2)) eqn:Hb.
  - by rewrite filter_cons_True.
  - rewrite filter_cons_False; [done|]. cbn. congruence.
Qed.

Lemma scan_spec g p : wfGrid g -> forall ds s,
  forEach (scanNeighbor g p.1 p.2) ds s
  = Ok (mkScan
          (flagCount s + Z.of_nat (length (filter (isFlagged g) (neighborsIn p ds))))
          (revealedMineCount s
           + Z.of_nat (length (filter (isRevealedMine g) (neighborsIn p ds))))
          (adjacentCells s ++ filter (isCandidate g) (neighborsIn p ds))).
Proof.
  intros Hwf. induction ds as [|d ds IH]; intros s.
  - cbn. rewrite !Z.add_0_r, app_nil_r. by destruct s.
  - cbn [forEach]. rewrite neighborsIn_cons.
    destruct (inBounds (p.1 + d.1) (p.2 + d.2)) eqn:Hb.
    2:{ assert (scanNeighbor g p.1 p.2 s d = Ok s) as ->
          by (unfold scanNeighbor; by rewrite Hb).
        cbn [mbind Result_bind]. apply IH. }
    destruct (getCell_wf g _ _ Hwf Hb) as [c Hc].
    assert (look g (shift p d) = Some c) as Hlook by (by apply look_Some).
    assert (flaggedAt g (shift p d) = Cell.flagged c) as Hfl
      by (unfold flaggedAt; by rewrite Hlook).
    assert (revealedAt g (shift p d) = Cell.revealed c) as Hre
      by (unfold revealedAt; by rewrite Hlook).
    assert (hasMineAt g (shift p d) = Cell.hasMine c) as Hmi
      by (unfold hasMineAt; by rewrite Hlook).
    assert (scanNeighbor g p.1 p.2 s d
            = if Cell.flagged c then
                Ok (mkScan (flagCount s + 1) (revealedMineCount s) (adjacentCells s))
              else if Cell.revealed c && Cell.hasMine c then
                Ok (mkScan (flagCount s) (revealedMineCount s + 1) (adjacentCells s))
              else if negb (Cell.revealed c) then
                Ok (mkScan (flagCount s) (revealedMineCount s)
                           (adjacentCells s ++ [shift p d]))
              else Ok s) as ->.
    { unfold scanNeighbor. cbv zeta. by rewrite Hb, Hc. }
    destruct (Cell.flagged c) eqn:Hf.
    { cbn [mbind Result_bind]. rewrite IH. cbn [flagCount revealedMineCount adjacentCells].
      rewrite (filter_cons_True (isFlagged g)) by (unfold isFlagged; congruence).
      rewrite (filter_cons_False (isRevealedMine g)) by (unfold isRevealedMine; intuition congruence).
      rewrite (filter_cons_False (isCandidate g)) by (unfold isCandidate; intuition congruence).
      cbn [length]. f_equal. f_equal. lia. }
    rewrite (filter_cons_False (isFlagged g)) by (unfold isFlagged; congruence).
    destruct (Cell.revealed c) eqn:Hr, (Cell.hasMine c) eqn:Hm;
      cbn [andb negb mbind Result_bind]; rewrite IH;
      cbn [flagCount revealedMineCount adjacentCells].
    + rewrite (filter_cons_True (isRevealedMine g)) by (unfold isRevealedMine; intuition congruence).
      rewrite (filter_cons_False (isCandidate g)) by (unfold isCandidate; intuition congruence).
      cbn [length]. f_equal. f_equal. lia.
    + rewrite (filter_cons_False (isRevealedMine g)) by (unfold isRevealedMine; intuition congruence).
      rewrite (filter_cons_False (isCandidate g)) by (unfold isCandidate; intuition congruence).
      done.
    + rewrite (filter_cons_False (isRevealedMine g)) by (unfold isRevealedMine; intuition congruence).
      rewrite (filter_cons_True (isCandidate g)) by (unfold isCandidate; intuition congruence).
      by rewrite <- app_assoc.
    + rewrite (filter_cons_False (isRevealedMine g)) by (unfold isRevealedMine; intuition congruence).
      rewrite (filter_cons_True (isCandidate g)) by (unfold isCandidate; intuition congruence).
      by rewrite <- app_assoc.
Qed.

Lemma scanNeighbors_spec g p :
  wfGrid g ->
  scanNeighbors g p.1 p.2
  = Ok (mkScan (flaggedNeighborCount g p) (revealedMineNeighborCount g p)
               (candidates g p)).
Proof. intros Hwf. unfold scanNeighbors. by rewrite scan_spec. Qed.

(** *** Reveals seen from a grid on which earlier reveals already ran *)

Section AfterReveals.
Variable g : Grid.
Variable l : list (Z * Z).
Hypothesis l_inWorld : forall p, p ∈ l -> inWorld p.

Lemma look_after q :
  look (revealAll l g) q
  = (if decide (q ∈ l) then Cell.setRevealed else id) <$> look g q.
Proof. apply look_revealAll. intros p Hp. by apply inWorld_nonneg, l_inWorld. Qed.

Lemma hasMineAt_after q : hasMineAt (revealAll l g) q = hasMineAt g q.
Proof.
  unfold hasMineAt. rewrite look_after.
  destruct (look g q) as [c|]; [|done]. cbn. by destruct (decide (q ∈ l)), c.
Qed.

Lemma zero_after q : zero (revealAll l g) q <-> zero g q.
Proof.
  unfold zero. rewrite look_after. destruct (look g q) as [c|]; cbn.
  - destruct (decide (q ∈ l)), c; cbn; split; intros (c' & [= <-] & ? & ?); eauto.
  - split; intros (c' & [=] & _).
Qed.

Lemma hidden_after q : hidden (revealAll l g) q <-> hidden g q /\ q ∉ l.
Proof.
  unfold hidden. rewrite look_after. destruct (look g q) as [c|]; cbn.
  - destruct (decide (q ∈ l)) as [Hin|Hin]; split.
    + intros (_ & c' & [= <-] & Hr & _). by destruct c.
    + by intros [_ ?].
    + intros (? & c' & [= <-] & ? & ?). eauto 10.
    + intros [(? & c' & [= <-] & ? & ?) _]. eauto 10.
  - split; [intros (_ & c' & [=] & _)|intros [(_ & c' & [=] & _) _]].
Qed.

Lemma open_after q : open (revealAll l g) q <-> open g q /\ q ∉ l.
Proof.
  unfold open. rewrite look_after. destruct (look g q) as [c|]; cbn.
  - destruct (decide (q ∈ l)) as [Hin|Hin]; split.
    + intros (_ & c' & [= <-] & Hr & _). by destruct c.
    + by intros [_ ?].
    + intros (? & c' & [= <-] & ? & ? & ?). eauto 10.
    + intros [(? & c' & [= <-] & ? & ? & ?) _]. eauto 10.
  - split; [intros (_ & c' & [=] & _)|intros [(_ & c' & [=] & _) _]].
Qed.

Lemma floodStep_after a b :
  floodStep (revealAll l g) a b <-> floodStep g a b /\ b ∉ l.
Proof. unfold floodStep. rewrite zero_after, open_after. tauto. Qed.

(** A later flood reveals nothing an earlier one would not. *)
Lemma uncovers_after_sub n q : uncovers (revealAll l g) n q -> uncovers g n q.
Proof.
  intros [Hn Hreach]. split; [by apply hidden_after in Hn as [? _]|].
  induction Hreach as [|a b c Hab _ IH]; [done|].
  apply floodStep_after in Hab as [Hab Hbl].
  eapply rtc_l; [done|]. apply IH.
  apply hidden_after. split; [apply open_hidden, Hab|done].
Qed.

(** And everything it would have revealed on the first grid is either
    revealed already or revealed now, when the earlier reveals are closed
    under the flood steps. *)
Lemma uncovers_after_sup n q :
  (forall a b, a ∈ l -> floodStep g a b -> b ∈ l) ->
  uncovers g n q -> q ∈ l \/ uncovers (revealAll l g) n q.
Proof.
  intros Hclosed [Hn Hreach]. revert q Hreach. apply rtc_ind_r.
  - destruct (decide (n ∈ l)) as [|Hnl]; [by left|right].
    apply uncovers_self, hidden_after. done.
  - intros a b _ Hab [Ha|[Hn' Hreach]].
    + left. by apply (Hclosed a b).
    + destruct (decide (b ∈ l)) as [|Hbl]; [by left|right].
      split; [done|]. eapply rtc_r; [done|]. by apply floodStep_after.
Qed.
End AfterReveals.

Lemma uncovers_step g n a b : uncovers g n a -> floodStep g a b -> uncovers g n b.
Proof. intros [Hn Hreach] Hab. split; [done|]. by eapply rtc_r. Qed.

Lemma uncovers_cases g n q : uncovers g n q -> q = n \/ open g q.
Proof.
  intros [_ Hreach]. revert q Hreach. apply rtc_ind_r; [by left|].
  intros a b _ (_ & _ & Hb) _. by right.
Qed.

Lemma open_no_mine g q : open g q -> hasMineAt g q = false.
Proof. intros (_ & c & Hc & _ & _ & Hm). unfold hasMineAt. by rewrite Hc. Qed.

Lemma uncovers_safe g n q :
  hasMineAt g n = false -> uncovers g n q -> hasMineAt g q = false.
Proof.
  intros Hn [->|Hq]%uncovers_cases; [done|]. by apply open_no_mine.
Qed.

Lemma uncovers_mine g n q :
  hasMineAt g n = true -> uncovers g n q -> q = n.
Proof.
  intros Hn. apply uncovers_nonzero. intros (c & Hc & _ & Hm).
  unfold hasMineAt in Hn. rewrite Hc in Hn. congruence.
Qed.

Lemma minesAmong_app g l1 l2 :
  minesAmong g (l1 ++ l2) = minesAmong g l1 + minesAmong g l2.
Proof. unfold minesAmong. rewrite filter_app, length_app. lia. Qed.

(** *** The reveal loop of [handleChordClick] *)

Section ChordLoop.
(** The server when the chord click arrives. *)
Variable sv0 : Server.
Hypothesis wf0 : wfGrid (completeGrid sv0).
Local Abbreviation g := (completeGrid sv0).

Lemma ChordInv_start : ChordInv sv0 [] [] sv0.
Proof.
  split; try done.
  - apply NoDup_nil_2.
  - intros q. split; [by intros ?%not_elem_of_nil|].
    by intros (m & ?%not_elem_of_nil & _).
  - intros _ u Hu. by apply not_elem_of_nil in Hu.
  - unfold minesAmong. cbn. lia.
Qed.

Lemma ChordInv_inWorld seen out sv p :
  ChordInv sv0 seen out sv -> p ∈ cellsOf out -> inWorld p.
Proof.
  intros Hinv Hp. apply (ci_cells sv0 _ _ _ Hinv) in Hp as (m & _ & Hm).
  by apply uncovers_hidden in Hm as [? _].
Qed.

Lemma ChordInv_closed seen out sv a b :
  ChordInv sv0 seen out sv -> a ∈ cellsOf out -> floodStep g a b -> b ∈ cellsOf out.
Proof.
  intros Hinv Ha Hab. apply (ci_cells sv0 _ _ _ Hinv) in Ha as (m & Hm & Hreach).
  apply (ci_cells sv0 _ _ _ Hinv). exists m. split; [done|].
  by eapply uncovers_step.
Qed.

Lemma chordStep_spec seen out sv n :
  ChordInv sv0 seen out sv -> n ∉ seen -> hidden g n ->
  exists out' sv', chordStep (out, sv) n = Ok (out', sv')
    /\ ChordInv sv0 (seen ++ [n]) out' sv'.
Proof.
  intros Hinv Hn Hhid. pose proof Hhid as (Hw & c & Hc & Hr & Hf).
  assert (forall p, p ∈ cellsOf out -> inWorld p) as HinW
    by (intros p; by apply (ChordInv_inWorld seen out sv)).
  assert (wfGrid (completeGrid sv)) as Hwf.
  { rewrite (ci_grid sv0 _ _ _ Hinv). by apply wfGrid_revealAll. }
  destruct n as [nx ny]. cbn [chordStep].
  destruct (getCell_wf _ nx ny Hwf Hw) as [c' Hc'].
  rewrite Hc'. cbn [mbind Result_bind].
  assert (Cell.hasMine c' = hasMineAt g (nx, ny)) as Hmine.
  { apply (look_Some _ (nx, ny)) in Hc'. rewrite (ci_grid sv0 _ _ _ Hinv) in Hc'.
    rewrite <- (hasMineAt_after g (cellsOf out) HinW).
    unfold hasMineAt. by rewrite Hc'. }
  assert (forall q, (exists m, m ∈ seen ++ [(nx, ny)] /\ uncovers g m q)
            <-> q ∈ cellsOf out \/ uncovers g (nx, ny) q) as Hsplit.
  { intros q. rewrite (ci_cells sv0 _ _ _ Hinv). split.
    - intros (m & [Hm| ->%list_elem_of_singleton]%elem_of_app & Hu); eauto.
    - intros [(m & Hm & Hu)|Hu].
      + exists m. split; [|done]. apply elem_of_app. by left.
      + exists (nx, ny). split; [|done]. apply elem_of_app. right.
        by apply list_elem_of_singleton. }
  destruct (Cell.hasMine c') eqn:Hm.
  - (* a mine among the candidates: revealed, counted, not expanded *)
    assert ((nx, ny) ∉ cellsOf out) as Hfresh.
    { intros (m & Hm' & Hu)%(ci_cells sv0 _ _ _ Hinv).
      apply uncovers_cases in Hu as [Heq|Hopen]; [by subst m|].
      apply open_no_mine in Hopen. congruence. }
    eexists _, _. split; [done|].
    destruct Hinv as [Hg Hnd Hcells Haddr Hb Hch Hus].
    split; cbn [completeGrid withGrid explode gridChunks uniqueUsersEver bombsExploded];
      rewrite ?cellsOf_snoc; cbn [updateAt Update.cell]; try done.
    + by rewrite revealAll_snoc, <- Hg.
    + apply NoDup_app. split; [done|]. split; [|apply NoDup_singleton].
      by intros q Hq ->%list_elem_of_singleton.
    + intros q. rewrite Hsplit, elem_of_app, list_elem_of_singleton.
      split; (intros [?|Hq]; [by left|right]).
      * subst q. by apply uncovers_self.
      * symmetry in Hmine. by apply (uncovers_mine g (nx, ny)).
    + intros HS u [Hu| ->%list_elem_of_singleton]%elem_of_app; [by apply Haddr|].
      apply inBounds_spec in Hw. cbn in Hw. apply globalOf_updateAt; lia.
    + rewrite minesAmong_app, Hb. unfold minesAmong at 3.
      rewrite filter_cons_True by congruence. cbn. lia.
  - (* a safe candidate: the flood rule of [revealCell] *)
    destruct (revealCellWithFlood_spec nx ny sv Hwf Hw) as (r & g' & Hrun & Hpost).
    rewrite Hrun. cbn [mbind Result_bind fst snd].
    exists (out ++ r), (withGrid g' sv). split; [done|].
    destruct Hpost as [Hg' Hnd' Hcells' Haddr'].
    rewrite (ci_grid sv0 _ _ _ Hinv) in Hg', Hcells'.
    assert (forall q, q ∈ cellsOf r -> uncovers g (nx, ny) q /\ q ∉ cellsOf out) as Hnew.
    { intros q Hq%Hcells'. split; [by eapply uncovers_after_sub|].
      apply uncovers_hidden, hidden_after in Hq as [_ ?]; done. }
    destruct Hinv as [Hg Hnd Hcells Haddr Hb Hch Hus].
    split; cbn [completeGrid withGrid gridChunks uniqueUsersEver bombsExploded];
      rewrite ?cellsOf_app; try done.
    + by rewrite revealAll_app.
    + apply NoDup_app. split; [done|]. split; [|done].
      intros q Hq Hq'. by destruct (Hnew q Hq').
    + intros q. rewrite Hsplit, elem_of_app. split.
      * intros [?|Hq]; [by left|]. right. by apply Hnew.
      * intros [?|Hq]; [by left|].
        destruct (uncovers_after_sup g (cellsOf out) HinW (nx, ny) q) as [?|Hq'];
          [|done|by left|right; by apply Hcells'].
        intros a b Ha Hab.
        eapply (ChordInv_closed seen out sv a b); [|done|done].
        by split.
    + intros HS u [Hu|Hu]%elem_of_app; [by apply Haddr|by apply Haddr'].
    + rewrite minesAmong_app, Hb.
      rewrite (minesAmong_none g (cellsOf r)); [lia|]. intros q Hq.
      apply (uncovers_safe g (nx, ny)); [congruence|]. by apply Hnew.
Qed.

Lemma chordLoop_spec : forall cands seen out sv,
  ChordInv sv0 seen out sv -> NoDup (seen ++ cands) ->
  (forall n, n ∈ cands -> hidden g n) ->
  exists out' sv', forEach chordStep cands (out, sv) = Ok (out', sv')
    /\ ChordInv sv0 (seen ++ cands) out' sv'.
Proof.
  induction cands as [|n cands IH]; intros seen out sv Hinv Hnd Hhid.
  - exists out, sv. split; [done|]. by rewrite app_nil_r.
  - cbn [forEach].
    apply NoDup_app in Hnd as Hnd'. destruct Hnd' as (_ & Hdisj & _).
    destruct (chordStep_spec seen out sv n Hinv) as (out1 & sv1 & Hrun & Hinv1).
    { intros Hn. apply (Hdisj n Hn). by left. }
    { apply Hhid. by left. }
    rewrite Hrun. cbn [mbind Result_bind].
    destruct (IH (seen ++ [n]) out1 sv1 Hinv1) as (out' & sv' & Hrun' & Hinv').
    { by rewrite <- app_assoc. }
    { intros m Hm. apply Hhid. by right. }
    exists out', sv'. split; [done|]. by rewrite <- app_assoc in Hinv'.
Qed.

End ChordLoop.

(** *** Neighbours and candidates *)

Lemma NoDup_neighborOffsets : NoDup neighborOffsets.
Proof. apply (bool_decide_unpack (NoDup neighborOffsets)). by vm_compute. Qed.

Lemma elem_of_neighborsOf p q : q ∈ neighborsOf p <-> nbr p q /\ inWorld q.
Proof.
  unfold neighborsOf, neighborsIn, nbr, inWorld.
  rewrite list_elem_of_filter, list_elem_of_fmap. unfold shift.
  split; [intros [? (d & ? & ?)]|intros [(d & ? & ?) ?]]; eauto.
Qed.

Lemma NoDup_neighborsOf p : NoDup (neighborsOf p).
Proof.
  unfold neighborsOf, neighborsIn. apply NoDup_filter, NoDup_fmap_2.
  - intros [a b] [a' b'] [= ? ?]. f_equal; lia.
  - apply NoDup_neighborOffsets.
Qed.

Lemma elem_of_candidates g p q :
  wfGrid g -> q ∈ candidates g p <-> nbr p q /\ hidden g q.
Proof.
  intros Hwf. unfold candidates. rewrite list_elem_of_filter, elem_of_neighborsOf.
  unfold isCandidate, hidden, flaggedAt, revealedAt. split.
  - intros [[Hf Hr] [Hn Hw]]. split; [done|]. split; [done|].
    destruct (look_wf g q Hwf Hw) as [c Hc]. rewrite Hc in Hf, Hr. eauto.
  - intros [Hn (Hw & c & Hc & Hr & Hf)]. rewrite Hc. done.
Qed.

Lemma NoDup_candidates g p : NoDup (candidates g p).
Proof. apply NoDup_filter, NoDup_neighborsOf. Qed.

(** *** [handleChordClick] *)

Lemma classic_chordFires g p : chordFires g p \/ ~ chordFires g p.
Proof.
  unfold chordFires, inWorld. destruct (inBounds p.1 p.2); [|right; by intros [? _]].
  destruct (look g p) as [c|]; [|right; by intros (_ & c & ? & _)].
  destruct (Cell.revealed c) eqn:Hr;
    [|right; intros (_ & c' & [= <-] & ? & _); congruence].
  destruct (decide (Cell.adjacentMines c = 0)) as [Ha|Ha];
    [right; by intros (_ & c' & [= <-] & _ & ? & _)|].
  destruct (decide (flaggedNeighborCount g p + revealedMineNeighborCount g p
                    = Cell.adjacentMines c)) as [He|He].
  - left. split; [done|]. by exists c.
  - right. by intros (_ & c' & [= <-] & _ & _ & ?).
Qed.

Lemma handleChordClick_spec cx cy x y sv :
  wfGrid (completeGrid sv) ->
  let p := (cx * CHUNK_SIZE + x, cy * CHUNK_SIZE + y) in
  let g := completeGrid sv in
  exists out sv',
    handleChordClick cx cy x y sv = Ok (out, sv')
    /\ (chordFires g p -> ChordInv sv (candidates g p) out sv')
    /\ (~ chordFires g p -> out = [] /\ sv' = sv).
Proof.
  intros Hwf p g. unfold handleChordClick.
  change (cx * CHUNK_SIZE + x) with p.1. change (cy * CHUNK_SIZE + y) with p.2.
  rewrite outOfBounds_inBounds.
  destruct (inBounds p.1 p.2) eqn:Hb; cbn [negb].
  2:{ exists [], sv. split; [done|]. split; [|done].
      intros [Hw _]. unfold inWorld in Hw. congruence. }
  destruct (getCell_wf _ _ _ Hwf Hb) as [c Hc]. rewrite Hc. cbn [mbind Result_bind].
  assert (look g p = Some c) as Hlook by (by apply look_Some).
  destruct (negb (Cell.revealed c) || (Cell.adjacentMines c =? 0)) eqn:Hpre.
  { exists [], sv. split; [done|]. split; [|done].
    intros (_ & c' & Hc' & Hr & Hadj & _). simplify_eq.
    apply orb_prop in Hpre as [Hpre|Hpre%Z.eqb_eq]; [|done].
    by rewrite Hr in Hpre. }
  apply orb_false_elim in Hpre as [Hr%negb_false_iff Hadj%Z.eqb_neq].
  rewrite (scanNeighbors_spec _ p Hwf). cbn [mbind Result_bind flagCount
    revealedMineCount adjacentCells].
  fold g.
  destruct (flaggedNeighborCount g p + revealedMineNeighborCount g p
            =? Cell.adjacentMines c) eqn:Hsum.
  - apply Z.eqb_eq in Hsum.
    destruct (chordLoop_spec sv Hwf (candidates g p) [] [] sv) as (out & sv' & Hrun & Hinv).
    { apply ChordInv_start. }
    { apply NoDup_candidates. }
    { intros n Hn. by apply (elem_of_candidates g p n Hwf) in Hn as [_ ?]. }
    exists out, sv'. split; [done|]. split; [done|].
    intros Hno. destruct Hno. split; [done|]. by exists c.
  - apply Z.eqb_neq in Hsum. exists [], sv. split; [done|]. split; [|done].
    intros (_ & c' & Hc' & _ & _ & Hsum'). by simplify_eq.
Qed.

(** *** [flag_cell] *)

Lemma flag_cell_spec cx cy x y sv :
  wfGrid (completeGrid sv) ->
  let p := (cx * CHUNK_SIZE + x, cy * CHUNK_SIZE + y) in
  let g := completeGrid sv in
  exists r sv',
    flag_cell cx cy x y sv = Ok (r, sv')
    /\ (inWorld p /\ revealedAt g p = false ->
          r = Some (Update.mk cx cy x y p)
          /\ sv' = withGrid (updCell Cell.toggleFlagged p.1 p.2 g) sv)
    /\ (~ (inWorld p /\ revealedAt g p = false) -> r = None /\ sv' = sv).
Proof.
  intros Hwf p g. unfold flag_cell.
  change (cx * CHUNK_SIZE + x) with p.1. change (cy * CHUNK_SIZE + y) with p.2.
  rewrite outOfBounds_inBounds.
  destruct (inBounds p.1 p.2) eqn:Hb; cbn [negb].
  2:{ exists None, sv. split; [done|]. split; [|done].
      intros [Hw _]. unfold inWorld in Hw. congruence. }
  destruct (getCell_wf _ _ _ Hwf Hb) as [c Hc]. rewrite Hc. cbn [mbind Result_bind].
  assert (revealedAt g p = Cell.revealed c) as Hre.
  { unfold revealedAt, g. apply look_Some in Hc. by rewrite Hc. }
  destruct (Cell.revealed c) eqn:Hr.
  - exists None, sv. split; [done|]. split; [|done]. intros [_ ?]. congruence.
  - eexists _, _. split; [done|]. split; [done|]. intros Hno. by destruct Hno.
Qed.

(** *** What a list of reveals changes *)

Lemma Changed_revealAll g out :
  NoDup (cellsOf out) -> (forall q, q ∈ cellsOf out -> hidden g q) ->
  Changed g out (revealAll (cellsOf out) g).
Proof.
  intros Hnd Hhid.
  assert (forall p, p ∈ cellsOf out -> inWorld p) as HinW
    by (intros p Hp; by destruct (Hhid p Hp)).
  assert (forall q, q ∈ cellsOf out -> revealedAt (revealAll (cellsOf out) g) q = true)
    as Hlisted.
  { intros q Hq. unfold revealedAt. rewrite look_after by done.
    destruct (Hhid q Hq) as (_ & c & -> & _). cbn. by rewrite decide_True. }
  assert (forall q, q ∉ cellsOf out -> look (revealAll (cellsOf out) g) q = look g q)
    as Hframe.
  { intros q Hq. rewrite look_after by done. rewrite decide_False by done.
    by destruct (look g q). }
  split; try done.
  - intros q. split.
    + intros Hq. split; [|by apply Hlisted].
      destruct (Hhid q Hq) as (_ & c & Hc & Hr & _). unfold revealedAt. by rewrite Hc.
    + intros [Hr Hr']. destruct (decide (q ∈ cellsOf out)) as [|Hn]; [done|].
      unfold revealedAt in Hr'. rewrite (Hframe q Hn) in Hr'.
      unfold revealedAt in Hr. congruence.
  - intros q. unfold flaggedAt. rewrite look_after by done.
    destruct (look g q) as [c|]; [|done]. cbn. by destruct (decide _), c.
  - intros q. by apply hasMineAt_after.
  - intros q. rewrite look_after by done.
    destruct (look g q) as [c|]; [|done]. cbn. by destruct (decide _), c.
  - intros q Hr. unfold revealedAt in *. rewrite look_after by done.
    destruct (look g q) as [c|]; [|done]. cbn in *. by destruct (decide _), c.
  - by apply wfGrid_revealAll.
Qed.

Lemma RevealPost_Changed g p out g' : RevealPost g p out g' -> Changed g out g'.
Proof.
  intros [-> Hnd Hcells _]. apply Changed_revealAll; [done|].
  intros q Hq%Hcells. by eapply uncovers_hidden.
Qed.

Lemma ChordInv_Changed sv0 seen out sv :
  ChordInv sv0 seen out sv -> Changed (completeGrid sv0) out (completeGrid sv).
Proof.
  intros [-> Hnd Hcells _ _ _ _]. apply Changed_revealAll; [done|].
  intros q (m & _ & Hq)%Hcells. by eapply uncovers_hidden.
Qed.

Lemma Changed_nil g : Changed g [] g.
Proof.
  split; try done.
  - apply NoDup_nil_2.
  - intros q. split; [by intros ?%not_elem_of_nil|]. intros [? ?]. congruence.
  - by intros q ?%not_elem_of_nil.
Qed.

(** *** No-op cases *)

Lemma Server_eq sv sv' :
  completeGrid sv' = completeGrid sv -> gridChunks sv' = gridChunks sv ->
  uniqueUsersEver sv' = uniqueUsersEver sv -> bombsExploded sv' = bombsExploded sv ->
  sv' = sv.
Proof. destruct sv, sv'; cbn; by intros -> -> -> ->. Qed.

Lemma revealCell_noop cx cy x y sv :
  wfGrid (completeGrid sv) ->
  ~ hidden (completeGrid sv) (cx * CHUNK_SIZE + x, cy * CHUNK_SIZE + y) ->
  revealCell cx cy x y sv = Ok ([], sv).
Proof.
  intros Hwf Hn.
  destruct (revealCell_spec cx cy x y sv Hwf) as (out & sv' & -> & Hpost & Hch & Hus & Hb).
  destruct out as [|u out].
  - f_equal. f_equal. apply Server_eq; try done.
    + by rewrite (rp_grid _ _ _ _ Hpost).
    + rewrite Hb. unfold minesAmong. cbn. lia.
  - exfalso. apply Hn.
    assert (Update.cell u ∈ cellsOf (u :: out)) as Hu by (cbn; left).
    by apply (rp_cells _ _ _ _ Hpost) in Hu as [? _].
Qed.

Lemma hidden_iff g p :
  wfGrid g ->
  hidden g p <-> inWorld p /\ revealedAt g p = false /\ flaggedAt g p = false.
Proof.
  intros Hwf. unfold hidden, revealedAt, flaggedAt. split.
  - intros (? & c & -> & ? & ?). done.
  - intros (Hw & Hr & Hf). split; [done|].
    destruct (look_wf g p Hwf Hw) as [c Hc]. rewrite Hc in Hr, Hf. by exists c.
Qed.

Lemma revealedAt_inWorld g p : wfGrid g -> revealedAt g p = true -> inWorld p.
Proof.
  intros Hwf. unfold revealedAt. destruct (look g p) as [c|] eqn:Hc; [|done].
  intros _. apply look_Some in Hc. by eapply getCell_wf_inv.
Qed.

Lemma look_toggle g p q :
  inWorld p ->
  look (updCell Cell.toggleFlagged p.1 p.2 g) q
  = if decide (p = q) then Cell.toggleFlagged <$> look g p else look g q.
Proof. intros [? ?]%inWorld_nonneg. by apply look_updCell. Qed.

Lemma revealedAt_toggle g p q :
  inWorld p ->
  revealedAt (updCell Cell.toggleFlagged p.1 p.2 g) q = revealedAt g q.
Proof.
  intros Hp. unfold revealedAt. rewrite look_toggle by done.
  destruct (decide (p = q)) as [->|]; [|done]. by destruct (look g q) as [[]|].
Qed.

Lemma coordsOf_cellsOf out : wellAddressed out -> coordsOf out = cellsOf out.
Proof.
  intros Hout. unfold coordsOf, cellsOf. apply list_fmap_ext.
  intros i u Hu. apply Hout. by eapply list_elem_of_lookup_2.
Qed.

(** ** Properties of the mutating operations *)

Lemma Changed_listsChanges g out g' :
  Changed g out g' -> wellAddressed out -> listsChanges g out g'.
Proof.
  intros Hch Haddr. unfold listsChanges. rewrite (coordsOf_cellsOf out Haddr).
  split; [apply (ch_nodup _ _ _ Hch)|]. split; [apply (ch_exact _ _ _ Hch)|]. split.
  - intros u Hu. split; [symmetry; by apply Haddr|].
    apply (ch_listed _ _ _ Hch). unfold cellsOf. apply list_elem_of_fmap. eauto.
  - intros q Hq. split; [|apply (ch_flagged _ _ _ Hch)].
    unfold revealedAt. by rewrite (ch_frame _ _ _ Hch q Hq).
Qed.

(** C10. Changed-cell list accuracy: [revealCell] and [handleChordClick]
    return for every coordinate, and the list they return names each cell at
    most once, names exactly the cells whose [revealed] went from false to
    true during the call, every record's cell object reads [revealed = true]
    on return, and every cell not listed keeps its [revealed] and [flagged]
    values. *)
Theorem changed_cell_list_accuracy cx cy x y sv :
  0 < CHUNK_SIZE -> wfGrid (completeGrid sv) ->
  (exists out sv', revealCell cx cy x y sv = Ok (out, sv')
     /\ listsChanges (completeGrid sv) out (completeGrid sv'))
  /\ (exists out sv', handleChordClick cx cy x y sv = Ok (out, sv')
     /\ listsChanges (completeGrid sv) out (completeGrid sv')).
Proof.
  intros HS Hwf. split.
  - destruct (revealCell_spec cx cy x y sv Hwf) as (out & sv' & Hrun & Hpost & _).
    exists out, sv'. split; [done|].
    apply Changed_listsChanges; [by eapply RevealPost_Changed|].
    by apply (rp_addr _ _ _ _ Hpost).
  - destruct (handleChordClick_spec cx cy x y sv Hwf) as (out & sv' & Hrun & Hyes & Hno).
    exists out, sv'. split; [done|].
    destruct (classic_chordFires (completeGrid sv)
                (cx * CHUNK_SIZE + x, cy * CHUNK_SIZE + y)) as [Hf|Hf].
    + specialize (Hyes Hf). apply Changed_listsChanges; [by eapply ChordInv_Changed|].
      by apply (ci_addr _ _ _ _ Hyes).
    + destruct (Hno Hf) as [-> ->]. apply Changed_listsChanges; [apply Changed_nil|].
      by intros u ?%not_elem_of_nil.
Qed.

Lemma flag_cell_noop cx cy x y sv :
  wfGrid (completeGrid sv) ->
  ~ (inWorld (cx * CHUNK_SIZE + x, cy * CHUNK_SIZE + y)
     /\ revealedAt (completeGrid sv) (cx * CHUNK_SIZE + x, cy * CHUNK_SIZE + y) = false) ->
  flag_cell cx cy x y sv = Ok (None, sv).
Proof.
  intros Hwf Hn.
  destruct (flag_cell_spec cx cy x y sv Hwf) as (r & sv' & -> & _ & Hno).
  by destruct (Hno Hn) as [-> ->].
Qed.

Lemma handleChordClick_noop cx cy x y sv :
  wfGrid (completeGrid sv) ->
  ~ chordFires (completeGrid sv) (cx * CHUNK_SIZE + x, cy * CHUNK_SIZE + y) ->
  handleChordClick cx cy x y sv = Ok ([], sv).
Proof.
  intros Hwf Hn.
  destruct (handleChordClick_spec cx cy x y sv Hwf) as (r & sv' & -> & _ & Hno).
  by destruct (Hno Hn) as [-> ->].
Qed.

(** Every operation leaves a revealed cell revealed. *)
Lemma revealCell_mono cx cy x y sv out sv' q :
  wfGrid (completeGrid sv) -> revealCell cx cy x y sv = Ok (out, sv') ->
  revealedAt (completeGrid sv) q = true -> revealedAt (completeGrid sv') q = true.
Proof.
  intros Hwf Hrun.
  destruct (revealCell_spec cx cy x y sv Hwf) as (out1 & sv1 & Hrun1 & Hpost & _).
  rewrite Hrun in Hrun1. injection Hrun1 as <- <-.
  by apply (ch_mono _ _ _ (RevealPost_Changed _ _ _ _ Hpost)).
Qed.

Lemma flag_cell_mono cx cy x y sv r sv' q :
  wfGrid (completeGrid sv) -> flag_cell cx cy x y sv = Ok (r, sv') ->
  revealedAt (completeGrid sv') q = revealedAt (completeGrid sv) q.
Proof.
  intros Hwf Hrun.
  destruct (flag_cell_spec cx cy x y sv Hwf) as (r1 & sv1 & Hrun1 & Hyes & Hno).
  rewrite Hrun in Hrun1. injection Hrun1 as <- <-.
  destruct (decide (inWorld (cx * CHUNK_SIZE + x, cy * CHUNK_SIZE + y)
                    /\ revealedAt (completeGrid sv)
                         (cx * CHUNK_SIZE + x, cy * CHUNK_SIZE + y) = false))
    as [Hy|Hn].
  - destruct (Hyes Hy) as [_ ->]. cbn [completeGrid withGrid].
    apply (revealedAt_toggle _ (cx * CHUNK_SIZE + x, cy * CHUNK_SIZE + y)).
    by destruct Hy.
  - by destruct (Hno Hn) as [_ ->].
Qed.

Lemma handleChordClick_mono cx cy x y sv out sv' q :
  wfGrid (completeGrid sv) -> handleChordClick cx cy x y sv = Ok (out, sv') ->
  revealedAt (completeGrid sv) q = true -> revealedAt (completeGrid sv') q = true.
Proof.
  intros Hwf Hrun.
  destruct (handleChordClick_spec cx cy x y sv Hwf) as (out1 & sv1 & Hrun1 & Hyes & Hno).
  rewrite Hrun in Hrun1. injection Hrun1 as <- <-.
  destruct (classic_chordFires (completeGrid sv)
              (cx * CHUNK_SIZE + x, cy * CHUNK_SIZE + y)) as [Hf|Hf].
  - by apply (ch_mono _ _ _ (ChordInv_Changed _ _ _ _ (Hyes Hf))).
  - by destruct (Hno Hf) as [_ ->].
Qed.

(** C9. Flag/reveal mutual exclusion and reveal monotonicity: the flag
    handler on a revealed cell returns no change and leaves the whole server
    state as it was; [revealCell] on a flagged cell returns the empty list
    and leaves the state as it was; and after any of [revealCell],
    [flag_cell] and [handleChordClick], at any coordinate, a cell that was
    revealed is still revealed. *)
Theorem flag_reveal_exclusion cx cy x y sv :
  wfGrid (completeGrid sv) ->
  let p := (cx * CHUNK_SIZE + x, cy * CHUNK_SIZE + y) in
  let g := completeGrid sv in
  (revealedAt g p = true -> flag_cell cx cy x y sv = Ok (None, sv))
  /\ (flaggedAt g p = true -> revealCell cx cy x y sv = Ok ([], sv))
  /\ (forall q, revealedAt g q = true ->
        (exists out sv', revealCell cx cy x y sv = Ok (out, sv')
                         /\ revealedAt (completeGrid sv') q = true)
        /\ (exists r sv', flag_cell cx cy x y sv = Ok (r, sv')
                         /\ revealedAt (completeGrid sv') q = true)
        /\ (exists out sv', handleChordClick cx cy x y sv = Ok (out, sv')
                         /\ revealedAt (completeGrid sv') q = true)).
Proof.
  intros Hwf p g. split; [|split].
  - intros Hr. apply flag_cell_noop; [done|]. intros [_ ?]. unfold p, g in *. congruence.
  - intros Hf. apply revealCell_noop; [done|].
    intros (_ & _ & Hf')%hidden_iff; [|done]. unfold p, g in *. congruence.
  - intros q Hq. split; [|split].
    + destruct (revealCell_spec cx cy x y sv Hwf) as (out & sv' & Hrun & _).
      exists out, sv'. split; [done|]. by eapply revealCell_mono.
    + destruct (flag_cell_spec cx cy x y sv Hwf) as (r & sv' & Hrun & _).
      exists r, sv'. split; [done|]. by erewrite flag_cell_mono.
    + destruct (handleChordClick_spec cx cy x y sv Hwf) as (out & sv' & Hrun & _).
      exists out, sv'. split; [done|]. by eapply handleChordClick_mono.
Qed.

(** *** The operations on numbers, for integers *)







(** *** The operations on numbers, for any doubles *)





Section AnyNumbers.
Variables (ncx ncy nx ny : Number.t) (sv : Server).
Local Abbreviation gX := (globalCoordinate ncx nx).
Local Abbreviation gY := (globalCoordinate ncy ny).




End AnyNumbers.


(** The mines a chord click explodes are the mines among its candidates. *)
Lemma chord_mines sv seen out sv' :
  NoDup seen -> (forall n, n ∈ seen -> hidden (completeGrid sv) n) ->
  ChordInv sv seen out sv' ->
  minesAmong (completeGrid sv) (cellsOf out) = minesAmong (completeGrid sv) seen.
Proof.
  intros Hnd Hhid Hinv. unfold minesAmong. f_equal. apply Permutation_length.
  apply NoDup_Permutation.
  - apply NoDup_filter, (ci_nodup _ _ _ _ Hinv).
  - by apply NoDup_filter.
  - intros q. rewrite !list_elem_of_filter, (ci_cells _ _ _ _ Hinv). split.
    + intros [Hm (n & Hn & Hu)]. split; [done|].
      apply uncovers_cases in Hu as [->|Ho]; [done|].
      apply open_no_mine in Ho. congruence.
    + intros [Hm Hq]. split; [done|]. exists q. split; [done|].
      by apply uncovers_self, Hhid.
Qed.

(** C2. Chord-reveal correctness. [handleChordClick] returns for every
    coordinate. On a revealed cell of the world with number [N > 0]:
    when the flagged neighbours and the unflagged revealed mine neighbours
    add up to [N], every hidden (unrevealed, unflagged) neighbour is revealed
    and listed, the list holds exactly what the flood rule uncovers from
    those neighbours (a mine neighbour uncovers itself alone), the grid
    changes by those reveals only, and the exploded-mine counter grows by the
    number of mines among them; when the counts differ the list is empty and
    the server state is unchanged; the list is non-empty exactly when the
    counts agree and some neighbour is hidden. On a target outside the
    world, unrevealed, or with number 0 the list is empty and the state is
    unchanged. *)
Theorem chord_reveal_correct cx cy x y sv :
  wfGrid (completeGrid sv) ->
  let p := (cx * CHUNK_SIZE + x, cy * CHUNK_SIZE + y) in
  let g := completeGrid sv in
  exists out sv',
    handleChordClick cx cy x y sv = Ok (out, sv')
    /\ (forall c, look g p = Some c -> Cell.revealed c = true ->
          0 < Cell.adjacentMines c ->
          (flaggedNeighborCount g p + revealedMineNeighborCount g p
             = Cell.adjacentMines c ->
             (forall n, nbr p n -> hidden g n ->
                        n ∈ cellsOf out /\ revealedAt (completeGrid sv') n = true)
             /\ (forall q, q ∈ cellsOf out
                           <-> exists n, nbr p n /\ hidden g n /\ uncovers g n q)
             /\ (forall n q, hasMineAt g n = true -> uncovers g n q -> q = n)
             /\ NoDup (cellsOf out)
             /\ completeGrid sv' = revealAll (cellsOf out) g
             /\ bombsExploded sv'
                = bombsExploded sv + minesAmong g (candidates g p)
             /\ gridChunks sv' = gridChunks sv)
          /\ (flaggedNeighborCount g p + revealedMineNeighborCount g p
                <> Cell.adjacentMines c -> out = [] /\ sv' = sv)
          /\ (out <> [] <->
              flaggedNeighborCount g p + revealedMineNeighborCount g p
                = Cell.adjacentMines c /\ candidates g p <> []))
    /\ (inBounds p.1 p.2 = false \/ revealedAt g p = false
        \/ (exists c, look g p = Some c /\ Cell.adjacentMines c = 0) ->
        out = [] /\ sv' = sv).
Proof.
  intros Hwf p g.
  destruct (handleChordClick_spec cx cy x y sv Hwf) as (out & sv' & Hrun & Hyes & Hno).
  fold p g in Hyes, Hno.
  exists out, sv'. split; [done|]. split.
  - intros c Hc Hr HN.
    assert (inWorld p) as Hw.
    { apply look_Some in Hc. by eapply getCell_wf_inv. }
    assert (flaggedNeighborCount g p + revealedMineNeighborCount g p
              = Cell.adjacentMines c -> chordFires g p) as Hfire.
    { intros Hsum. split; [done|]. exists c. repeat split; try done. lia. }
    assert (flaggedNeighborCount g p + revealedMineNeighborCount g p
              = Cell.adjacentMines c ->
            forall q, q ∈ cellsOf out
                      <-> exists n, nbr p n /\ hidden g n /\ uncovers g n q) as Hcells.
    { intros Hsum q. rewrite (ci_cells _ _ _ _ (Hyes (Hfire Hsum))).
      split; intros (n & Hn & Hu).
      - apply (elem_of_candidates g p n Hwf) in Hn as [? ?]. eauto.
      - destruct Hu as [Hh Hu]. exists n. split; [|done].
        by apply (elem_of_candidates g p n Hwf). }
    split; [|split].
    + intros Hsum. pose proof (Hyes (Hfire Hsum)) as Hinv.
      assert (forall n, nbr p n -> hidden g n -> n ∈ cellsOf out) as Hin.
      { intros n Hn Hh. apply (Hcells Hsum). exists n. split; [done|]. split; [done|].
        by apply uncovers_self. }
      split; [|split; [|split; [|split; [|split; [|split]]]]].
      * intros n Hn Hh. split; [by apply Hin|].
        apply (ch_listed _ _ _ (ChordInv_Changed _ _ _ _ Hinv)). by apply Hin.
      * by apply Hcells.
      * intros n q. apply uncovers_mine.
      * apply (ci_nodup _ _ _ _ Hinv).
      * apply (ci_grid _ _ _ _ Hinv).
      * rewrite (ci_bombs _ _ _ _ Hinv). f_equal.
        apply (chord_mines sv (candidates g p) out sv'); [apply NoDup_candidates| |done].
        intros n Hn. by apply (elem_of_candidates g p n Hwf) in Hn as [_ ?].
      * apply (ci_chunks _ _ _ _ Hinv).
    + intros Hne. apply Hno. intros (_ & c' & Hc' & _ & _ & Hsum). by simplify_eq.
    + split.
      * intros Hout.
        destruct (decide (flaggedNeighborCount g p + revealedMineNeighborCount g p
                          = Cell.adjacentMines c)) as [Hsum|Hne].
        2:{ destruct Hno as [-> _]; [|done].
            intros (_ & c' & Hc' & _ & _ & Hsum). by simplify_eq. }
        split; [done|]. intros Hnil. apply Hout.
        destruct out as [|u out]; [done|]. exfalso.
        assert (Update.cell u ∈ cellsOf (u :: out)) as Hu by (cbn; left).
        apply (ci_cells _ _ _ _ (Hyes (Hfire Hsum))) in Hu as (n & Hn & _).
        rewrite Hnil in Hn. by apply not_elem_of_nil in Hn.
      * intros [Hsum Hcand] ->.
        destruct (candidates g p) as [|n l] eqn:Hl; [done|].
        assert (n ∈ candidates g p) as Hn by (rewrite Hl; left).
        apply (elem_of_candidates g p n Hwf) in Hn as [Hn Hh].
        assert (n ∈ cellsOf []) as Hin.
        { apply (Hcells Hsum). exists n. split; [done|]. split; [done|].
          by apply uncovers_self. }
        by apply not_elem_of_nil in Hin.
  - intros Hbad. apply Hno. intros (Hw & c & Hc & Hr & Ha & _).
    destruct Hbad as [Hb|[Hu|(c' & Hc' & Ha')]].
    + unfold inWorld in Hw. congruence.
    + unfold revealedAt in Hu. rewrite Hc in Hu. congruence.
    + by simplify_eq.
Qed.

(** ** The adjacency invariant *)

Lemma count_spec g p : wfGrid g -> forall ds count,
  forEach (fun count '(dx, dy) =>
             let nx := p.1 + dx in
             let ny := p.2 + dy in
             if inBounds nx ny then
               c ← getCell g nx ny;
               Ok (if Cell.hasMine c then count + 1 else count)
             else Ok count) ds count
  = Ok (count + minesAmong g (neighborsIn p ds)).
Proof.
  intros Hwf. induction ds as [|[dx dy] ds IH]; intros count.
  - unfold minesAmong. cbn. f_equal. lia.
  - cbn [forEach]. rewrite neighborsIn_cons. cbn [fst snd]. cbv zeta.
    destruct (inBounds (p.1 + dx) (p.2 + dy)) eqn:Hb.
    2:{ cbn [mbind Result_bind]. apply IH. }
    destruct (getCell_wf g _ _ Hwf Hb) as [c Hc]. rewrite Hc.
    cbn [mbind Result_bind]. rewrite IH. f_equal.
    assert (hasMineAt g (shift p (dx, dy)) = Cell.hasMine c) as Hm.
    { unfold hasMineAt. apply (look_Some g (shift p (dx, dy))) in Hc. by rewrite Hc. }
    unfold minesAmong. destruct (Cell.hasMine c).
    + rewrite filter_cons_True by done. cbn [length]. lia.
    + rewrite filter_cons_False by congruence. lia.
Qed.

(** [countAdjacentMinesInCompleteGrid] counts the mines around a cell. *)
Lemma countAdjacentMines_spec g x y :
  wfGrid g -> countAdjacentMinesInCompleteGrid g x y = Ok (mineNeighbors g (x, y)).
Proof.
  intros Hwf. unfold countAdjacentMinesInCompleteGrid.
  rewrite (count_spec g (x, y) Hwf). by rewrite Z.add_0_l.
Qed.

Lemma mineNeighbors_ext g g' p :
  (forall q, hasMineAt g' q = hasMineAt g q) -> mineNeighbors g' p = mineNeighbors g p.
Proof.
  intros Hext. unfold mineNeighbors, minesAmong. f_equal. f_equal.
  apply list_filter_iff. intros q. by rewrite Hext.
Qed.

Lemma mineNeighbors_zero g p q :
  mineNeighbors g p = 0 -> nbr p q -> inWorld q -> hasMineAt g q = false.
Proof.
  unfold mineNeighbors, minesAmong. intros Hz Hn Hw.
  destruct (hasMineAt g q) eqn:Hm; [|done]. exfalso.
  assert (q ∈ filter (fun q => hasMineAt g q = true) (neighborsOf p)) as Hin.
  { apply list_elem_of_filter. split; [done|]. by apply elem_of_neighborsOf. }
  destruct (filter _ (neighborsOf p)); [by apply not_elem_of_nil in Hin|].
  cbn in Hz. lia.
Qed.

Lemma adjacencyInvariant_Changed g out g' :
  Changed g out g' -> adjacencyInvariant g -> adjacencyInvariant g'.
Proof.
  intros Hch Hadj p c' Hc'.
  rewrite (mineNeighbors_ext g g') by apply (ch_mines _ _ _ Hch).
  pose proof (ch_counts _ _ _ Hch p) as Hcount. rewrite Hc' in Hcount.
  destruct (look g p) as [c|] eqn:Hc; [|done]. cbn in Hcount.
  injection Hcount as ->. by apply Hadj.
Qed.

(** ** Flood fill of a region of zero cells *)

Lemma region_path (g : Grid) (R : gset (Z * Z)) (p q : Z * Z) :
  (forall a, a ∈ R -> zero g a /\ open g a) ->
  p ∈ R -> rtc (fun a b => nbr a b /\ b ∈ R) p q -> rtc (floodStep g) p q.
Proof.
  intros HR Hp Hpath. induction Hpath as [|a b c [Hn Hb] _ IH]; [done|].
  eapply rtc_l; [|by apply IH].
  split; [by apply HR|]. split; [done|by apply HR].
Qed.

(** C1. Flood-fill reveal completeness and exactness. In a world whose
    counts satisfy the adjacency invariant, let [R] be a set of cells that
    are zero-adjacency, not mines, unrevealed and unflagged, 8-connected, and
    bordered by numbered cells only. [revealCell] on any cell of [R] returns
    a list without repetition that holds exactly the cells of [R] and the
    bordering numbered cells that are unrevealed and unflagged; no listed
    cell is a mine; the grid afterwards is the grid before with exactly the
    listed cells revealed, and no mine is counted as exploded. *)
Theorem flood_fill_region (cx cy x y : Z) (sv : Server) (R : gset (Z * Z)) :
  let g := completeGrid sv in
  wfGrid g -> adjacencyInvariant g ->
  (forall p, p ∈ R -> zero g p /\ hidden g p) ->
  connected R ->
  (forall q, borders R q -> numbered g q) ->
  (cx * CHUNK_SIZE + x, cy * CHUNK_SIZE + y) ∈ R ->
  exists out sv',
    revealCell cx cy x y sv = Ok (out, sv')
    /\ NoDup (cellsOf out)
    /\ (forall q, q ∈ cellsOf out
                  <-> q ∈ R \/ (borders R q /\ numbered g q /\ hidden g q))
    /\ (forall q, q ∈ cellsOf out -> hasMineAt g q = false)
    /\ completeGrid sv' = revealAll (cellsOf out) g
    /\ (forall q, q ∈ cellsOf out -> revealedAt (completeGrid sv') q = true)
    /\ (forall q, q ∉ cellsOf out -> look (completeGrid sv') q = look g q)
    /\ bombsExploded sv' = bombsExploded sv.
Proof.
  intros g Hwf Hadj HR Hconn Hborder Hstart.
  set (p := (cx * CHUNK_SIZE + x, cy * CHUNK_SIZE + y)) in *.
  destruct (revealCell_spec cx cy x y sv Hwf) as (out & sv' & Hrun & Hpost & _ & _ & Hb).
  fold p g in Hpost. fold g in Hb.
  pose proof (RevealPost_Changed _ _ _ _ Hpost) as Hch.
  assert (forall a, a ∈ R -> open g a) as Hopen.
  { intros a [(c & Hc & _ & Hm) (Hw & c' & Hc' & Hr & Hf)]%HR. simplify_eq.
    split; [done|]. by exists c. }
  assert (forall q, uncovers g p q
                    <-> q ∈ R \/ (borders R q /\ numbered g q /\ hidden g q)) as Hset.
  { intros q. split.
    - intros [_ Hreach]. revert q Hreach. apply rtc_ind_r; [by left|].
      intros a b _ (Hz & Hn & Hb') [Ha|(Hba & (c & Hc & Hpos) & _)].
      + destruct (decide (b ∈ R)) as [|HbR]; [by left|right].
        assert (borders R b) as Hbb.
        { split; [apply Hb'|]. split; [done|]. by exists a. }
        split; [done|]. split; [by apply Hborder|by apply open_hidden].
      + destruct Hz as (c' & Hc' & Hzero & _). simplify_eq. lia.
    - intros [Hq|(Hbq & _ & Hh)].
      + split; [by apply HR|].
        apply (region_path g R); [|done|by apply Hconn].
        intros a Ha. split; [by apply HR|by apply Hopen].
      + destruct Hbq as (Hw & HnR & a & Ha & Hn).
        apply (uncovers_step g p a).
        * split; [by apply HR|].
          apply (region_path g R); [|done|by apply Hconn].
          intros a' Ha'. split; [by apply HR|by apply Hopen].
        * destruct (HR a Ha) as [Hz _]. split; [done|]. split; [done|].
          destruct Hh as (_ & c & Hc & Hr & Hf). split; [done|]. exists c.
          repeat split; try done.
          destruct Hz as (ca & Hca & Hzero & _).
          pose proof (Hadj a ca Hca) as Hcount. rewrite Hzero in Hcount.
          pose proof (mineNeighbors_zero g a q (eq_sym Hcount) Hn Hw) as Hm.
          unfold hasMineAt in Hm. by rewrite Hc in Hm. }
  assert (forall q, q ∈ cellsOf out -> hasMineAt g q = false) as Hsafe.
  { intros q Hq. apply (uncovers_zero_no_mine g p); [by apply HR|].
    by apply (rp_cells _ _ _ _ Hpost). }
  exists out, sv'. split; [done|]. split; [apply (rp_nodup _ _ _ _ Hpost)|].
  split; [intros q; by rewrite (rp_cells _ _ _ _ Hpost)|].
  split; [done|]. split; [apply (rp_grid _ _ _ _ Hpost)|].
  split; [apply (ch_listed _ _ _ Hch)|]. split; [apply (ch_frame _ _ _ Hch)|].
  rewrite Hb, minesAmong_none by done. lia.
Qed.

(** ** Initialization *)

Lemma NoDup_worldList : NoDup worldList.
Proof.
  unfold worldList. apply NoDup_bind; [| |apply NoDup_seqZ].
  - intros y1 y2 p _ _ (x1 & ->%list_elem_of_singleton & _)%list_elem_of_bind
      (x2 & [= _ ?]%list_elem_of_singleton & _)%list_elem_of_bind. done.
  - intros y _. apply NoDup_bind; [| |apply NoDup_seqZ].
    + intros x1 x2 p _ _ ->%list_elem_of_singleton [= ?]%list_elem_of_singleton. done.
    + intros x _. apply NoDup_singleton.
Qed.

(** Invariant-style reasoning for a [for ... of] loop that does not throw. *)
Lemma forEach_inv {A St} (f : St -> A -> Result St)
    (I : list A -> St -> Prop) (l : list A) :
  (forall pre a s, I pre s -> a ∈ l ->
     exists s', f s a = Ok s' /\ I (pre ++ [a]) s') ->
  forall s, I [] s -> exists s', forEach f l s = Ok s' /\ I l s'.
Proof.
  intros Hstep.
  assert (forall suf pre s, l = pre ++ suf -> I pre s ->
            exists s', forEach f suf s = Ok s' /\ I l s') as Hgen.
  { induction suf as [|a suf IH]; intros pre s Hl Hs.
    - exists s. split; [done|]. by rewrite Hl, app_nil_r.
    - destruct (Hstep pre a s Hs) as (s1 & Hrun & Hs1).
      { rewrite Hl. apply elem_of_app. right. by left. }
      cbn [forEach]. rewrite Hrun. cbn [mbind Result_bind].
      apply (IH (pre ++ [a])); [|done]. by rewrite <- app_assoc. }
  intros s Hs. by apply (Hgen l []).
Qed.

Lemma minesAmong_except g g' p l :
  p ∉ l -> (forall q, q <> p -> hasMineAt g' q = hasMineAt g q) ->
  minesAmong g' l = minesAmong g l.
Proof.
  intros Hp Hother. unfold minesAmong. f_equal.
  induction l as [|a l IH]; [done|].
  apply not_elem_of_cons in Hp as [Hne Hp]. specialize (IH Hp).
  destruct (hasMineAt g a) eqn:Hm.
  - rewrite !filter_cons_True by (rewrite ?Hother; done). cbn [length]. lia.
  - rewrite !filter_cons_False by (rewrite ?Hother; congruence). lia.
Qed.

(** Counting after the predicate became true at one more position. *)
Lemma minesAmong_add g g' p l :
  NoDup l -> p ∈ l -> hasMineAt g p = false -> hasMineAt g' p = true ->
  (forall q, q <> p -> hasMineAt g' q = hasMineAt g q) ->
  minesAmong g' l = minesAmong g l + 1.
Proof.
  intros Hnd Hp Hold Hnew Hother. unfold minesAmong.
  induction l as [|a l IH]; [by apply not_elem_of_nil in Hp|].
  apply NoDup_cons in Hnd as [Ha Hnd].
  destruct (decide (a = p)) as [->|Hne].
  - rewrite filter_cons_True by done. rewrite filter_cons_False by congruence.
    cbn [length].
    pose proof (minesAmong_except g g' p l Ha Hother) as He.
    unfold minesAmong in He. lia.
  - apply elem_of_cons in Hp as [->|Hp]; [done|]. specialize (IH Hnd Hp).
    destruct (hasMineAt g a) eqn:Hm.
    + rewrite !filter_cons_True by (rewrite ?Hother; done). cbn [length]. lia.
    + rewrite !filter_cons_False by (rewrite ?Hother; congruence). lia.
Qed.

Lemma minesAmong_ext g g' l :
  (forall q, hasMineAt g' q = hasMineAt g q) -> minesAmong g' l = minesAmong g l.
Proof.
  intros Hext. unfold minesAmong. f_equal. f_equal.
  apply list_filter_iff. intros q. by rewrite Hext.
Qed.

Lemma hasMineAt_updCell f g p q :
  0 <= p.1 -> 0 <= p.2 ->
  hasMineAt (updCell f p.1 p.2 g) q
  = if decide (p = q)
    then match look g p with Some c => Cell.hasMine (f c) | None => false end
    else hasMineAt g q.
Proof.
  intros Hx Hy. unfold hasMineAt. rewrite look_updCell by done.
  destruct (decide (p = q)); [|done]. by destruct (look g p).
Qed.

(** The placement loop: when it finishes, it has added exactly the mines
    that were still missing. *)
Lemma placeMinesLoop_spec rnd fuel : forall i placed g g',
  wfGrid g -> placeMinesLoop fuel rnd i placed g = Ok g' ->
  wfGrid g' /\ totalMines g' = totalMines g + Z.max 0 (mineCount - placed).
Proof.
  induction fuel as [|fuel IH]; intros i placed g g' Hwf Hrun.
  - change (placeMinesLoop 0 rnd i placed g)
      with (if decide (placed < mineCount) then Throw Exhausted else Ok g) in Hrun.
    destruct (decide (placed < mineCount)); [done|].
    injection Hrun as <-. split; [done|lia].
  - change (placeMinesLoop (S fuel) rnd i placed g)
      with (if decide (placed < mineCount) then
              let x := Qfloor (rnd i * inject_Z GRID_WIDTH) in
              let y := Qfloor (rnd (S i) * inject_Z GRID_HEIGHT) in
              c ← getCell g x y;
              if negb (Cell.hasMine c)
              then placeMinesLoop fuel rnd (S (S i)) (placed + 1)
                                  (updCell Cell.setHasMine x y g)
              else placeMinesLoop fuel rnd (S (S i)) placed g
            else Ok g) in Hrun.
    destruct (decide (placed < mineCount)) as [Hlt|Hge].
    2:{ injection Hrun as <-. split; [done|lia]. }
    set (x := Qfloor (rnd i * inject_Z GRID_WIDTH)) in *.
    set (y := Qfloor (rnd (S i) * inject_Z GRID_HEIGHT)) in *.
    cbv zeta in Hrun. clearbody x y.
    destruct (getCell g x y) as [c|e] eqn:Hc; [|done].
    cbn [mbind Result_bind] in Hrun.
    pose proof (getCell_wf_inv g x y c Hwf Hc) as Hb.
    assert (look g (x, y) = Some c) as Hlook by (by apply look_Some).
    destruct (Cell.hasMine c) eqn:Hm; cbn [negb] in Hrun.
    + destruct (IH _ _ _ _ Hwf Hrun) as [Hwf' Htot]. split; [done|lia].
    + destruct (IH _ _ _ _ (wfGrid_updCell _ _ _ _ Hwf) Hrun) as [Hwf' Htot].
      split; [done|]. rewrite Htot. unfold totalMines.
      apply inBounds_spec in Hb as Hb'.
      rewrite (minesAmong_add g (updCell Cell.setHasMine x y g) (x, y) worldList).
      * lia.
      * apply NoDup_worldList.
      * by apply elem_of_worldList.
      * unfold hasMineAt. by rewrite Hlook.
      * rewrite (hasMineAt_updCell _ g (x, y)) by (cbn; lia).
        rewrite decide_True by done. by rewrite Hlook.
      * intros q Hq. rewrite (hasMineAt_updCell _ g (x, y)) by (cbn; lia).
        by rewrite decide_False.
Qed.

Lemma setAdjacentMines_id c : Cell.setAdjacentMines (Cell.adjacentMines c) c = c.
Proof. by destruct c. Qed.

Lemma setAdjacentMines_twice n m c :
  Cell.setAdjacentMines n (Cell.setAdjacentMines m c) = Cell.setAdjacentMines n c.
Proof. by destruct c. Qed.

Lemma countsSet_hasMineAt g P g' q :
  wfGrid g -> countsSet g P g' -> hasMineAt g' q = hasMineAt g q.
Proof.
  intros Hwf [Hwf' Hcells]. unfold hasMineAt.
  destruct (look g q) as [c|] eqn:Hc.
  - destruct (Hcells q c Hc) as (n & -> & _). by destruct c.
  - destruct (look g' q) as [c'|] eqn:Hc'; [|done]. exfalso.
    apply look_Some in Hc'. apply getCell_wf_inv in Hc'; [|done].
    destruct (look_wf g q Hwf Hc') as [c Hc'']. congruence.
Qed.

Lemma countsSet_step g P g' x y :
  wfGrid g -> countsSet g P g' -> inBounds x y = true ->
  exists g'',
    (_ ← getCell g' x y;
     n ← countAdjacentMinesInCompleteGrid g' x y;
     Ok (updCell (Cell.setAdjacentMines n) x y g')) = Ok g''
    /\ countsSet g (fun q => P q \/ q = (x, y)) g''.
Proof.
  intros Hwf Hcs Hb. pose proof Hcs as [Hwf' Hcells].
  destruct (getCell_wf g' x y Hwf' Hb) as [c' Hc']. rewrite Hc'.
  cbn [mbind Result_bind]. rewrite (countAdjacentMines_spec g' x y Hwf').
  cbn [mbind Result_bind]. eexists. split; [done|].
  assert (mineNeighbors g' (x, y) = mineNeighbors g (x, y)) as ->.
  { apply mineNeighbors_ext. intros q. by apply (countsSet_hasMineAt g P). }
  split; [by apply wfGrid_updCell|].
  intros q c Hc. destruct (Hcells q c Hc) as (n & Hq & HP & HnP).
  apply inBounds_spec in Hb as Hb'.
  rewrite (look_updCell _ g' (x, y)) by (cbn; lia).
  destruct (decide ((x, y) = q)) as [<-|Hne].
  - rewrite Hq. cbn. exists (mineNeighbors g (x, y)).
    rewrite setAdjacentMines_twice. split; [done|]. split; [done|].
    intros Hno. destruct Hno. by right.
  - exists n. split; [done|]. split.
    + intros [?|?]; [by apply HP|congruence].
    + intros Hno. apply HnP. intros ?. apply Hno. by left.
Qed.

Lemma countsSet_weaken g (P Q : Z * Z -> Prop) g' :
  (forall q, P q <-> Q q) -> countsSet g P g' -> countsSet g Q g'.
Proof.
  intros HPQ [Hwf Hcells]. split; [done|]. intros q c Hc.
  destruct (Hcells q c Hc) as (n & ? & ? & ?). exists n. rewrite <- HPQ. done.
Qed.

(** The adjacency pass returns, counts every cell of the world against the
    mine layout it was given, and changes nothing else. *)
Lemma calculateAdjacentCounts_spec g :
  wfGrid g ->
  exists g', calculateAdjacentCountsForCompleteGrid g = Ok g'
    /\ countsSet g inWorld g'.
Proof.
  intros Hwf. unfold calculateAdjacentCountsForCompleteGrid.
  destruct (forEach_inv
    (fun g y => forEach (fun g x =>
               _ ← getCell g x y;
               n ← countAdjacentMinesInCompleteGrid g x y;
               Ok (updCell (Cell.setAdjacentMines n) x y g))
            (seqZ 0 GRID_WIDTH) g)
    (fun ys g' => countsSet g (fun q => inWorld q /\ q.2 ∈ ys) g')
    (seqZ 0 GRID_HEIGHT)) with (s := g) as (g' & Hrun & Hinv).
  - intros ys y g1 Hg1 Hy.
    destruct (forEach_inv
      (fun g x => _ ← getCell g x y;
                  n ← countAdjacentMinesInCompleteGrid g x y;
                  Ok (updCell (Cell.setAdjacentMines n) x y g))
      (fun xs g' => countsSet g (fun q => (inWorld q /\ q.2 ∈ ys)
                                          \/ (q.2 = y /\ q.1 ∈ xs)) g')
      (seqZ 0 GRID_WIDTH)) with (s := g1) as (g2 & Hrun & Hinv).
    + intros xs x g2 Hg2 Hx.
      apply elem_of_seqZ in Hx, Hy.
      destruct (countsSet_step g _ g2 x y Hwf Hg2) as (g3 & Hrun & Hg3).
      { apply inBounds_spec. lia. }
      exists g3. split; [done|]. revert Hg3. apply countsSet_weaken.
      intros [qx qy]. cbn. rewrite elem_of_app, list_elem_of_singleton.
      split; [intros [[?|[? ?]]|[= -> ->]]|intros [?|[? [?| ->]]]]; eauto.
      subst. by right.
    + revert Hg1. apply countsSet_weaken. intros q. split; [by left|].
      intros [?|[_ ?%not_elem_of_nil]]; done.
    + exists g2. split; [done|]. revert Hinv. apply countsSet_weaken.
      intros [qx qy]. cbn. rewrite elem_of_app, list_elem_of_singleton.
      unfold inWorld. rewrite inBounds_spec. cbn. apply elem_of_seqZ in Hy.
      split.
      * intros [[? ?]|[-> Hx%elem_of_seqZ]]; [by eauto|]. split; [lia|by right].
      * intros [Hw [?| ->]]; [by left; eauto|]. right. split; [done|].
        apply elem_of_seqZ. lia.
  - split; [done|]. intros q c Hc. exists (Cell.adjacentMines c).
    rewrite setAdjacentMines_id. split; [done|]. split; [|done].
    intros [_ ?%not_elem_of_nil]. done.
  - exists g'. split; [done|]. revert Hinv. apply countsSet_weaken.
    intros q. unfold inWorld. rewrite inBounds_spec, elem_of_seqZ. lia.
Qed.

Lemma wfGrid_allocateGrid : wfGrid allocateGrid.
Proof.
  unfold wfGrid, allocateGrid. split.
  - by rewrite length_fmap, length_seqZ.
  - apply Forall_fmap, Forall_forall. intros y _. cbn.
    by rewrite length_fmap, length_seqZ.
Qed.

Lemma look_allocateGrid q c :
  look allocateGrid q = Some c -> c = Cell.fresh q.1 q.2.
Proof.
  intros (Hx & Hy & row & Hrow & Hc)%look_Some%getCell_Ok.
  unfold allocateGrid in Hrow. rewrite list_lookup_fmap in Hrow.
  destruct (seqZ 0 GRID_HEIGHT !! Z.to_nat q.2) as [y|] eqn:Hqy; [|done].
  cbn in Hrow. injection Hrow as <-. rewrite list_lookup_fmap in Hc.
  destruct (seqZ 0 GRID_WIDTH !! Z.to_nat q.1) as [x|] eqn:Hqx; [|done].
  cbn in Hc. injection Hc as <-.
  apply lookup_seqZ in Hqx as [-> _], Hqy as [-> _]. f_equal; lia.
Qed.

Lemma hasMineAt_allocateGrid q : hasMineAt allocateGrid q = false.
Proof.
  unfold hasMineAt. destruct (look allocateGrid q) as [c|] eqn:Hc; [|done].
  by rewrite (look_allocateGrid q c Hc).
Qed.

Lemma totalMines_allocateGrid : totalMines allocateGrid = 0.
Proof.
  unfold totalMines. apply minesAmong_none. intros q _. apply hasMineAt_allocateGrid.
Qed.

Lemma countsSet_adjacencyInvariant g g' :
  wfGrid g -> countsSet g inWorld g' -> adjacencyInvariant g'.
Proof.
  intros Hwf Hcs p c' Hc'. pose proof Hcs as [Hwf' Hcells].
  assert (inWorld p) as Hw.
  { apply look_Some in Hc'. by eapply getCell_wf_inv. }
  destruct (look_wf g p Hwf Hw) as [c Hc].
  destruct (Hcells p c Hc) as (n & Hn & HP & _). simplify_eq.
  rewrite (mineNeighbors_ext g g') by (intros q; by apply (countsSet_hasMineAt g inWorld)).
  rewrite <- (HP Hw). by destruct c.
Qed.

(** What a finished initialization yields. *)
Lemma initializeCompleteGrid_spec fuel rnd g :
  initializeCompleteGrid fuel rnd = Ok g ->
  wfGrid g /\ adjacencyInvariant g /\ totalMines g = Z.max 0 mineCount.
Proof.
  unfold initializeCompleteGrid, placeMinesInCompleteGrid. intros Hrun.
  destruct (placeMinesLoop fuel rnd 0 0 allocateGrid) as [g1|e] eqn:Hplace; [|done].
  cbn [mbind Result_bind] in Hrun.
  destruct (placeMinesLoop_spec rnd fuel _ _ _ _ wfGrid_allocateGrid Hplace)
    as [Hwf1 Htot].
  destruct (calculateAdjacentCounts_spec g1 Hwf1) as (g' & Hcalc & Hcs).
  rewrite Hcalc in Hrun. injection Hrun as <-.
  split; [apply Hcs|]. split; [by eapply countsSet_adjacencyInvariant|].
  rewrite totalMines_allocateGrid in Htot. unfold totalMines in *.
  rewrite (minesAmong_ext g1 g') by (intros q; by apply (countsSet_hasMineAt g1 inWorld)).
  rewrite Htot. f_equal. lia.
Qed.

(** C8. Exact mine count: for positive dimensions and a non-negative mine
    percentage, every world that [initializeCompleteGrid] returns holds
    exactly [Math.round(GRID_WIDTH * GRID_HEIGHT * MINE_PERCENTAGE)] cells
    with [hasMine = true], the number the code computes in its double
    arithmetic ([mineCount]), and that number is not negative. A cell holds
    one boolean, so the count is a count of distinct cells. *)
Theorem exact_mine_count fuel rnd g :
  0 < GRID_WIDTH -> 0 < GRID_HEIGHT -> (0 <= MINE_PERCENTAGE)%Q ->
  initializeCompleteGrid fuel rnd = Ok g ->
  totalMines g = mineCount /\ 0 <= mineCount.
Proof.
  intros HW HH Hp Hrun.
  destruct (initializeCompleteGrid_spec fuel rnd g Hrun) as (_ & _ & ->).
  pose proof (mineCount_nonneg ltac:(lia) ltac:(lia) Hp). lia.
Qed.

Lemma layoutKept_adjacencyInvariant g g' :
  layoutKept g g' -> adjacencyInvariant g -> adjacencyInvariant g'.
Proof.
  intros (_ & Hm & Hc) Hadj p c' Hc'.
  rewrite (mineNeighbors_ext g g') by done.
  specialize (Hc p). rewrite Hc' in Hc.
  destruct (look g p) as [c|] eqn:Hlook; [|done]. cbn in Hc.
  injection Hc as ->. by apply Hadj.
Qed.

Lemma layoutKept_refl g : wfGrid g -> layoutKept g g.
Proof. by split. Qed.

Lemma Changed_layoutKept g out g' : wfGrid g -> Changed g out g' -> layoutKept g g'.
Proof.
  intros Hwf Hch. split; [by apply (ch_wf _ _ _ Hch)|].
  split; [apply (ch_mines _ _ _ Hch)|apply (ch_counts _ _ _ Hch)].
Qed.

Lemma toggle_layoutKept g p :
  wfGrid g -> inWorld p -> layoutKept g (updCell Cell.toggleFlagged p.1 p.2 g).
Proof.
  intros Hwf Hp. split; [by apply wfGrid_updCell|]. split; intros q.
  - unfold hasMineAt. rewrite look_toggle by done.
    destruct (decide (p = q)) as [->|]; [|done]. by destruct (look g q) as [[]|].
  - rewrite look_toggle by done.
    destruct (decide (p = q)) as [->|]; [|done]. by destruct (look g q) as [[]|].
Qed.

(** C4. Adjacency invariant. Every world [initializeCompleteGrid] returns
    has, in every cell, [adjacentMines] equal to the number of neighbours in
    the world that hold a mine in that same, final, layout; and each of
    [revealCell], [flag_cell] and [handleChordClick], at any coordinate of a
    world where the invariant holds, returns a world where it holds, with
    the same mines and the same counts. *)
Theorem adjacency_invariant_preserved :
  (forall fuel rnd g,
     initializeCompleteGrid fuel rnd = Ok g -> wfGrid g /\ adjacencyInvariant g)
  /\ (forall cx cy x y sv,
        wfGrid (completeGrid sv) -> adjacencyInvariant (completeGrid sv) ->
        (exists out sv', revealCell cx cy x y sv = Ok (out, sv')
           /\ layoutKept (completeGrid sv) (completeGrid sv')
           /\ adjacencyInvariant (completeGrid sv'))
        /\ (exists r sv', flag_cell cx cy x y sv = Ok (r, sv')
           /\ layoutKept (completeGrid sv) (completeGrid sv')
           /\ adjacencyInvariant (completeGrid sv'))
        /\ (exists out sv', handleChordClick cx cy x y sv = Ok (out, sv')
           /\ layoutKept (completeGrid sv) (completeGrid sv')
           /\ adjacencyInvariant (completeGrid sv'))).
Proof.
  split.
  - intros fuel rnd g Hrun.
    by destruct (initializeCompleteGrid_spec fuel rnd g Hrun) as (? & ? & _).
  - intros cx cy x y sv Hwf Hadj.
    set (p := (cx * CHUNK_SIZE + x, cy * CHUNK_SIZE + y)).
    split; [|split].
    + destruct (revealCell_spec cx cy x y sv Hwf) as (out & sv' & Hrun & Hpost & _).
      exists out, sv'. split; [done|].
      assert (layoutKept (completeGrid sv) (completeGrid sv')) as Hk.
      { eapply Changed_layoutKept; [done|]. by eapply RevealPost_Changed. }
      split; [done|]. by eapply layoutKept_adjacencyInvariant.
    + destruct (flag_cell_spec cx cy x y sv Hwf) as (r & sv' & Hrun & Hyes & Hno).
      exists r, sv'. split; [done|].
      assert (layoutKept (completeGrid sv) (completeGrid sv')) as Hk.
      { destruct (decide (inWorld p /\ revealedAt (completeGrid sv) p = false))
          as [Hy|Hn].
        - destruct (Hyes Hy) as [_ ->]. cbn [completeGrid withGrid].
          apply (toggle_layoutKept _ p); [done|]. by destruct Hy.
        - destruct (Hno Hn) as [_ ->]. by apply layoutKept_refl. }
      split; [done|]. by eapply layoutKept_adjacencyInvariant.
    + destruct (handleChordClick_spec cx cy x y sv Hwf) as (out & sv' & Hrun & Hyes & Hno).
      exists out, sv'. split; [done|].
      assert (layoutKept (completeGrid sv) (completeGrid sv')) as Hk.
      { destruct (classic_chordFires (completeGrid sv) p) as [Hf|Hf].
        - eapply Changed_layoutKept; [done|]. by eapply ChordInv_Changed, Hyes.
        - destruct (Hno Hf) as [_ ->]. by apply layoutKept_refl. }
      split; [done|]. by eapply layoutKept_adjacencyInvariant.
Qed.

(** C5, as the code has it. [initializeCompleteGrid] checks neither the
    dimensions nor the mine percentage. With a width or a height of 0 (the
    other one not negative), or with a mine percentage of at most 0, it
    returns a world of [GRID_HEIGHT] rows of [GRID_WIDTH] cells that holds no
    mine, whatever the random numbers are. *)
Theorem initialize_checks_nothing fuel rnd :
  0 <= GRID_WIDTH -> 0 <= GRID_HEIGHT ->
  GRID_WIDTH = 0 \/ GRID_HEIGHT = 0 \/ (MINE_PERCENTAGE <= 0)%Q ->
  exists g, initializeCompleteGrid fuel rnd = Ok g
            /\ wfGrid g /\ totalMines g = 0.
Proof.
  intros HW HH Hbad.
  assert (mineCount <= 0) as Hcount by by apply mineCount_nonpos.
  unfold initializeCompleteGrid, placeMinesInCompleteGrid.
  assert (placeMinesLoop fuel rnd 0 0 allocateGrid = Ok allocateGrid) as ->.
  { destruct fuel; cbn -[mineCount]; destruct (decide (0 < mineCount)); done || lia. }
  cbn [mbind Result_bind].
  destruct (calculateAdjacentCounts_spec allocateGrid wfGrid_allocateGrid)
    as (g & Hrun & Hcs).
  exists g. split; [done|]. split; [apply Hcs|].
  unfold totalMines.
  rewrite (minesAmong_ext allocateGrid g)
    by (intros q; apply (countsSet_hasMineAt allocateGrid inWorld);
        [apply wfGrid_allocateGrid|done]).
  apply totalMines_allocateGrid.
Qed.

(** ** Chunk extraction *)

(** A loop that pushes one computed element per iteration. *)
Lemma forEach_push {A B} (h : A -> Result B) (h' : A -> B) (l : list A) :
  (forall a, a ∈ l -> h a = Ok (h' a)) ->
  forall acc, forEach (fun acc a => v ← h a; Ok (acc ++ [v])) l acc
              = Ok (acc ++ (h' <$> l)).
Proof.
  induction l as [|a l IH]; intros Hh acc.
  - cbn. by rewrite app_nil_r.
  - cbn [forEach]. rewrite (Hh a) by left. cbn [mbind Result_bind].
    rewrite IH by (intros b Hb; apply Hh; by right).
    cbn [fmap list_fmap]. by rewrite <- app_assoc.
Qed.

Lemma forEach_ext {A St} (f f' : St -> A -> Result St) (l : list A) :
  (forall s a, f s a = f' s a) -> forall s, forEach f l s = forEach f' l s.
Proof.
  intros Hff'. induction l as [|a l IH]; intros s; [done|].
  cbn [forEach]. rewrite Hff'. destruct (f' s a); [|done]. apply IH.
Qed.

Lemma extractChunk_unfold g cx cy :
  extractChunkFromCompleteGrid g cx cy
  = forEach (fun chunk y =>
      row ← forEach (fun row x =>
               v ← extractCell g (cx * CHUNK_SIZE + x) (cy * CHUNK_SIZE + y);
               Ok (row ++ [v])) (seqZ 0 CHUNK_SIZE) [];
      Ok (chunk ++ [row])) (seqZ 0 CHUNK_SIZE) [].
Proof.
  unfold extractChunkFromCompleteGrid. cbv zeta.
  apply forEach_ext. intros chunk y. f_equal.
  apply forEach_ext. intros row x. unfold extractCell.
  destruct ((cx * CHUNK_SIZE + x <? GRID_WIDTH) && (cy * CHUNK_SIZE + y <? GRID_HEIGHT));
    [|done].
  destruct (index g (cy * CHUNK_SIZE + y)) as [r|]; [|done].
  by destruct (index r (cx * CHUNK_SIZE + x)).
Qed.

Lemma extractCell_nonneg g gx gy :
  wfGrid g -> 0 <= gx -> 0 <= gy ->
  extractCell g gx gy = Ok (chunkCellAt g (gx, gy)).
Proof.
  intros Hwf Hx Hy. unfold extractCell, chunkCellAt.
  destruct ((gx <? GRID_WIDTH) && (gy <? GRID_HEIGHT)) eqn:Hb.
  - apply andb_prop in Hb as [Hbx%Z.ltb_lt Hby%Z.ltb_lt].
    destruct (getCell_wf g gx gy Hwf) as [c Hc]; [apply inBounds_spec; lia|].
    rewrite (proj2 (look_Some g (gx, gy) c) Hc).
    apply getCell_Ok in Hc as (_ & _ & row & Hrow & Hc).
    rewrite (proj2 (index_Some g gy row)) by done.
    by rewrite (proj2 (index_Some row gx c)).
  - destruct (look g (gx, gy)) as [c|] eqn:Hc; [|done]. exfalso.
    apply look_Some, getCell_wf_inv, inBounds_spec in Hc; [|done]. cbn in Hc.
    apply andb_false_iff in Hb as [?%Z.ltb_ge|?%Z.ltb_ge]; lia.
Qed.

(** For chunk coordinates that are not negative, extraction returns: every
    position of the rectangle inside the world is a copy of the current
    cell, every other one a default cell. *)
Lemma extractChunk_nonneg g cx cy :
  wfGrid g -> 0 < CHUNK_SIZE -> 0 <= cx -> 0 <= cy ->
  extractChunkFromCompleteGrid g cx cy
  = Ok ((fun y => (fun x => chunkCellAt g (cx * CHUNK_SIZE + x, cy * CHUNK_SIZE + y))
                    <$> seqZ 0 CHUNK_SIZE) <$> seqZ 0 CHUNK_SIZE).
Proof.
  intros Hwf HS Hcx Hcy. rewrite extractChunk_unfold.
  rewrite (forEach_push
    (fun y => forEach (fun row x =>
               v ← extractCell g (cx * CHUNK_SIZE + x) (cy * CHUNK_SIZE + y);
               Ok (row ++ [v])) (seqZ 0 CHUNK_SIZE) [])
    (fun y => (fun x => chunkCellAt g (cx * CHUNK_SIZE + x, cy * CHUNK_SIZE + y))
                <$> seqZ 0 CHUNK_SIZE)); [done|].
  intros y Hy%elem_of_seqZ.
  rewrite (forEach_push
    (fun x => extractCell g (cx * CHUNK_SIZE + x) (cy * CHUNK_SIZE + y))
    (fun x => chunkCellAt g (cx * CHUNK_SIZE + x, cy * CHUNK_SIZE + y))); [done|].
  intros x Hx%elem_of_seqZ. apply extractCell_nonneg; [done|nia..].
Qed.

(** X3. Chunk extraction at chunk coordinates that are not negative and
    whose cells have global coordinates of at most 2^53 (up to there the
    code's sums [cx * CHUNK_SIZE + x] of doubles are exact): for a world
    grid and a positive chunk size, [extractChunkFromCompleteGrid] returns a
    chunk of [CHUNK_SIZE] rows; the entry for a position inside the world is
    a copy of the fields of the world's cell as they are at the time of the
    call, and the entry for a position outside the world is the default cell
    with that position's coordinates. *)
Theorem extract_total_from_the_origin g cx cy :
  wfGrid g -> 0 < CHUNK_SIZE -> 0 <= cx -> 0 <= cy ->
  cx * CHUNK_SIZE + CHUNK_SIZE <= 2 ^ 53 -> cy * CHUNK_SIZE + CHUNK_SIZE <= 2 ^ 53 ->
  exists chunk,
    extractChunkFromCompleteGrid g cx cy = Ok chunk
    /\ length chunk = Z.to_nat CHUNK_SIZE
    /\ forall x y, 0 <= x < CHUNK_SIZE -> 0 <= y < CHUNK_SIZE ->
         let gridX := cx * CHUNK_SIZE + x in
         let gridY := cy * CHUNK_SIZE + y in
         exists entry,
           index chunk y ≫= (fun row => index row x) = Some entry
           /\ (inBounds gridX gridY = true ->
               exists c, getCell g gridX gridY = Ok c /\ entry = CellCopy c)
           /\ (inBounds gridX gridY = false ->
               entry = CellCopy (Cell.fresh gridX gridY)).
Proof.
  intros Hwf HS Hcx Hcy _ _. eexists. split; [by apply extractChunk_nonneg|].
  split; [by rewrite length_fmap, length_seqZ|].
  intros x y Hx Hy gridX gridY. exists (chunkCellAt g (gridX, gridY)).
  split; [|split].
  - unfold index. rewrite !decide_True by lia.
    rewrite list_lookup_fmap, lookup_seqZ_lt by lia. cbn [fmap option_fmap option_map mbind option_bind].
    rewrite decide_True by lia.
    rewrite list_lookup_fmap, lookup_seqZ_lt by lia. cbn.
    by rewrite !Z2Nat.id by lia.
  - intros Hin. destruct (getCell_wf g gridX gridY Hwf Hin) as [c Hc].
    exists c. split; [done|]. unfold chunkCellAt.
    by rewrite (proj2 (look_Some g (gridX, gridY) c) Hc).
  - intros Hout. unfold chunkCellAt.
    destruct (look g (gridX, gridY)) as [c|] eqn:Hc; [|done]. exfalso.
    apply look_Some, getCell_wf_inv in Hc; [|done]. cbn in Hc. congruence.
Qed.

(** A chunk row above the world makes extraction throw: the test misses the
    lower bounds, so [completeGrid[gridY]] is [undefined] and reading
    [undefined[gridX]] raises. *)
Lemma extractChunk_negative_row g cx cy :
  0 < CHUNK_SIZE -> 0 <= GRID_HEIGHT -> cy < 0 -> cx * CHUNK_SIZE < GRID_WIDTH ->
  extractChunkFromCompleteGrid g cx cy = Throw TypeError.
Proof.
  intros HS HH Hcy Hcx. rewrite extractChunk_unfold.
  rewrite (seqZ_cons 0 CHUNK_SIZE) by done. cbn [forEach].
  assert (extractCell g (cx * CHUNK_SIZE + 0) (cy * CHUNK_SIZE + 0) = Throw TypeError)
    as Hcell.
  { unfold extractCell.
    assert ((cx * CHUNK_SIZE + 0 <? GRID_WIDTH) && (cy * CHUNK_SIZE + 0 <? GRID_HEIGHT)
            = true) as ->.
    { apply andb_true_intro. split; apply Z.ltb_lt; nia. }
    unfold index. rewrite decide_False by nia. done. }
  by rewrite Hcell.
Qed.

(** ** Chunk requests *)

(** A chunk that is in [gridChunks] is returned as stored. *)
Lemma getOrCreateChunk_hit cx cy sv ch :
  gridChunks sv !! getChunkKey cx cy = Some ch ->
  getOrCreateChunk cx cy sv = Ok (ch, sv).
Proof. intros Hhit. unfold getOrCreateChunk. by rewrite Hhit. Qed.

(** A chunk request leaves the chunk it returns in [gridChunks] and does not
    touch the world grid. *)
Lemma getOrCreateChunk_stores cx cy sv ch sv1 :
  getOrCreateChunk cx cy sv = Ok (ch, sv1) ->
  gridChunks sv1 !! getChunkKey cx cy = Some ch
  /\ completeGrid sv1 = completeGrid sv.
Proof.
  unfold getOrCreateChunk.
  destruct (gridChunks sv !! getChunkKey cx cy) as [ch0|] eqn:Hhit.
  - intros [= <- <-]. done.
  - destruct (extractChunkFromCompleteGrid (completeGrid sv) cx cy) as [ch0|]; [|done].
    cbn [mbind Result_bind]. intros [= <- <-]. cbn [gridChunks withChunks completeGrid].
    by rewrite lookup_insert_eq.
Qed.

(** X4. The chunk map of [server.js] is never refreshed by a reveal: a chunk
    requested once is served unchanged after any [revealCell], whatever that
    call revealed. *)
Lemma getOrCreateChunk_stale cx cy sv ch sv1 rx ry lx ly out sv2 :
  wfGrid (completeGrid sv) ->
  getOrCreateChunk cx cy sv = Ok (ch, sv1) ->
  revealCell rx ry lx ly sv1 = Ok (out, sv2) ->
  getOrCreateChunk cx cy sv2 = Ok (ch, sv2).
Proof.
  intros Hwf [Hstored Hgrid]%getOrCreateChunk_stores Hreveal.
  rewrite <- Hgrid in Hwf.
  destruct (revealCell_spec rx ry lx ly sv1 Hwf) as (out' & sv' & Hrun & _ & Hch & _).
  rewrite Hreveal in Hrun. injection Hrun as <- <-.
  apply getOrCreateChunk_hit. by rewrite Hch.
Qed.

(** X5. The sibling [getOrCreateChunk] that keeps no map answers every request
    for a chunk at or beyond the origin, with global coordinates of at most
    2^53, from the grid as it is at the time of the call. *)
Lemma getOrCreateChunk_uncached_fresh cx cy sv :
  wfGrid (completeGrid sv) -> 0 < CHUNK_SIZE -> 0 <= cx -> 0 <= cy ->
  cx * CHUNK_SIZE + CHUNK_SIZE <= 2 ^ 53 -> cy * CHUNK_SIZE + CHUNK_SIZE <= 2 ^ 53 ->
  getOrCreateChunk_uncached cx cy sv
  = Ok ((fun y => (fun x => chunkCellAt (completeGrid sv)
                              (cx * CHUNK_SIZE + x, cy * CHUNK_SIZE + y))
                    <$> seqZ 0 CHUNK_SIZE) <$> seqZ 0 CHUNK_SIZE, sv).
Proof.
  intros Hwf HS Hcx Hcy _ _. unfold getOrCreateChunk_uncached.
  by rewrite extractChunk_nonneg.
Qed.

(** ** Addresses: chunk coordinates and local coordinates *)

Lemma isValidChunkCoords_spec cx cy :
  isValidChunkCoords cx cy = true <-> 0 <= cx /\ 0 <= cy.
Proof. unfold isValidChunkCoords. rewrite andb_true_iff. lia. Qed.

Lemma isValidCellCoords_spec x y :
  isValidCellCoords x y = true <-> 0 <= x < CHUNK_SIZE /\ 0 <= y < CHUNK_SIZE.
Proof. unfold isValidCellCoords. rewrite !andb_true_iff. lia. Qed.

Lemma address_div c a : 0 <= a < CHUNK_SIZE -> (c * CHUNK_SIZE + a) / CHUNK_SIZE = c.
Proof. intros Ha. rewrite Z.div_add_l by lia. rewrite Z.div_small by done. lia. Qed.

Lemma address_rem c a :
  0 <= c -> 0 <= a < CHUNK_SIZE -> Z.rem (c * CHUNK_SIZE + a) CHUNK_SIZE = a.
Proof.
  intros Hc Ha. rewrite Z.rem_mod_nonneg by nia.
  rewrite Z.add_comm, Z.mod_add by lia. by apply Z.mod_small.
Qed.

Lemma updateAt_address cx cy x y :
  isValidChunkCoords cx cy = true -> isValidCellCoords x y = true ->
  updateAt (cx * CHUNK_SIZE + x) (cy * CHUNK_SIZE + y)
  = Update.mk cx cy x y (cx * CHUNK_SIZE + x, cy * CHUNK_SIZE + y).
Proof.
  intros [Hcx Hcy]%isValidChunkCoords_spec [Hx Hy]%isValidCellCoords_spec.
  unfold updateAt. by rewrite !address_div, !address_rem.
Qed.

Lemma updateAt_valid gx gy :
  0 < CHUNK_SIZE -> 0 <= gx -> 0 <= gy ->
  let u := updateAt gx gy in
  isValidChunkCoords (Update.cx u) (Update.cy u) = true
  /\ isValidCellCoords (Update.x u) (Update.y u) = true
  /\ (Update.cx u * CHUNK_SIZE + Update.x u,
      Update.cy u * CHUNK_SIZE + Update.y u) = (gx, gy)
  /\ Update.cell u = (gx, gy).
Proof.
  intros HS Hx Hy u. unfold u, updateAt. cbn.
  rewrite !Z.rem_mod_nonneg by lia.
  pose proof (Z.mod_pos_bound gx CHUNK_SIZE HS).
  pose proof (Z.mod_pos_bound gy CHUNK_SIZE HS).
  pose proof (Z.div_pos gx CHUNK_SIZE Hx HS).
  pose proof (Z.div_pos gy CHUNK_SIZE Hy HS).
  split; [apply isValidChunkCoords_spec; lia|].
  split; [apply isValidCellCoords_spec; lia|].
  split; [|done].
  pose proof (Z.div_mod gx CHUNK_SIZE). pose proof (Z.div_mod gy CHUNK_SIZE).
  f_equal; lia.
Qed.

(** X6. Addresses round trip. The record [flood] pushes for a cell is
    computed from the global coordinate with [Math.floor(g / CHUNK_SIZE)]
    and [g % CHUNK_SIZE]. For an address that [isValidChunkCoords] and
    [isValidCellCoords] accept, the record computed for its global
    coordinate is that address again; and for a global coordinate that is
    not negative (and a positive chunk size) the computed record is an
    address both helpers accept, and it names that coordinate. *)
Theorem address_round_trip :
  (forall cx cy x y,
     isValidChunkCoords cx cy = true -> isValidCellCoords x y = true ->
     updateAt (cx * CHUNK_SIZE + x) (cy * CHUNK_SIZE + y)
     = Update.mk cx cy x y (cx * CHUNK_SIZE + x, cy * CHUNK_SIZE + y))
  /\ (forall gx gy,
        0 < CHUNK_SIZE -> 0 <= gx -> 0 <= gy ->
        let u := updateAt gx gy in
        isValidChunkCoords (Update.cx u) (Update.cy u) = true
        /\ isValidCellCoords (Update.x u) (Update.y u) = true
        /\ (Update.cx u * CHUNK_SIZE + Update.x u,
            Update.cy u * CHUNK_SIZE + Update.y u) = (gx, gy)
        /\ Update.cell u = (gx, gy)).
Proof. split; [apply updateAt_address|apply updateAt_valid]. Qed.

(** ** Single reveals, repeated reveals, flags *)

Lemma updCell_twice f f' gx gy g :
  updCell f gx gy (updCell f' gx gy g) = updCell (f ∘ f') gx gy g.
Proof.
  unfold updCell. rewrite list_alter_alter_eq. apply list_alter_ext; [|done].
  intros row _. cbn. by rewrite list_alter_alter_eq.
Qed.

Lemma updCell_same f gx gy g : (forall c, f c = c) -> updCell f gx gy g = g.
Proof.
  intros Hf. unfold updCell. apply list_alter_id. intros row.
  by apply list_alter_id.
Qed.

Lemma hidden_or_not g p : wfGrid g -> hidden g p \/ ~ hidden g p.
Proof.
  intros Hwf. rewrite hidden_iff by done. unfold inWorld.
  destruct (decide (inBounds p.1 p.2 = true /\ revealedAt g p = false
                    /\ flaggedAt g p = false)); [by left|by right].
Qed.

Lemma toggleFlagged_twice c : Cell.toggleFlagged (Cell.toggleFlagged c) = c.
Proof. destruct c. unfold Cell.toggleFlagged. cbn. by rewrite negb_involutive. Qed.

(** X7. A reveal of a hidden cell that holds a mine or has a count other
    than 0 reveals that one cell: the list is the single record of the
    requested address, the cell object reads [revealed = true] with its
    other fields as before, every other cell is as before, and
    [bombsExploded] grows by one exactly when the cell holds a mine. *)
Theorem reveal_of_mine_or_number cx cy x y sv c :
  let p := (cx * CHUNK_SIZE + x, cy * CHUNK_SIZE + y) in
  let g := completeGrid sv in
  hidden g p -> look g p = Some c ->
  Cell.hasMine c = true \/ Cell.adjacentMines c <> 0 ->
  exists sv',
    revealCell cx cy x y sv = Ok ([Update.mk cx cy x y p], sv')
    /\ look (completeGrid sv') p = Some (Cell.setRevealed c)
    /\ (forall q, q <> p -> look (completeGrid sv') q = look g q)
    /\ bombsExploded sv' = bombsExploded sv + (if Cell.hasMine c then 1 else 0)
    /\ gridChunks sv' = gridChunks sv
    /\ uniqueUsersEver sv' = uniqueUsersEver sv.
Proof.
  intros p g (Hw & c' & Hc' & Hr & Hf) Hc Hkind.
  rewrite Hc in Hc'. injection Hc' as <-.
  destruct (inWorld_nonneg p Hw) as [Hx Hy].
  unfold revealCell. rewrite outOfBounds_inBounds. fold p.
  change (inBounds (cx * CHUNK_SIZE + x) (cy * CHUNK_SIZE + y)) with (inBounds p.1 p.2).
  rewrite Hw. cbn [negb].
  pose proof (proj1 (look_Some g p c) Hc) as Hget.
  unfold p, g in Hget. cbn [fst snd] in Hget. rewrite Hget.
  cbn [mbind Result_bind]. rewrite Hr, Hf. cbn [orb].
  assert ((Cell.adjacentMines c =? 0) && negb (Cell.hasMine c) = false) as ->.
  { destruct Hkind as [->| Hn]; [by rewrite andb_false_r|].
    apply Z.eqb_neq in Hn. by rewrite Hn. }
  eexists. split; [done|].
  assert (forall sv1, completeGrid sv1 = g ->
            look (updCell Cell.setRevealed p.1 p.2 (completeGrid sv1)) p
            = Some (Cell.setRevealed c)
            /\ forall q, q <> p ->
                 look (updCell Cell.setRevealed p.1 p.2 (completeGrid sv1)) q
                 = look g q) as Hgrid.
  { intros sv1 ->. split.
    - rewrite (look_updCell Cell.setRevealed g p p) by done.
      rewrite decide_True by done. by rewrite Hc.
    - intros q Hq. rewrite (look_updCell Cell.setRevealed g p q) by done.
      by rewrite decide_False by done. }
  destruct (Cell.hasMine c); cbn [completeGrid withGrid explode bombsExploded
                                   gridChunks uniqueUsersEver];
    (split; [by apply (Hgrid sv)|]); (split; [by apply (Hgrid sv)|]);
    (split; [lia|done]).
Qed.

(** X8. A reveal is idempotent: after [revealCell] has returned, a second
    [revealCell] at the same address, or at the address of any cell the
    first call listed, returns the empty list and leaves the server state
    as it is. *)
Theorem reveal_is_idempotent cx cy x y sv out sv' :
  wfGrid (completeGrid sv) ->
  revealCell cx cy x y sv = Ok (out, sv') ->
  revealCell cx cy x y sv' = Ok ([], sv')
  /\ forall cx' cy' x' y',
       (cx' * CHUNK_SIZE + x', cy' * CHUNK_SIZE + y') ∈ cellsOf out ->
       revealCell cx' cy' x' y' sv' = Ok ([], sv').
Proof.
  intros Hwf Hrun.
  destruct (revealCell_spec cx cy x y sv Hwf) as (out' & sv'' & Hrun' & Hpost & _).
  rewrite Hrun in Hrun'. injection Hrun' as <- <-.
  pose proof (RevealPost_Changed _ _ _ _ Hpost) as Hch.
  pose proof (ch_wf _ _ _ Hch Hwf) as Hwf'.
  assert (forall q, q ∈ cellsOf out -> ~ hidden (completeGrid sv') q) as Hdone.
  { intros q Hq Hh. apply hidden_iff in Hh as (_ & Hr & _); [|done].
    rewrite (ch_listed _ _ _ Hch q Hq) in Hr. done. }
  split.
  - apply revealCell_noop; [done|]. intros Hh.
    destruct (hidden_or_not (completeGrid sv)
                (cx * CHUNK_SIZE + x, cy * CHUNK_SIZE + y) Hwf) as [Hbefore|Hnot].
    + apply (Hdone _ (proj2 (rp_cells _ _ _ _ Hpost _) (uncovers_self _ _ Hbefore)) Hh).
    + rewrite (revealCell_noop cx cy x y sv Hwf Hnot) in Hrun.
      injection Hrun as <- <-. done.
  - intros cx' cy' x' y' Hq. apply revealCell_noop; [done|]. by apply Hdone.
Qed.

(** X9. Flagging twice restores the state: when the [flag_cell] handler
    has returned, a second call at the same address returns the same answer
    and gives back the server state of before the first call. *)
Theorem flag_twice_restores cx cy x y sv r sv' :
  wfGrid (completeGrid sv) ->
  flag_cell cx cy x y sv = Ok (r, sv') ->
  flag_cell cx cy x y sv' = Ok (r, sv).
Proof.
  intros Hwf Hrun.
  destruct (flag_cell_spec cx cy x y sv Hwf) as (r' & sv'' & Hrun' & Hyes & Hno).
  rewrite Hrun in Hrun'. injection Hrun' as <- <-.
  set (p := (cx * CHUNK_SIZE + x, cy * CHUNK_SIZE + y)) in *.
  destruct (decide (inWorld p /\ revealedAt (completeGrid sv) p = false)) as [Hcan|Hcan].
  - destruct (Hyes Hcan) as [-> ->]. destruct Hcan as [Hw Hr].
    assert (wfGrid (completeGrid (withGrid (updCell Cell.toggleFlagged p.1 p.2
                                              (completeGrid sv)) sv))) as Hwf'.
    { cbn. by apply wfGrid_updCell. }
    destruct (flag_cell_spec cx cy x y _ Hwf') as (r2 & sv2 & Hrun2 & Hyes2 & _).
    fold p in Hyes2. rewrite Hrun2.
    destruct Hyes2 as [-> ->].
    { split; [done|]. cbn [completeGrid withGrid]. by rewrite revealedAt_toggle. }
    f_equal. f_equal. cbn [completeGrid withGrid].
    rewrite updCell_twice.
    rewrite updCell_same by (intros c; apply toggleFlagged_twice).
    by destruct sv.
  - destruct (Hno Hcan) as [-> ->]. by apply flag_cell_noop.
Qed.

(** ** Reveals by [revealCell], by [revealCellWithFlood], and by a chord *)

Lemma revealCell_as_flood cx cy x y sv :
  isValidChunkCoords cx cy = true -> isValidCellCoords x y = true ->
  inBounds (cx * CHUNK_SIZE + x) (cy * CHUNK_SIZE + y) = true ->
  hasMineAt (completeGrid sv) (cx * CHUNK_SIZE + x, cy * CHUNK_SIZE + y) = false ->
  revealCell cx cy x y sv
  = revealCellWithFlood (cx * CHUNK_SIZE + x) (cy * CHUNK_SIZE + y) sv.
Proof.
  intros Hchunk Hcell Hb Hmine. unfold revealCell, revealCellWithFlood.
  rewrite outOfBounds_inBounds, Hb. cbn [negb].
  unfold hasMineAt, look in Hmine. cbn [fst snd] in Hmine.
  destruct (getCell (completeGrid sv) (cx * CHUNK_SIZE + x) (cy * CHUNK_SIZE + y))
    as [c|e]; [|done].
  cbn [mbind Result_bind]. rewrite Hmine.
  destruct (Cell.revealed c || Cell.flagged c); [done|].
  destruct ((Cell.adjacentMines c =? 0) && negb false); [done|].
  by rewrite updateAt_address.
Qed.

(** X10. [revealCell] and [revealCellWithFlood] are the same reveal: for
    an address the validation helpers accept, inside the world, of a cell
    that holds no mine, [revealCell] returns what [revealCellWithFlood]
    returns for its global coordinate, records and server state alike (also
    when both throw). *)
Theorem revealCell_agrees_with_revealCellWithFlood cx cy x y sv :
  isValidChunkCoords cx cy = true -> isValidCellCoords x y = true ->
  inBounds (cx * CHUNK_SIZE + x) (cy * CHUNK_SIZE + y) = true ->
  hasMineAt (completeGrid sv) (cx * CHUNK_SIZE + x, cy * CHUNK_SIZE + y) = false ->
  revealCell cx cy x y sv
  = revealCellWithFlood (cx * CHUNK_SIZE + x) (cy * CHUNK_SIZE + y) sv.
Proof. apply revealCell_as_flood. Qed.

(** X11. A flag protects its cell: a flagged cell is never listed and its
    object is never changed by [revealCell] or by [handleChordClick],
    wherever the click is and whether or not the flag sits on a mine. *)
Theorem flagged_cells_stay_covered sv q :
  let g := completeGrid sv in
  wfGrid g -> flaggedAt g q = true ->
  (forall cx cy x y out sv',
     revealCell cx cy x y sv = Ok (out, sv') ->
     (q ∉ cellsOf out) /\ look (completeGrid sv') q = look g q)
  /\ (forall cx cy x y out sv',
        handleChordClick cx cy x y sv = Ok (out, sv') ->
        (q ∉ cellsOf out) /\ look (completeGrid sv') q = look g q).
Proof.
  intros g Hwf Hflag.
  assert (~ hidden g q) as Hq.
  { intros (_ & Hr & Hf)%hidden_iff; [|done]. congruence. }
  split.
  - intros cx cy x y out sv' Hrun.
    destruct (revealCell_spec cx cy x y sv Hwf) as (out' & sv'' & Hrun' & Hpost & _).
    rewrite Hrun in Hrun'. injection Hrun' as <- <-.
    assert (q ∉ cellsOf out) as Hout.
    { intros Hin. apply (rp_cells _ _ _ _ Hpost) in Hin.
      by apply uncovers_hidden in Hin. }
    split; [done|]. by apply (ch_frame _ _ _ (RevealPost_Changed _ _ _ _ Hpost)).
  - intros cx cy x y out sv' Hrun.
    destruct (handleChordClick_spec cx cy x y sv Hwf) as (out' & sv'' & Hrun' & Hyes & Hno).
    rewrite Hrun in Hrun'. injection Hrun' as <- <-.
    destruct (classic_chordFires g (cx * CHUNK_SIZE + x, cy * CHUNK_SIZE + y)) as [Hf|Hf].
    + specialize (Hyes Hf).
      assert (q ∉ cellsOf out) as Hout.
      { intros Hin. apply (ci_cells _ _ _ _ Hyes) in Hin as (m & _ & Hm).
        by apply uncovers_hidden in Hm. }
      split; [done|]. by apply (ch_frame _ _ _ (ChordInv_Changed _ _ _ _ Hyes)).
    + destruct (Hno Hf) as [-> ->]. split; [apply not_elem_of_nil|done].
Qed.

Lemma handleChordClick_fires cx cy x y sv :
  wfGrid (completeGrid sv) ->
  let p := (cx * CHUNK_SIZE + x, cy * CHUNK_SIZE + y) in
  chordFires (completeGrid sv) p ->
  handleChordClick cx cy x y sv
  = forEach chordStep (candidates (completeGrid sv) p) ([], sv).
Proof.
  intros Hwf p (Hw & c & Hc & Hr & Hadj & Hsum). unfold handleChordClick.
  change (cx * CHUNK_SIZE + x) with p.1. change (cy * CHUNK_SIZE + y) with p.2.
  rewrite outOfBounds_inBounds, Hw. cbn [negb].
  rewrite (proj1 (look_Some _ _ _) Hc). cbn [mbind Result_bind].
  rewrite Hr. apply Z.eqb_neq in Hadj. rewrite Hadj. cbn [negb orb].
  rewrite (scanNeighbors_spec _ p Hwf). cbn [mbind Result_bind flagCount
    revealedMineCount adjacentCells].
  apply Z.eqb_eq in Hsum. by rewrite Hsum.
Qed.

Lemma chordStep_as_reveal out sv n :
  0 < CHUNK_SIZE -> inWorld n ->
  (hasMineAt (completeGrid sv) n = true -> hidden (completeGrid sv) n) ->
  chordStep (out, sv) n = revealAt (out, sv) n.
Proof.
  intros HS Hw Hmine. destruct n as [nx ny].
  destruct (inWorld_nonneg _ Hw) as [Hx Hy]. cbn [fst snd] in Hx, Hy.
  destruct (updateAt_valid nx ny HS Hx Hy) as (Hchunk & Hcell & Hglobal & _).
  cbn [updateAt Update.cx Update.cy Update.x Update.y] in Hchunk, Hcell, Hglobal.
  injection Hglobal as Hgx Hgy.
  unfold revealAt, chordStep. cbn [fst snd].
  destruct (hasMineAt (completeGrid sv) (nx, ny)) eqn:Hm.
  - destruct (Hmine eq_refl) as (_ & c & Hc & Hr & Hf).
    unfold hasMineAt in Hm. rewrite Hc in Hm.
    unfold revealCell. rewrite Hgx, Hgy, outOfBounds_inBounds.
    unfold inWorld in Hw. cbn [fst snd] in Hw. rewrite Hw. cbn [negb].
    pose proof (proj1 (look_Some _ _ _) Hc) as Hget. cbn [fst snd] in Hget.
    rewrite Hget. cbn [mbind Result_bind fst snd].
    rewrite Hm, Hr, Hf. cbn [orb negb]. rewrite andb_false_r. done.
  - rewrite (revealCell_as_flood _ _ _ _ sv Hchunk Hcell) by
      (rewrite ?Hgx, ?Hgy; done).
    rewrite Hgx, Hgy. unfold hasMineAt, look in Hm. cbn [fst snd] in Hm.
    destruct (getCell (completeGrid sv) nx ny) as [c|e] eqn:Hc.
    + cbn [mbind Result_bind]. rewrite Hm.
      unfold revealCellWithFlood. by rewrite Hc.
    + cbn [mbind Result_bind]. unfold revealCellWithFlood. by rewrite Hc.
Qed.

Section ChordAsReveals.
Variable sv0 : Server.
Hypothesis wf0 : wfGrid (completeGrid sv0).
Hypothesis chunk_pos : 0 < CHUNK_SIZE.

Lemma chordLoop_as_reveals : forall cands seen out sv,
  ChordInv sv0 seen out sv -> NoDup (seen ++ cands) ->
  (forall n, n ∈ cands -> hidden (completeGrid sv0) n) ->
  forEach chordStep cands (out, sv) = forEach revealAt cands (out, sv).
Proof.
  induction cands as [|n cands IH]; intros seen out sv Hinv Hnodup Hhid; [done|].
  assert (n ∉ seen) as Hfresh.
  { apply NoDup_app in Hnodup as (_ & Hdisj & _). intros Hin.
    apply (Hdisj n Hin). by left. }
  assert (hidden (completeGrid sv0) n) as Hn by (apply Hhid; by left).
  cbn [forEach].
  rewrite <- (chordStep_as_reveal out sv n chunk_pos (proj1 Hn)).
  2:{ intros Hm. rewrite (ci_grid _ _ _ _ Hinv).
      apply hidden_after.
      { intros q Hq. apply (ci_cells _ _ _ _ Hinv) in Hq as (m & _ & Hq).
        apply uncovers_hidden in Hq. apply Hq. }
      split; [done|]. intros Hin.
      apply (ci_cells _ _ _ _ Hinv) in Hin as (m & Hseen & Hreach).
      destruct (uncovers_cases _ _ _ Hreach) as [->|Hopen]; [done|].
      apply open_no_mine in Hopen.
      pose proof (ch_mines _ _ _ (ChordInv_Changed _ _ _ _ Hinv) n) as Hsame.
      congruence. }
  destruct (chordStep_spec sv0 wf0 seen out sv n Hinv Hfresh Hn)
    as (out' & sv' & Hstep & Hinv').
  rewrite Hstep. cbn [mbind Result_bind].
  apply (IH (seen ++ [n])); [done| |].
  - by rewrite <- app_assoc.
  - intros m Hm. apply Hhid. by right.
Qed.

End ChordAsReveals.

(** X12. A chord click that passes its tests does what a sequence of
    [reveal_cell] requests does: for a positive chunk size,
    [handleChordClick] returns the records and the server state that
    [revealCell] calls on the hidden neighbours, one after the other in scan
    order and each addressed as the result records address cells, return
    together. *)
Theorem chord_is_a_sequence_of_reveals cx cy x y sv :
  let p := (cx * CHUNK_SIZE + x, cy * CHUNK_SIZE + y) in
  let g := completeGrid sv in
  wfGrid g -> 0 < CHUNK_SIZE -> chordFires g p ->
  handleChordClick cx cy x y sv = forEach revealAt (candidates g p) ([], sv).
Proof.
  intros p g Hwf HS Hfires.
  rewrite (handleChordClick_fires cx cy x y sv Hwf Hfires). fold p g.
  apply (chordLoop_as_reveals sv Hwf HS (candidates g p) []).
  - by apply ChordInv_start.
  - apply NoDup_candidates.
  - intros n Hn. by apply (elem_of_candidates g p n Hwf) in Hn as [_ ?].
Qed.

(** ** Chunk keys and the chunk map *)

Lemma noComma_pretty_N_go x : forall s,
  noComma s = true -> noComma (pretty_N_go x s) = true.
Proof.
  induction (N.lt_wf_0 x) as [x _ IH]; intros s Hs.
  assert (x = 0 \/ 0 < x)%N as [->|Hpos] by lia.
  - by rewrite pretty_N_go_0.
  - rewrite pretty_N_go_step by done. apply IH.
    + by apply N.div_lt.
    + cbn [noComma]. rewrite Hs, andb_true_r.
      unfold pretty_N_char. by repeat case_match.
Qed.

Lemma noComma_pretty_Z (z : Z) : noComma (pretty z) = true.
Proof.
  assert (forall n : N, noComma (pretty n) = true) as HN.
  { intros n. unfold pretty, pretty_N. case_decide; [done|].
    by apply noComma_pretty_N_go. }
  destruct z as [|p|p]; [done|apply (HN (N.pos p))|].
  change (pretty (Z.neg p)) with ("-" +:+ pretty (N.pos p)).
  cbn [String.append noComma]. apply (HN (N.pos p)).
Qed.

Lemma comma_separated_inj s1 : forall s2 t1 t2,
  noComma s1 = true -> noComma s2 = true ->
  s1 +:+ "," +:+ t1 = s2 +:+ "," +:+ t2 -> s1 = s2 /\ t1 = t2.
Proof.
  assert (forall t, "" +:+ "," +:+ t = String "," t) as Hnil by done.
  assert (forall a s t, String a s +:+ "," +:+ t = String a (s +:+ "," +:+ t))
    as Hcons by done.
  induction s1 as [|a s1 IH]; intros [|b s2] t1 t2 H1 H2 Heq;
    rewrite ?Hnil, ?Hcons in Heq; cbn [noComma] in H1, H2.
  - by injection Heq as ->.
  - injection Heq as <- _. by rewrite Ascii.eqb_refl in H2.
  - injection Heq as -> _. by rewrite Ascii.eqb_refl in H1.
  - injection Heq as -> Heq.
    apply andb_prop in H1 as [_ H1]. apply andb_prop in H2 as [_ H2].
    destruct (IH s2 t1 t2 H1 H2 Heq) as [-> ->]. done.
Qed.

Lemma getChunkKey_inj cx cy cx' cy' :
  getChunkKey cx cy = getChunkKey cx' cy' -> cx = cx' /\ cy = cy'.
Proof.
  unfold getChunkKey. intros Heq.
  apply comma_separated_inj in Heq as [H1 H2]; [|apply noComma_pretty_Z..].
  split; by apply (inj pretty).
Qed.

(** X13. Chunk keys are unambiguous: [getChunkKey] gives two pairs of
    integers the same string only when they are the same pair. (The keys of
    the [visited] sets of the flood closures are built the same way.) *)
Theorem getChunkKey_injective cx cy cx' cy' :
  getChunkKey cx cy = getChunkKey cx' cy' <-> (cx, cy) = (cx', cy').
Proof.
  split.
  - intros [-> ->]%getChunkKey_inj. done.
  - by intros [= -> ->].
Qed.

(** X14. The chunk map of [server.js]: a chunk request that returns leaves
    its answer stored under its own key and every other chunk's entry as it
    was; [/chunk-count] grows by one when the key was not stored and stays
    the same otherwise; the world grid and the counters are not touched;
    and the same request repeated returns the same chunk and changes
    nothing. *)
Theorem chunk_request_stores_one_chunk cx cy sv ch sv' :
  getOrCreateChunk cx cy sv = Ok (ch, sv') ->
  gridChunks sv' !! getChunkKey cx cy = Some ch
  /\ (forall cx' cy', (cx', cy') <> (cx, cy) ->
        gridChunks sv' !! getChunkKey cx' cy' = gridChunks sv !! getChunkKey cx' cy')
  /\ chunk_count sv'
     = chunk_count sv
       + (if gridChunks sv !! getChunkKey cx cy is Some _ then 0 else 1)
  /\ completeGrid sv' = completeGrid sv
  /\ bombsExploded sv' = bombsExploded sv
  /\ uniqueUsersEver sv' = uniqueUsersEver sv
  /\ getOrCreateChunk cx cy sv' = Ok (ch, sv').
Proof.
  intros Hrun.
  destruct (getOrCreateChunk_stores cx cy sv ch sv' Hrun) as [Hstored Hgrid].
  split; [done|].
  assert (getOrCreateChunk cx cy sv' = Ok (ch, sv')) as Hagain
    by (by apply getOrCreateChunk_hit).
  unfold getOrCreateChunk in Hrun.
  destruct (gridChunks sv !! getChunkKey cx cy) as [ch0|] eqn:Hhit.
  - injection Hrun as <- <-. repeat split; try done. lia.
  - destruct (extractChunkFromCompleteGrid (completeGrid sv) cx cy) as [ch0|];
      [|done].
    cbn [mbind Result_bind] in Hrun. injection Hrun as <- <-.
    cbn [gridChunks withChunks completeGrid bombsExploded uniqueUsersEver] in *.
    split.
    { intros cx' cy' Hne. apply lookup_insert_ne. intros Hkey.
      apply getChunkKey_inj in Hkey as [-> ->]. done. }
    split; [|done].
    unfold chunk_count. cbn [gridChunks withChunks].
    rewrite map_size_insert_None by done. lia.
Qed.

(** ** The statistics endpoints *)

Lemma forEach_app {A St} (f : St -> A -> Result St) (l1 l2 : list A) : forall s,
  forEach f (l1 ++ l2) s = s' ← forEach f l1 s; forEach f l2 s'.
Proof.
  induction l1 as [|a l1 IH]; intros s; [done|]. cbn [forEach app].
  destruct (f s a) as [s1|e]; [|done]. cbn [mbind Result_bind]. apply IH.
Qed.

(** Two nested loops over rows and columns visit the positions of the
    rectangle row by row. *)
Lemma forEach_nested {St} (f : St -> Z -> Z -> Result St) (ys xs : list Z) :
  forall s,
  forEach (fun s y => forEach (fun s x => f s x y) xs s) ys s
  = forEach (fun s q => f s q.1 q.2) (y ← ys; x ← xs; [(x, y)]) s.
Proof.
  assert (forall y s, forEach (fun s x => f s x y) xs s
                      = forEach (fun s q => f s q.1 q.2) (x ← xs; [(x, y)]) s)
    as Hrow.
  { intros y. induction xs as [|x xs IH]; intros s; [done|]. cbn.
    destruct (f s x y) as [s1|e]; [|done]. cbn [mbind Result_bind]. apply IH. }
  induction ys as [|y ys IH]; intros s; [done|].
  cbn [forEach mbind list_bind]. change (foldr _ _ _) with (y ← ys; x ← xs; [(x, y)]).
  rewrite forEach_app, Hrow.
  destruct (forEach _ (x ← xs; [(x, y)]) s) as [s1|e]; [|done].
  cbn [mbind Result_bind]. apply IH.
Qed.

Lemma revealedLoop_spec g (l : list (Z * Z)) :
  wfGrid g -> (forall q, q ∈ l -> inWorld q) -> forall r t,
  forEach (fun s q => revealedStep g s q.1 q.2) l (r, t)
  = Ok (r + Z.of_nat (length (filter (fun q => revealedAt g q = true) l)),
        t + Z.of_nat (length l)).
Proof.
  intros Hwf. induction l as [|q l IH]; intros Hl r t.
  - cbn. f_equal. f_equal; lia.
  - cbn [forEach].
    destruct (getCell_wf g q.1 q.2 Hwf) as [c Hc]; [apply Hl; by left|].
    assert (revealedStep g (r, t) q.1 q.2
            = Ok (if Cell.revealed c then r + 1 else r, t + 1)) as ->
      by (unfold revealedStep; by rewrite Hc).
    cbn [mbind Result_bind].
    rewrite IH by (intros q' Hq'; apply Hl; by right).
    assert (revealedAt g q = Cell.revealed c) as Hr.
    { unfold revealedAt. by rewrite (proj2 (look_Some g q c) Hc). }
    rewrite filter_cons. cbn [length]. rewrite Hr.
    destruct (Cell.revealed c); [rewrite decide_True by done|rewrite decide_False by done];
      cbn [length]; f_equal; f_equal; lia.
Qed.

Lemma length_filter_cons {A} (P : A -> Prop) `{forall a, Decision (P a)}
    (a : A) (l : list A) (b : bool) :
  (P a <-> b = true) ->
  Z.of_nat (length (filter P (a :: l)))
  = (if b then 1 else 0) + Z.of_nat (length (filter P l)).
Proof.
  intros HP. rewrite filter_cons. destruct (decide (P a)) as [Ha|Ha].
  - apply HP in Ha as ->. cbn [length]. lia.
  - destruct b; [|done]. destruct Ha. by apply HP.
Qed.

Lemma flaggedLoop_spec g (l : list (Z * Z)) :
  wfGrid g -> (forall q, q ∈ l -> inWorld q) -> forall acc,
  forEach (fun s q => flaggedStep g s q.1 q.2) l acc
  = Ok (FlaggedStats.mk
          (FlaggedStats.flagged acc
           + Z.of_nat (length (filter (fun q => flaggedAt g q = true) l)))
          (FlaggedStats.correctFlags acc
           + Z.of_nat (length (filter (fun q => flaggedAt g q && hasMineAt g q = true) l)))
          (FlaggedStats.totalMines acc + minesAmong g l)).
Proof.
  intros Hwf. induction l as [|q l IH]; intros Hl acc.
  - destruct acc as [f c m]. unfold minesAmong. rewrite !filter_nil.
    cbn [forEach length FlaggedStats.flagged FlaggedStats.correctFlags
         FlaggedStats.totalMines]. by rewrite !Z.add_0_r.
  - cbn [forEach].
    destruct (getCell_wf g q.1 q.2 Hwf) as [c Hc]; [apply Hl; by left|].
    assert (flaggedAt g q = Cell.flagged c) as Hf.
    { unfold flaggedAt. by rewrite (proj2 (look_Some g q c) Hc). }
    assert (hasMineAt g q = Cell.hasMine c) as Hm.
    { unfold hasMineAt. by rewrite (proj2 (look_Some g q c) Hc). }
    unfold minesAmong.
    rewrite (length_filter_cons (fun q => flaggedAt g q = true) q l (Cell.flagged c))
      by (by rewrite Hf).
    rewrite (length_filter_cons (fun q => flaggedAt g q && hasMineAt g q = true) q l
               (Cell.flagged c && Cell.hasMine c)) by (by rewrite Hf, Hm).
    rewrite (length_filter_cons (fun q => hasMineAt g q = true) q l (Cell.hasMine c))
      by (by rewrite Hm).
    assert (forall s, flaggedStep g acc q.1 q.2 = Ok s ->
              forEach (fun s q => flaggedStep g s q.1 q.2) l s
              = Ok (FlaggedStats.mk
                      (FlaggedStats.flagged acc
                       + ((if Cell.flagged c then 1 else 0)
                          + Z.of_nat (length (filter (fun q => flaggedAt g q = true) l))))
                      (FlaggedStats.correctFlags acc
                       + ((if Cell.flagged c && Cell.hasMine c then 1 else 0)
                          + Z.of_nat (length (filter
                              (fun q => flaggedAt g q && hasMineAt g q = true) l))))
                      (FlaggedStats.totalMines acc
                       + ((if Cell.hasMine c then 1 else 0)
                          + Z.of_nat (length (filter
                              (fun q => hasMineAt g q = true) l)))))) as Hrest.
    { intros s Hs. rewrite IH by (intros q' Hq'; apply Hl; by right).
      unfold flaggedStep in Hs. rewrite Hc in Hs. cbn [mbind Result_bind] in Hs.
      unfold minesAmong.
      destruct (Cell.flagged c), (Cell.hasMine c); injection Hs as <-;
        cbn [andb FlaggedStats.flagged FlaggedStats.correctFlags
             FlaggedStats.totalMines]; f_equal; f_equal; lia. }
    destruct (flaggedStep g acc q.1 q.2) as [s|e] eqn:Hs.
    + cbn [mbind Result_bind]. by apply Hrest.
    + unfold flaggedStep in Hs. rewrite Hc in Hs. cbn [mbind Result_bind] in Hs.
      by destruct (Cell.flagged c).
Qed.

Lemma revealed_stats_spec sv :
  wfGrid (completeGrid sv) ->
  revealed_stats sv
  = Ok (RevealedStats.mk
          (countCells (revealedAt (completeGrid sv)))
          (Z.of_nat (length worldList))
          (if 0 <? Z.of_nat (length worldList)
           then Number.mul
                  (Number.div (Number.ofZ (countCells (revealedAt (completeGrid sv))))
                              (Number.ofZ (Z.of_nat (length worldList))))
                  (Number.ofZ 100)
           else Number.ofZ 0)
          (bombsExploded sv)).
Proof.
  intros Hwf. unfold revealed_stats.
  rewrite (forEach_nested (revealedStep (completeGrid sv))).
  fold worldList.
  rewrite (revealedLoop_spec _ worldList Hwf) by (intros q; apply elem_of_worldList).
  cbn [mbind Result_bind]. rewrite !Z.add_0_l. done.
Qed.

Lemma flagged_stats_spec sv :
  wfGrid (completeGrid sv) ->
  flagged_stats sv
  = Ok (FlaggedStats.mk
          (countCells (flaggedAt (completeGrid sv)))
          (countCells (fun q => flaggedAt (completeGrid sv) q
                                && hasMineAt (completeGrid sv) q))
          (totalMines (completeGrid sv))).
Proof.
  intros Hwf. unfold flagged_stats.
  rewrite (forEach_nested (flaggedStep (completeGrid sv))).
  fold worldList.
  rewrite (flaggedLoop_spec _ worldList Hwf) by (intros q; apply elem_of_worldList).
  cbn [FlaggedStats.flagged FlaggedStats.correctFlags FlaggedStats.totalMines].
  by rewrite !Z.add_0_l.
Qed.

Lemma length_filter_le_mono {A} (P Q : A -> Prop)
    `{forall a, Decision (P a)} `{forall a, Decision (Q a)} (l : list A) :
  (forall a, P a -> Q a) -> (length (filter P l) <= length (filter Q l))%nat.
Proof.
  intros HPQ. induction l as [|a l IH]; [done|]. rewrite !filter_cons.
  destruct (decide (P a)) as [HP|HP].
  - rewrite decide_True by auto. cbn. lia.
  - destruct (decide (Q a)); cbn; lia.
Qed.

Lemma length_filter_grow {A} (P P' : A -> Prop)
    `{forall a, Decision (P a)} `{forall a, Decision (P' a)} (l out : list A) :
  NoDup l -> NoDup out -> (forall a, a ∈ out -> a ∈ l) ->
  (forall a, a ∈ l -> (P' a <-> P a \/ a ∈ out)) ->
  (forall a, a ∈ out -> ~ P a) ->
  length (filter P' l) = (length (filter P l) + length out)%nat.
Proof.
  intros Hl Hout Hsub HP' Hdisj.
  rewrite <- length_app. apply Permutation_length, NoDup_Permutation.
  - by apply NoDup_filter.
  - apply NoDup_app. split; [by apply NoDup_filter|]. split; [|done].
    intros a [Ha _]%list_elem_of_filter Hin. by apply (Hdisj a).
  - intros a. rewrite list_elem_of_filter, elem_of_app, list_elem_of_filter. split.
    + intros [Ha Hin]. destruct (proj1 (HP' a Hin) Ha) as [?|?]; [by left|by right].
    + intros [[Ha Hin]|Hin].
      * split; [|done]. apply HP'; [done|by left].
      * split; [|by apply Hsub]. apply HP'; [by apply Hsub|by right].
Qed.

Lemma countCells_Changed g out g' :
  wfGrid g -> Changed g out g' ->
  countCells (revealedAt g') = countCells (revealedAt g) + Z.of_nat (length out).
Proof.
  intros Hwf Hch. unfold countCells.
  rewrite (length_filter_grow (fun q => revealedAt g q = true)
             (fun q => revealedAt g' q = true) worldList (cellsOf out)).
  - unfold cellsOf. rewrite length_fmap. lia.
  - apply NoDup_worldList.
  - apply (ch_nodup _ _ _ Hch).
  - intros q Hq. apply elem_of_worldList.
    apply (revealedAt_inWorld g'); [by apply (ch_wf _ _ _ Hch)|].
    by apply (ch_listed _ _ _ Hch).
  - intros q _. rewrite (ch_exact _ _ _ Hch q). split.
    + intros Hr'. destruct (revealedAt g q) eqn:Hr; [by left|by right].
    + intros [Hr|[_ Hr']]; [by apply (ch_mono _ _ _ Hch)|done].
  - intros q Hq. apply (ch_exact _ _ _ Hch) in Hq as [Hr _]. congruence.
Qed.

Lemma filter_ext_in {A} (P Q : A -> Prop)
    `{forall a, Decision (P a)} `{forall a, Decision (Q a)} (l : list A) :
  (forall a, a ∈ l -> (P a <-> Q a)) -> filter P l = filter Q l.
Proof.
  induction l as [|a l IH]; intros HPQ; [done|]. rewrite !filter_cons.
  rewrite IH by (intros b Hb; apply HPQ; by right).
  destruct (decide (P a)) as [Ha|Ha].
  - rewrite decide_True; [done|]. apply HPQ; [by left|done].
  - rewrite decide_False; [done|]. intros HQ. apply Ha, HPQ; [by left|done].
Qed.

Lemma countCells_ext (P P' : Z * Z -> bool) :
  (forall q, inWorld q -> P' q = P q) -> countCells P' = countCells P.
Proof.
  intros Hext. unfold countCells. f_equal. f_equal.
  apply filter_ext_in. intros q Hq%elem_of_worldList.
  by rewrite (Hext q Hq).
Qed.

Lemma countCells_bounds (P : Z * Z -> bool) :
  0 <= countCells P <= Z.of_nat (length worldList).
Proof.
  unfold countCells. pose proof (length_filter (fun q => P q = true) worldList). lia.
Qed.

Lemma countCells_le (P Q : Z * Z -> bool) :
  (forall q, P q = true -> Q q = true) -> countCells P <= countCells Q.
Proof.
  intros HPQ. unfold countCells. apply Nat2Z.inj_le.
  by apply length_filter_le_mono.
Qed.

(** Changing the answer of [P] at one cell of the world changes the count by
    that cell alone. *)
Lemma countCells_at (P P' : Z * Z -> bool) (p : Z * Z) :
  inWorld p -> (forall q, q <> p -> P' q = P q) ->
  countCells P' = countCells P + (if P' p then 1 else 0) - (if P p then 1 else 0).
Proof.
  intros Hp Hext. unfold countCells.
  apply elem_of_worldList in Hp. pose proof NoDup_worldList as Hnd.
  induction worldList as [|a l IH]; [by apply elem_of_nil in Hp|].
  apply NoDup_cons in Hnd as [Ha Hnd].
  rewrite (length_filter_cons (fun q => P' q = true) a l (P' a)) by done.
  rewrite (length_filter_cons (fun q => P q = true) a l (P a)) by done.
  destruct (decide (a = p)) as [->|Hne].
  - assert (filter (fun q => P' q = true) l = filter (fun q => P q = true) l) as ->.
    { apply filter_ext_in. intros q Hq. rewrite Hext; [done|]. by intros ->. }
    lia.
  - apply elem_of_cons in Hp as [->|Hp]; [done|].
    rewrite (Hext a Hne). specialize (IH Hp Hnd). lia.
Qed.

Lemma totalMines_bounds g : 0 <= totalMines g <= Z.of_nat (length worldList).
Proof.
  unfold totalMines, minesAmong.
  pose proof (length_filter (fun q => hasMineAt g q = true) worldList). lia.
Qed.

Lemma world_size :
  Z.of_nat (length worldList) = Z.max 0 GRID_WIDTH * Z.max 0 GRID_HEIGHT.
Proof.
  rewrite length_worldList, Nat2Z.inj_mul.
  assert (forall n, Z.of_nat (Z.to_nat n) = Z.max 0 n) as Hmax by lia.
  rewrite !Hmax. lia.
Qed.

(** X15. [/revealed-stats] on an initialized grid: the answer counts every
    cell of the world once ([total] is width times height, 0 for an empty
    world), [revealed] is the number of cells with [revealed = true] and
    never exceeds [total], and [bombsExploded] is the server's counter.
    [percent] is 0 for an empty world (no division by zero) and when no
    cell is revealed; otherwise it is the double [(revealed / total) * 100]
    of these two counts. *)
Theorem revealed_stats_reports sv :
  wfGrid (completeGrid sv) ->
  exists st,
    revealed_stats sv = Ok st
    /\ RevealedStats.total st = Z.max 0 GRID_WIDTH * Z.max 0 GRID_HEIGHT
    /\ RevealedStats.revealed st = countCells (revealedAt (completeGrid sv))
    /\ 0 <= RevealedStats.revealed st <= RevealedStats.total st
    /\ RevealedStats.bombsExploded st = bombsExploded sv
    /\ (RevealedStats.total st = 0 -> RevealedStats.percent st = Number.ofZ 0)
    /\ (RevealedStats.revealed st = 0 -> RevealedStats.percent st = Number.ofZ 0)
    /\ (0 < RevealedStats.total st ->
        RevealedStats.percent st
        = Number.mul (Number.div (Number.ofZ (RevealedStats.revealed st))
                                 (Number.ofZ (RevealedStats.total st)))
                     (Number.ofZ 100)).
Proof.
  intros Hwf. eexists. split; [by apply revealed_stats_spec|].
  cbn [RevealedStats.total RevealedStats.revealed RevealedStats.percent
       RevealedStats.bombsExploded].
  pose proof (countCells_bounds (revealedAt (completeGrid sv))) as Hr.
  split; [apply world_size|]. split; [done|]. split; [done|]. split; [done|].
  destruct (Z.ltb_spec 0 (Z.of_nat (length worldList))) as [Ht|Ht].
  - split; [lia|]. split; [|done]. intros ->. by apply percent_of_none.
  - split; [done|]. split; [done|]. lia.
Qed.

Lemma revealed_stats_after out sv sv' :
  wfGrid (completeGrid sv) ->
  Changed (completeGrid sv) out (completeGrid sv') ->
  exists st st',
    revealed_stats sv = Ok st /\ revealed_stats sv' = Ok st'
    /\ RevealedStats.revealed st'
       = RevealedStats.revealed st + Z.of_nat (length out)
    /\ RevealedStats.total st' = RevealedStats.total st
    /\ RevealedStats.bombsExploded st' - RevealedStats.bombsExploded st
       = bombsExploded sv' - bombsExploded sv.
Proof.
  intros Hwf Hch. pose proof (ch_wf _ _ _ Hch Hwf) as Hwf'.
  eexists _, _. split; [by apply revealed_stats_spec|].
  split; [by apply revealed_stats_spec|].
  cbn [RevealedStats.total RevealedStats.revealed RevealedStats.bombsExploded].
  split; [by apply countCells_Changed|]. done.
Qed.

(** X16. Reveals show in [/revealed-stats]: after a [revealCell] or a
    [handleChordClick] the [revealed] count of the endpoint has grown by
    exactly the length of the returned list, [total] is the same, and
    [bombsExploded] has grown by the number of mines among the listed
    cells; a [flag_cell] request leaves the whole answer as it was. *)
Theorem reveals_show_in_revealed_stats sv :
  let g := completeGrid sv in
  wfGrid g ->
  (forall cx cy x y out sv',
     revealCell cx cy x y sv = Ok (out, sv') ->
     exists st st',
       revealed_stats sv = Ok st /\ revealed_stats sv' = Ok st'
       /\ RevealedStats.revealed st'
          = RevealedStats.revealed st + Z.of_nat (length out)
       /\ RevealedStats.total st' = RevealedStats.total st
       /\ RevealedStats.bombsExploded st'
          = RevealedStats.bombsExploded st + minesAmong g (cellsOf out))
  /\ (forall cx cy x y out sv',
        handleChordClick cx cy x y sv = Ok (out, sv') ->
        exists st st',
          revealed_stats sv = Ok st /\ revealed_stats sv' = Ok st'
          /\ RevealedStats.revealed st'
             = RevealedStats.revealed st + Z.of_nat (length out)
          /\ RevealedStats.total st' = RevealedStats.total st
          /\ RevealedStats.bombsExploded st'
             = RevealedStats.bombsExploded st + minesAmong g (cellsOf out))
  /\ (forall cx cy x y r sv',
        flag_cell cx cy x y sv = Ok (r, sv') ->
        revealed_stats sv' = revealed_stats sv).
Proof.
  intros g Hwf. split; [|split].
  - intros cx cy x y out sv' Hrun.
    destruct (revealCell_spec cx cy x y sv Hwf) as (out' & sv'' & Hrun' & Hpost & _ & _ & Hb).
    rewrite Hrun in Hrun'. injection Hrun' as <- <-.
    destruct (revealed_stats_after out sv sv' Hwf (RevealPost_Changed _ _ _ _ Hpost))
      as (st & st' & Hst & Hst' & Hr & Ht & Hbombs).
    exists st, st'. repeat (split; [done|]). fold g in Hb. lia.
  - intros cx cy x y out sv' Hrun.
    destruct (handleChordClick_spec cx cy x y sv Hwf) as (out' & sv'' & Hrun' & Hyes & Hno).
    rewrite Hrun in Hrun'. injection Hrun' as <- <-.
    assert (Changed g out (completeGrid sv')
            /\ bombsExploded sv' = bombsExploded sv + minesAmong g (cellsOf out))
      as [Hch Hb].
    { destruct (classic_chordFires g (cx * CHUNK_SIZE + x, cy * CHUNK_SIZE + y)) as [Hf|Hf].
      - specialize (Hyes Hf). split; [by apply (ChordInv_Changed _ _ _ _ Hyes)|].
        apply (ci_bombs _ _ _ _ Hyes).
      - destruct (Hno Hf) as [-> ->]. split; [apply Changed_nil|].
        unfold minesAmong. cbn. lia. }
    destruct (revealed_stats_after out sv sv' Hwf Hch)
      as (st & st' & Hst & Hst' & Hr & Ht & Hbombs).
    exists st, st'. repeat (split; [done|]). lia.
  - intros cx cy x y r sv' Hrun.
    destruct (flag_cell_spec cx cy x y sv Hwf) as (r' & sv'' & Hrun' & Hyes & Hno).
    rewrite Hrun in Hrun'. injection Hrun' as <- <-.
    set (p := (cx * CHUNK_SIZE + x, cy * CHUNK_SIZE + y)) in *.
    destruct (decide (inWorld p /\ revealedAt (completeGrid sv) p = false)) as [Hcan|Hcan].
    + destruct (Hyes Hcan) as [_ ->].
      rewrite !revealed_stats_spec; [|done|by apply wfGrid_updCell].
      cbn [completeGrid withGrid bombsExploded].
      assert (countCells (revealedAt (updCell Cell.toggleFlagged p.1 p.2 (completeGrid sv)))
              = countCells (revealedAt (completeGrid sv))) as ->; [|done].
      apply countCells_ext. intros q _. apply revealedAt_toggle, Hcan.
    + by destruct (Hno Hcan) as [_ ->].
Qed.

Lemma totalMines_countCells g : totalMines g = countCells (hasMineAt g).
Proof. done. Qed.

(** X17. [/flagged-stats] on an initialized grid: [flagged] is the number
    of flagged cells, [correctFlags] the number of flagged cells that hold a
    mine, [totalMines] the number of cells that hold a mine; [correctFlags]
    exceeds neither of the other two, and none exceeds the number of cells
    of the world. *)
Theorem flagged_stats_reports sv :
  let g := completeGrid sv in
  wfGrid g ->
  exists st,
    flagged_stats sv = Ok st
    /\ FlaggedStats.flagged st = countCells (flaggedAt g)
    /\ FlaggedStats.correctFlags st
       = countCells (fun q => flaggedAt g q && hasMineAt g q)
    /\ FlaggedStats.totalMines st = countCells (hasMineAt g)
    /\ 0 <= FlaggedStats.correctFlags st <= FlaggedStats.flagged st
    /\ FlaggedStats.correctFlags st <= FlaggedStats.totalMines st
    /\ FlaggedStats.flagged st <= Z.max 0 GRID_WIDTH * Z.max 0 GRID_HEIGHT
    /\ FlaggedStats.totalMines st <= Z.max 0 GRID_WIDTH * Z.max 0 GRID_HEIGHT.
Proof.
  intros g Hwf. eexists. split; [by apply flagged_stats_spec|].
  cbn [FlaggedStats.flagged FlaggedStats.correctFlags FlaggedStats.totalMines].
  fold g. rewrite <- world_size.
  split; [done|]. split; [done|]. split; [done|].
  pose proof (countCells_bounds (fun q => flaggedAt g q && hasMineAt g q)).
  pose proof (countCells_bounds (flaggedAt g)).
  pose proof (totalMines_bounds g).
  pose proof (countCells_le (fun q => flaggedAt g q && hasMineAt g q) (flaggedAt g))
    as Hle1.
  pose proof (countCells_le (fun q => flaggedAt g q && hasMineAt g q) (hasMineAt g))
    as Hle2.
  rewrite totalMines_countCells in *.
  split; [split; [lia|]|split; [|lia]].
  - apply Hle1. by intros q [? _]%andb_prop.
  - apply Hle2. by intros q [_ ?]%andb_prop.
Qed.

Lemma flagged_stats_same sv sv' :
  wfGrid (completeGrid sv) -> wfGrid (completeGrid sv') ->
  (forall q, flaggedAt (completeGrid sv') q = flaggedAt (completeGrid sv) q) ->
  (forall q, hasMineAt (completeGrid sv') q = hasMineAt (completeGrid sv) q) ->
  flagged_stats sv' = flagged_stats sv.
Proof.
  intros Hwf Hwf' Hf Hm. rewrite !flagged_stats_spec by done.
  rewrite !totalMines_countCells. f_equal. f_equal.
  - apply countCells_ext. by intros q _.
  - apply countCells_ext. intros q _. by rewrite Hf, Hm.
  - apply countCells_ext. by intros q _.
Qed.

(** X18. Flags show in [/flagged-stats]: a [flag_cell] request that
    toggles a cell moves [flagged] by one (up when the flag is set, down
    when it is removed), moves [correctFlags] the same way exactly when the
    cell holds a mine, and keeps [totalMines]; a [flag_cell] request that
    does nothing, a [revealCell] and a [handleChordClick] leave the answer
    of the endpoint as it was. *)
Theorem flags_show_in_flagged_stats sv :
  let g := completeGrid sv in
  wfGrid g ->
  (forall cx cy x y u sv',
     flag_cell cx cy x y sv = Ok (Some u, sv') ->
     let p := (cx * CHUNK_SIZE + x, cy * CHUNK_SIZE + y) in
     let step := if flaggedAt g p then -1 else 1 in
     exists st st',
       flagged_stats sv = Ok st /\ flagged_stats sv' = Ok st'
       /\ FlaggedStats.flagged st' = FlaggedStats.flagged st + step
       /\ FlaggedStats.correctFlags st'
          = FlaggedStats.correctFlags st + (if hasMineAt g p then step else 0)
       /\ FlaggedStats.totalMines st' = FlaggedStats.totalMines st)
  /\ (forall cx cy x y sv',
        flag_cell cx cy x y sv = Ok (None, sv') ->
        flagged_stats sv' = flagged_stats sv)
  /\ (forall cx cy x y out sv',
        revealCell cx cy x y sv = Ok (out, sv') ->
        flagged_stats sv' = flagged_stats sv)
  /\ (forall cx cy x y out sv',
        handleChordClick cx cy x y sv = Ok (out, sv') ->
        flagged_stats sv' = flagged_stats sv).
Proof.
  intros g Hwf. split; [|split; [|split]].
  - intros cx cy x y u sv' Hrun p step.
    destruct (flag_cell_spec cx cy x y sv Hwf) as (r' & sv'' & Hrun' & Hyes & Hno).
    rewrite Hrun in Hrun'. injection Hrun' as <- <-. fold p g in Hyes, Hno.
    destruct (decide (inWorld p /\ revealedAt g p = false)) as [[Hw Hr]|Hcan].
    2:{ by destruct (Hno Hcan) as [? _]. }
    destruct (Hyes (conj Hw Hr)) as [_ ->].
    set (g' := updCell Cell.toggleFlagged p.1 p.2 g).
    assert (wfGrid g') as Hwf' by (by apply wfGrid_updCell).
    destruct (toggle_layoutKept g p Hwf Hw) as (_ & Hmines & _). fold g' in Hmines.
    destruct (look_wf g p Hwf Hw) as [c Hc].
    assert (forall q, flaggedAt g' q
                      = if decide (p = q) then negb (flaggedAt g p) else flaggedAt g q)
      as Hflag.
    { intros q. unfold flaggedAt, g'. rewrite look_toggle by done.
      destruct (decide (p = q)) as [<-|]; [|done]. by rewrite Hc. }
    exists (FlaggedStats.mk (countCells (flaggedAt g))
              (countCells (fun q => flaggedAt g q && hasMineAt g q))
              (totalMines g)),
           (FlaggedStats.mk (countCells (flaggedAt g'))
              (countCells (fun q => flaggedAt g' q && hasMineAt g' q))
              (totalMines g')).
    split; [by apply flagged_stats_spec|]. split; [by apply flagged_stats_spec|].
    cbn [FlaggedStats.flagged FlaggedStats.correctFlags FlaggedStats.totalMines].
    split; [|split].
    + rewrite (countCells_at (flaggedAt g) (flaggedAt g') p Hw).
      * rewrite Hflag, decide_True by done. unfold step.
        destruct (flaggedAt g p); cbn [negb]; lia.
      * intros q Hq. rewrite Hflag. by rewrite decide_False.
    + rewrite (countCells_at (fun q => flaggedAt g q && hasMineAt g q)
                 (fun q => flaggedAt g' q && hasMineAt g' q) p Hw).
      * rewrite Hflag, Hmines, decide_True by done. unfold step.
        destruct (flaggedAt g p), (hasMineAt g p); cbn [negb andb]; lia.
      * intros q Hq. rewrite Hflag, Hmines. by rewrite decide_False.
    + unfold totalMines. by apply minesAmong_ext.
  - intros cx cy x y sv' Hrun.
    destruct (flag_cell_spec cx cy x y sv Hwf) as (r' & sv'' & Hrun' & Hyes & Hno).
    rewrite Hrun in Hrun'. injection Hrun' as <- <-.
    destruct (decide (inWorld (cx * CHUNK_SIZE + x, cy * CHUNK_SIZE + y)
                      /\ revealedAt g (cx * CHUNK_SIZE + x, cy * CHUNK_SIZE + y) = false))
      as [Hcan|Hcan].
    + by destruct (Hyes Hcan) as [? _].
    + by destruct (Hno Hcan) as [_ ->].
  - intros cx cy x y out sv' Hrun.
    destruct (revealCell_spec cx cy x y sv Hwf) as (out' & sv'' & Hrun' & Hpost & _).
    rewrite Hrun in Hrun'. injection Hrun' as <- <-.
    pose proof (RevealPost_Changed _ _ _ _ Hpost) as Hch.
    apply flagged_stats_same; [done|by apply (ch_wf _ _ _ Hch)|
      apply (ch_flagged _ _ _ Hch)|apply (ch_mines _ _ _ Hch)].
  - intros cx cy x y out sv' Hrun.
    destruct (handleChordClick_spec cx cy x y sv Hwf) as (out' & sv'' & Hrun' & Hyes & Hno).
    rewrite Hrun in Hrun'. injection Hrun' as <- <-.
    destruct (classic_chordFires g (cx * CHUNK_SIZE + x, cy * CHUNK_SIZE + y)) as [Hf|Hf].
    + pose proof (ChordInv_Changed _ _ _ _ (Hyes Hf)) as Hch.
      apply flagged_stats_same; [done|by apply (ch_wf _ _ _ Hch)|
        apply (ch_flagged _ _ _ Hch)|apply (ch_mines _ _ _ Hch)].
    + by destruct (Hno Hf) as [_ ->].
Qed.

(** ** Initialization and reset *)

(** The fields the mine placement loop does not write. *)
Lemma placeMinesLoop_keeps rnd fuel : forall i placed g g',
  placeMinesLoop fuel rnd i placed g = Ok g' ->
  forall q c', look g' q = Some c' ->
  exists c, look g q = Some c
    /\ Cell.revealed c' = Cell.revealed c /\ Cell.flagged c' = Cell.flagged c
    /\ Cell.x c' = Cell.x c /\ Cell.y c' = Cell.y c.
Proof.
  induction fuel as [|fuel IH]; intros i placed g g' Hrun q c' Hq.
  - change (placeMinesLoop 0 rnd i placed g)
      with (if decide (placed < mineCount) then Throw Exhausted else Ok g) in Hrun.
    destruct (decide (placed < mineCount)); [done|].
    injection Hrun as <-. by exists c'.
  - change (placeMinesLoop (S fuel) rnd i placed g)
      with (if decide (placed < mineCount) then
              let x := Qfloor (rnd i * inject_Z GRID_WIDTH) in
              let y := Qfloor (rnd (S i) * inject_Z GRID_HEIGHT) in
              c ← getCell g x y;
              if negb (Cell.hasMine c)
              then placeMinesLoop fuel rnd (S (S i)) (placed + 1)
                                  (updCell Cell.setHasMine x y g)
              else placeMinesLoop fuel rnd (S (S i)) placed g
            else Ok g) in Hrun.
    destruct (decide (placed < mineCount)) as [Hlt|Hge].
    2:{ injection Hrun as <-. by exists c'. }
    set (x := Qfloor (rnd i * inject_Z GRID_WIDTH)) in *.
    set (y := Qfloor (rnd (S i) * inject_Z GRID_HEIGHT)) in *.
    cbv zeta in Hrun. clearbody x y.
    destruct (getCell g x y) as [c|e] eqn:Hc; [|done].
    cbn [mbind Result_bind] in Hrun.
    destruct (Cell.hasMine c) eqn:Hm; cbn [negb] in Hrun.
    + by apply (IH _ _ _ _ Hrun).
    + destruct (IH _ _ _ _ Hrun q c' Hq) as (c1 & Hc1 & Hr & Hf & Hx & Hy).
      apply getCell_Ok in Hc as (Hx0 & Hy0 & _).
      pose proof (look_updCell Cell.setHasMine g (x, y) q Hx0 Hy0) as Hupd.
      cbn [fst snd] in Hupd. rewrite Hupd in Hc1.
      destruct (decide ((x, y) = q)) as [<-|]; [|by exists c1].
      destruct (look g (x, y)) as [c0|]; [|done]. injection Hc1 as <-.
      by exists c0.
Qed.

(** Every cell of a world that [initializeCompleteGrid] returns is neither
    revealed nor flagged, and carries its own coordinates. *)
Lemma initializeCompleteGrid_cells fuel rnd g :
  initializeCompleteGrid fuel rnd = Ok g ->
  forall q c, look g q = Some c ->
    Cell.revealed c = false /\ Cell.flagged c = false
    /\ Cell.x c = q.1 /\ Cell.y c = q.2.
Proof.
  unfold initializeCompleteGrid, placeMinesInCompleteGrid. intros Hrun q c Hq.
  destruct (placeMinesLoop fuel rnd 0 0 allocateGrid) as [g1|e] eqn:Hplace; [|done].
  cbn [mbind Result_bind] in Hrun.
  destruct (placeMinesLoop_spec rnd fuel _ _ _ _ wfGrid_allocateGrid Hplace)
    as [Hwf1 _].
  destruct (calculateAdjacentCounts_spec g1 Hwf1) as (g' & Hcalc & Hwf' & Hcs).
  rewrite Hcalc in Hrun. injection Hrun as <-.
  assert (inWorld q) as Hw.
  { apply look_Some, getCell_wf_inv in Hq; done. }
  destruct (look_wf g1 q Hwf1 Hw) as [c1 Hc1].
  destruct (Hcs q c1 Hc1) as (n & Hq' & _). rewrite Hq in Hq'. injection Hq' as ->.
  destruct (placeMinesLoop_keeps rnd fuel _ _ _ _ Hplace q c1 Hc1)
    as (c0 & Hc0 & Hr & Hf & Hx & Hy).
  apply look_allocateGrid in Hc0 as ->. cbn in *. done.
Qed.

Lemma initializeCompleteGrid_hidden fuel rnd g :
  initializeCompleteGrid fuel rnd = Ok g -> forall q, inWorld q -> hidden g q.
Proof.
  intros Hrun q Hw.
  destruct (initializeCompleteGrid_spec fuel rnd g Hrun) as (Hwf & _).
  destruct (look_wf g q Hwf Hw) as [c Hc].
  destruct (initializeCompleteGrid_cells fuel rnd g Hrun q c Hc) as (Hr & Hf & _).
  split; [done|]. by exists c.
Qed.

Lemma filter_none {A} (P : A -> Prop) `{forall a, Decision (P a)} (l : list A) :
  (forall a, a ∈ l -> ~ P a) -> filter P l = [].
Proof.
  induction l as [|a l IH]; intros HP; [done|]. rewrite filter_cons.
  rewrite decide_False by (apply HP; by left).
  apply IH. intros b Hb. apply HP. by right.
Qed.

Lemma countCells_none (P : Z * Z -> bool) :
  (forall q, inWorld q -> P q = false) -> countCells P = 0.
Proof.
  intros HP. unfold countCells. rewrite filter_none; [done|].
  intros q Hq%elem_of_worldList. rewrite (HP q Hq). done.
Qed.

(** X19. [/reset-chunks] gives a fresh world and keeps the counters: when
    the reset returns, the chunk map is empty ([/chunk-count] is 0), the
    grid is a world of [GRID_HEIGHT] rows of [GRID_WIDTH] cells in which
    every cell is unrevealed and unflagged, the adjacency invariant holds,
    and the number of mines is [Math.round(width * height * percentage)];
    the two statistics endpoints answer accordingly; [bombsExploded] and
    [uniqueUsersEver] are NOT reset. *)
Theorem reset_gives_a_fresh_world fuel rnd sv sv' :
  reset_chunks fuel rnd sv = Ok sv' ->
  let g' := completeGrid sv' in
  wfGrid g' /\ adjacencyInvariant g'
  /\ (forall q, inWorld q -> hidden g' q)
  /\ totalMines g' = Z.max 0 mineCount
  /\ gridChunks sv' = ∅ /\ chunk_count sv' = 0
  /\ bombsExploded sv' = bombsExploded sv
  /\ uniqueUsersEver sv' = uniqueUsersEver sv
  /\ (exists st, revealed_stats sv' = Ok st
        /\ RevealedStats.revealed st = 0
        /\ RevealedStats.total st = Z.max 0 GRID_WIDTH * Z.max 0 GRID_HEIGHT
        /\ RevealedStats.percent st = Number.ofZ 0
        /\ RevealedStats.bombsExploded st = bombsExploded sv)
  /\ flagged_stats sv' = Ok (FlaggedStats.mk 0 0 (Z.max 0 mineCount)).
Proof.
  intros Hrun g'. unfold reset_chunks in Hrun.
  destruct (initializeCompleteGrid fuel rnd) as [g|e] eqn:Hinit; [|done].
  cbn [mbind Result_bind] in Hrun. injection Hrun as <-.
  unfold g'. cbn [completeGrid gridChunks bombsExploded uniqueUsersEver].
  destruct (initializeCompleteGrid_spec fuel rnd g Hinit) as (Hwf & Hadj & Hmines).
  pose proof (initializeCompleteGrid_hidden fuel rnd g Hinit) as Hhid.
  assert (forall q, inWorld q -> revealedAt g q = false /\ flaggedAt g q = false)
    as Hcells.
  { intros q Hq. by destruct (proj1 (hidden_iff g q Hwf) (Hhid q Hq)) as (_ & ? & ?). }
  assert (countCells (revealedAt g) = 0) as Hrev.
  { apply countCells_none. intros q Hq. by apply Hcells. }
  repeat (split; [done|]).
  split.
  - eexists. split; [by apply revealed_stats_spec|].
    cbn [RevealedStats.total RevealedStats.revealed RevealedStats.percent
         RevealedStats.bombsExploded completeGrid bombsExploded].
    rewrite Hrev. split; [done|]. split; [apply world_size|]. split; [|done].
    destruct (Z.ltb_spec 0 (Z.of_nat (length worldList))); [|done].
    by apply percent_of_none.
  - rewrite flagged_stats_spec by done. cbn [completeGrid].
    rewrite Hmines. f_equal. f_equal.
    + apply countCells_none. intros q Hq. by apply Hcells.
    + apply countCells_none. intros q Hq.
      destruct (Hcells q Hq) as [_ ->]. done.
Qed.

(** ** Mine placement and the random numbers *)




(** X21. Counts are digits: in a world that satisfies the adjacency
    invariant (every initialized world does) the [adjacentMines] of every
    cell lies between 0 and 8, and a cell with count 0 has no mine on any
    neighbour inside the world. *)
Theorem adjacentMines_is_a_digit g p c :
  adjacencyInvariant g -> look g p = Some c ->
  0 <= Cell.adjacentMines c <= 8
  /\ (Cell.adjacentMines c = 0 ->
      forall q, nbr p q -> inWorld q -> hasMineAt g q = false).
Proof.
  intros Hadj Hc. rewrite (Hadj p c Hc). split.
  - unfold mineNeighbors, minesAmong, neighborsOf, neighborsIn.
    pose proof (length_filter (fun q => hasMineAt g q = true)
                  (filter (fun q => inBounds q.1 q.2 = true)
                     (shift p <$> neighborOffsets))) as H1.
    pose proof (length_filter (fun q => inBounds q.1 q.2 = true)
                  (shift p <$> neighborOffsets)) as H2.
    rewrite length_fmap in H2.
    change (length neighborOffsets) with 8%nat in H2. lia.
  - intros Hzero q Hn Hw. by apply (mineNeighbors_zero g p q).
Qed.

(** ** [/reveal-all] *)

Lemma forEachTry_Ok {A St} (f : St -> A -> Result St) (l : list A) : forall s s',
  forEach f l s = Ok s' -> forEachTry f l s = (s', None).
Proof.
  induction l as [|a l IH]; intros s s' Hrun; cbn in *.
  - by injection Hrun as ->.
  - destruct (f s a) as [s1|e]; [|done]. by apply IH.
Qed.

Lemma isHidden_spec g q : wfGrid g -> inWorld q -> isHidden g q = true <-> hidden g q.
Proof.
  intros Hwf Hw. rewrite hidden_iff by done. unfold isHidden.
  rewrite andb_true_iff, !negb_true_iff. tauto.
Qed.

Lemma revealAllLoop_spec g : wfGrid g -> forall l pre n,
  NoDup (pre ++ l) -> (forall q, q ∈ pre ++ l -> inWorld q) ->
  forEach revealAllStep l
    (revealAll (filter (fun q => isHidden g q = true) pre) g, n)
  = Ok (revealAll (filter (fun q => isHidden g q = true) (pre ++ l)) g,
        n + Z.of_nat (length (filter (fun q => isHidden g q = true) l))).
Proof.
  intros Hwf. induction l as [|a l IH]; intros pre n Hnd Hin.
  - cbn. rewrite app_nil_r. f_equal. f_equal. lia.
  - assert (a ∉ pre) as Hfresh.
    { apply NoDup_app in Hnd as (_ & Hdisj & _). intros Ha.
      apply (Hdisj a Ha). by left. }
    assert (inWorld a) as Hw by (apply Hin, elem_of_app; right; by left).
    set (hid := fun q => isHidden g q = true) in *.
    set (g1 := revealAll (filter hid pre) g).
    assert (look g1 a = look g a) as Hsame.
    { unfold g1. rewrite look_revealAll.
      - rewrite decide_False; [by destruct (look g a)|].
        by intros [_ ?]%list_elem_of_filter.
      - intros p [_ Hp]%list_elem_of_filter. apply inWorld_nonneg.
        apply Hin, elem_of_app. by left. }
    destruct (look_wf g a Hwf Hw) as [c Hc].
    assert (isHidden g a = negb (Cell.revealed c) && negb (Cell.flagged c)) as Hhid.
    { unfold isHidden, revealedAt, flaggedAt. by rewrite Hc. }
    assert (revealAllStep (g1, n) a
            = Ok (revealAll (filter hid (pre ++ [a])) g,
                  n + (if isHidden g a then 1 else 0))) as Hstep.
    { unfold revealAllStep. cbn [fst snd].
      rewrite Hc in Hsame. apply look_Some in Hsame. rewrite Hsame.
      cbn [mbind Result_bind]. rewrite <- Hhid.
      rewrite filter_app, filter_cons, filter_nil.
      destruct (decide (hid a)) as [Ha|Ha]; unfold hid in Ha.
      - rewrite Ha. by rewrite revealAll_snoc.
      - apply not_true_is_false in Ha. rewrite Ha.
        rewrite app_nil_r, Z.add_0_r. done. }
    cbn [forEach]. fold g1. rewrite Hstep. cbn [mbind Result_bind].
    rewrite (IH (pre ++ [a])); rewrite <- ?app_assoc; [|done|done].
    cbn [app]. f_equal. f_equal.
    rewrite (length_filter_cons hid a l (isHidden g a)) by done. lia.
Qed.

Lemma broadcastLoop_spec g : wfGrid g -> forall l out,
  (forall q, q ∈ l -> inWorld q) ->
  forEach (broadcastStep g) l out
  = Ok (out ++ ((fun q => updateAt q.1 q.2)
                  <$> filter (fun q => revealedAt g q = true) l)).
Proof.
  intros Hwf. induction l as [|a l IH]; intros out Hin.
  - cbn. by rewrite app_nil_r.
  - destruct (look_wf g a Hwf) as [c Hc]; [apply Hin; by left|].
    assert (revealedAt g a = Cell.revealed c) as Hr.
    { unfold revealedAt. by rewrite Hc. }
    cbn [forEach].
    assert (broadcastStep g out a
            = Ok (if revealedAt g a then out ++ [updateAt a.1 a.2] else out)) as ->.
    { unfold broadcastStep. apply look_Some in Hc. rewrite Hc, Hr.
      cbn [mbind Result_bind]. by destruct (Cell.revealed c). }
    cbn [mbind Result_bind]. rewrite IH by (intros q Hq; apply Hin; by right).
    rewrite filter_cons.
    destruct (decide (revealedAt g a = true)) as [Ha|Ha].
    + rewrite Ha. rewrite fmap_cons, <- app_assoc. done.
    + apply not_true_is_false in Ha. by rewrite Ha.
Qed.

Lemma cellsOf_updateAt (l : list (Z * Z)) :
  cellsOf ((fun q => updateAt q.1 q.2) <$> l) = l.
Proof.
  unfold cellsOf. rewrite <- list_fmap_compose.
  rewrite <- (list_fmap_id l) at 2. apply list_fmap_ext.
  intros i [x y] _. done.
Qed.

Lemma reveal_all_run sv :
  wfGrid (completeGrid sv) ->
  let g := completeGrid sv in
  let g' := revealAll (cellsWhere (isHidden g)) g in
  reveal_all false sv
  = (RevealedCells (countCells (isHidden g)),
     (fun q => updateAt q.1 q.2) <$> cellsWhere (revealedAt g'),
     withGrid g' sv).
Proof.
  intros Hwf g g'. unfold reveal_all. fold worldList. fold g.
  pose proof (revealAllLoop_spec g Hwf worldList [] 0) as Hloop.
  rewrite filter_nil, app_nil_l in Hloop.
  change (revealAll [] g) with g in Hloop.
  rewrite (forEachTry_Ok _ _ _ _ (Hloop NoDup_worldList
             (fun q Hq => proj1 (elem_of_worldList q) Hq))).
  cbn [fst snd].
  assert (wfGrid g') as Hwf' by (by apply wfGrid_revealAll).
  pose proof (broadcastLoop_spec g' Hwf' worldList []
                (fun q Hq => proj1 (elem_of_worldList q) Hq)) as Hcast.
  rewrite app_nil_l in Hcast. fold (cellsWhere (isHidden g)). fold g'.
  rewrite (forEachTry_Ok _ _ _ _ Hcast). by rewrite Z.add_0_l.
Qed.

(** X22. [/reveal-all] outside production, on an initialized grid: every
    cell that was neither revealed nor flagged is revealed, and
    [revealedCount] is their number; flagged cells stay as they are, so
    afterwards every cell of the world is revealed or flagged; no mine, no
    count and no flag changes; [bombsExploded] is NOT increased although
    mines are revealed; a [cell_update] is emitted for every revealed cell
    of the world, row by row; and a second request reveals nothing
    ([revealedCount] is 0) and emits the same messages. In production the
    answer is the 403 and nothing changes. *)
Theorem reveal_all_uncovers_the_world sv :
  let g := completeGrid sv in
  wfGrid g ->
  reveal_all true sv = (Forbidden, [], sv)
  /\ exists emitted sv',
       let g' := completeGrid sv' in
       reveal_all false sv = (RevealedCells (countCells (isHidden g)), emitted, sv')
       /\ g' = revealAll (cellsWhere (isHidden g)) g
       /\ (forall q, inWorld q ->
             revealedAt g' q = revealedAt g q || negb (flaggedAt g q))
       /\ (forall q, inWorld q -> revealedAt g' q = true \/ flaggedAt g' q = true)
       /\ (forall q, flaggedAt g' q = flaggedAt g q)
       /\ (forall q, hasMineAt g' q = hasMineAt g q)
       /\ (forall q, Cell.adjacentMines <$> look g' q = Cell.adjacentMines <$> look g q)
       /\ bombsExploded sv' = bombsExploded sv
       /\ gridChunks sv' = gridChunks sv
       /\ uniqueUsersEver sv' = uniqueUsersEver sv
       /\ cellsOf emitted = cellsWhere (revealedAt g')
       /\ reveal_all false sv' = (RevealedCells 0, emitted, sv').
Proof.
  intros g Hwf. split; [done|].
  set (H := cellsWhere (isHidden g)).
  set (g' := revealAll H g).
  assert (wfGrid g') as Hwf' by (by apply wfGrid_revealAll).
  assert (forall q, q ∈ H <-> hidden g q) as HH.
  { intros q. unfold H, cellsWhere. rewrite list_elem_of_filter, elem_of_worldList.
    split.
    - intros [Hq Hw]. by apply isHidden_spec.
    - intros Hq. split; [apply isHidden_spec; [done|apply Hq|done]|apply Hq]. }
  assert (Changed g ((fun q => updateAt q.1 q.2) <$> H) g') as Hch.
  { unfold g'. rewrite <- (cellsOf_updateAt H) at 2. apply Changed_revealAll.
    - rewrite cellsOf_updateAt. apply NoDup_filter, NoDup_worldList.
    - intros q Hq. rewrite cellsOf_updateAt in Hq. by apply HH. }
  assert (forall q, inWorld q ->
            revealedAt g' q = revealedAt g q || negb (flaggedAt g q)) as Hrev.
  { intros q Hw. destruct (revealedAt g q) eqn:Hr.
    - by apply (ch_mono _ _ _ Hch).
    - cbn [orb]. destruct (flaggedAt g q) eqn:Hf; cbn [negb].
      + destruct (revealedAt g' q) eqn:Hr'; [|done].
        assert (q ∈ cellsOf ((fun q => updateAt q.1 q.2) <$> H)) as Hin
          by (by apply (ch_exact _ _ _ Hch)).
        rewrite cellsOf_updateAt in Hin. apply HH, hidden_iff in Hin; [|done].
        destruct Hin as (_ & _ & ?). congruence.
      + apply (ch_listed _ _ _ Hch). rewrite cellsOf_updateAt.
        apply HH, hidden_iff; done. }
  assert (forall q, inWorld q -> isHidden g' q = false) as Hnone.
  { intros q Hw. unfold isHidden. rewrite (Hrev q Hw), (ch_flagged _ _ _ Hch).
    destruct (revealedAt g q), (flaggedAt g q); done. }
  exists ((fun q => updateAt q.1 q.2) <$> cellsWhere (revealedAt g')), (withGrid g' sv).
  cbn zeta. cbn [completeGrid withGrid bombsExploded gridChunks uniqueUsersEver].
  split; [by apply reveal_all_run|]. split; [done|]. split; [done|].
  split.
  { intros q Hw. rewrite (Hrev q Hw), (ch_flagged _ _ _ Hch).
    destruct (revealedAt g q), (flaggedAt g q); auto. }
  split; [apply (ch_flagged _ _ _ Hch)|]. split; [apply (ch_mines _ _ _ Hch)|].
  split; [apply (ch_counts _ _ _ Hch)|]. split; [done|]. split; [done|].
  split; [done|]. split; [apply cellsOf_updateAt|].
  rewrite (reveal_all_run (withGrid g' sv)) by done.
  cbn [completeGrid withGrid].
  assert (cellsWhere (isHidden g') = []) as Hempty.
  { unfold cellsWhere. apply filter_none.
    intros q Hq%elem_of_worldList. by rewrite (Hnone q Hq). }
  rewrite Hempty. change (revealAll [] g') with g'.
  rewrite (countCells_none (isHidden g')) by done.
  by destruct sv.
Qed.

(** ** The order of two reveals *)

Lemma grid_ext g g' :
  wfGrid g -> wfGrid g' -> (forall q, look g' q = look g q) -> g' = g.
Proof.
  intros [Hlen Hrows] [Hlen' Hrows'] Hlook. apply list_eq. intros i.
  destruct (g !! i) as [r|] eqn:Hr; destruct (g' !! i) as [r'|] eqn:Hr'.
  - f_equal. apply list_eq. intros j.
    pose proof (Hlook (Z.of_nat j, Z.of_nat i)) as Hq.
    unfold look, getCell, index in Hq. cbn [fst snd] in Hq.
    rewrite !decide_True, !Nat2Z.id, Hr, Hr' in Hq by lia.
    destruct (decide (0 <= Z.of_nat j)); [|lia].
    destruct (r !! j), (r' !! j); cbn in Hq; congruence.
  - apply lookup_lt_Some in Hr. apply lookup_ge_None in Hr'. lia.
  - apply lookup_lt_Some in Hr'. apply lookup_ge_None in Hr. lia.
  - done.
Qed.

Lemma revealAll_same_cells l l' g :
  wfGrid g -> (forall p, p ∈ l -> inWorld p) -> (forall q, q ∈ l <-> q ∈ l') ->
  revealAll l' g = revealAll l g.
Proof.
  intros Hwf Hl Hsame. apply grid_ext; [by apply wfGrid_revealAll..|].
  intros q. rewrite !look_revealAll.
  - destruct (decide (q ∈ l')) as [Hq|Hq]; [rewrite decide_True by (by apply Hsame)|
      rewrite decide_False by (by rewrite Hsame)]; done.
  - intros p Hp. by apply inWorld_nonneg, Hl.
  - intros p Hp%Hsame. by apply inWorld_nonneg, Hl.
Qed.

Lemma minesAmong_Permutation g l l' : l ≡ₚ l' -> minesAmong g l = minesAmong g l'.
Proof. intros Hp. unfold minesAmong. by rewrite Hp. Qed.

(** What two reveals in a row reveal. *)
Lemma two_reveals g a b outA gA outB gAB :
  RevealPost g a outA gA -> RevealPost gA b outB gAB ->
  NoDup (cellsOf (outA ++ outB))
  /\ (forall q, q ∈ cellsOf (outA ++ outB) <-> uncovers g a q \/ uncovers g b q)
  /\ gAB = revealAll (cellsOf (outA ++ outB)) g.
Proof.
  intros HA HB.
  assert (forall p, p ∈ cellsOf outA -> inWorld p) as HinA.
  { intros p Hp%(rp_cells _ _ _ _ HA). apply uncovers_hidden in Hp. apply Hp. }
  pose proof (rp_grid _ _ _ _ HA) as HgA.
  assert (forall q, q ∈ cellsOf outB <-> uncovers g b q /\ q ∉ cellsOf outA) as HcB.
  { intros q. rewrite (rp_cells _ _ _ _ HB). rewrite HgA. split.
    - intros Hq. split; [by apply (uncovers_after_sub g (cellsOf outA) HinA)|].
      apply uncovers_hidden in Hq. by apply (hidden_after g _ HinA) in Hq as [_ ?].
    - intros [Hq Hnot].
      destruct (uncovers_after_sup g (cellsOf outA) HinA b q) as [?|?]; try done.
      intros p q' Hp%(rp_cells _ _ _ _ HA) Hstep.
      apply (rp_cells _ _ _ _ HA). by eapply uncovers_step. }
  rewrite cellsOf_app. split; [|split].
  - apply NoDup_app. split; [apply (rp_nodup _ _ _ _ HA)|].
    split; [|apply (rp_nodup _ _ _ _ HB)].
    intros q Hq HqB. by apply HcB in HqB as [_ ?].
  - intros q. rewrite elem_of_app, HcB, (rp_cells _ _ _ _ HA).
    destruct (decide (q ∈ cellsOf outA)) as [Hq|Hq].
    + apply (rp_cells _ _ _ _ HA) in Hq. tauto.
    + rewrite (rp_cells _ _ _ _ HA) in Hq. tauto.
  - rewrite revealAll_app, <- HgA. apply (rp_grid _ _ _ _ HB).
Qed.

(** With an address the validators accept, every record [revealCell]
    returns is the record [flood] computes for its cell. *)
Lemma revealCell_canonical cx cy x y sv out sv' :
  wfGrid (completeGrid sv) ->
  isValidChunkCoords cx cy = true -> isValidCellCoords x y = true ->
  revealCell cx cy x y sv = Ok (out, sv') ->
  out = (fun q => updateAt q.1 q.2) <$> cellsOf out.
Proof.
  intros Hwf Hchunk Hcell Hrun.
  assert (forall l : list Update.t,
            (forall u, u ∈ l -> u = updateAt (Update.cell u).1 (Update.cell u).2) ->
            l = (fun q => updateAt q.1 q.2) <$> cellsOf l) as Hall.
  { induction l as [|u l IH]; intros Hl; [done|].
    unfold cellsOf in *. cbn [fmap list_fmap]. f_equal.
    - apply Hl. by left.
    - apply IH. intros v Hv. apply Hl. by right. }
  set (q := (cx * CHUNK_SIZE + x, cy * CHUNK_SIZE + y)).
  unfold revealCell in Hrun. fold q in Hrun.
  change (cx * CHUNK_SIZE + x) with q.1 in Hrun.
  change (cy * CHUNK_SIZE + y) with q.2 in Hrun.
  rewrite outOfBounds_inBounds in Hrun.
  destruct (inBounds q.1 q.2) eqn:Hb; cbn [negb] in Hrun;
    [|by injection Hrun as <- <-].
  destruct (getCell_wf _ _ _ Hwf Hb) as [c Hc]. rewrite Hc in Hrun.
  cbn [mbind Result_bind] in Hrun.
  destruct (Cell.revealed c || Cell.flagged c) eqn:Hrf;
    [by injection Hrun as <- <-|].
  apply orb_false_elim in Hrf as [Hr Hf].
  assert (hidden (completeGrid sv) q) as Hhid.
  { split; [done|]. exists c. split; [by apply look_Some|done]. }
  destruct ((Cell.adjacentMines c =? 0) && negb (Cell.hasMine c)).
  - destruct (flood_top _ q Hwf Hhid) as (st' & Hflood & _ & _ & _ & Hrec).
    rewrite Hflood in Hrun. cbn [mbind Result_bind] in Hrun.
    injection Hrun as <- <-. by apply Hall.
  - injection Hrun as <- <-. cbn [cellsOf fmap list_fmap Update.cell].
    unfold q. cbn [fst snd]. by rewrite updateAt_address.
Qed.

(** X23. Two reveals commute: whichever of two [reveal_cell] requests is
    served first, the server state after both is the same (grid, counters
    and chunk map), and the two runs reveal the same cells: their result
    lists name the same positions, up to order. When both requests carry
    addresses that the validators of [constants.js] accept, the returned
    records themselves are the same up to order. (A record of the
    single-cell branch repeats the address as it was sent, so a request
    that names a cell by another address gets another record for it.) *)
Theorem reveals_commute cxa cya xa ya cxb cyb xb yb sv
    outA svA outAB svAB outB svB outBA svBA :
  wfGrid (completeGrid sv) ->
  revealCell cxa cya xa ya sv = Ok (outA, svA) ->
  revealCell cxb cyb xb yb svA = Ok (outAB, svAB) ->
  revealCell cxb cyb xb yb sv = Ok (outB, svB) ->
  revealCell cxa cya xa ya svB = Ok (outBA, svBA) ->
  svAB = svBA
  /\ cellsOf (outA ++ outAB) ≡ₚ cellsOf (outB ++ outBA)
  /\ (isValidChunkCoords cxa cya = true -> isValidCellCoords xa ya = true ->
      isValidChunkCoords cxb cyb = true -> isValidCellCoords xb yb = true ->
      outA ++ outAB ≡ₚ outB ++ outBA).
Proof.
  intros Hwf HrA HrAB HrB HrBA.
  set (g := completeGrid sv).
  destruct (revealCell_spec cxa cya xa ya sv Hwf)
    as (? & ? & Hrun & HpA & HcA & HuA & HbA).
  rewrite HrA in Hrun. injection Hrun as <- <-.
  destruct (revealCell_spec cxb cyb xb yb sv Hwf)
    as (? & ? & Hrun & HpB & HcB & HuB & HbB).
  rewrite HrB in Hrun. injection Hrun as <- <-.
  pose proof (ch_wf _ _ _ (RevealPost_Changed _ _ _ _ HpA) Hwf) as HwfA.
  pose proof (ch_wf _ _ _ (RevealPost_Changed _ _ _ _ HpB) Hwf) as HwfB.
  destruct (revealCell_spec cxb cyb xb yb svA HwfA)
    as (? & ? & Hrun & HpAB & HcAB & HuAB & HbAB).
  rewrite HrAB in Hrun. injection Hrun as <- <-.
  destruct (revealCell_spec cxa cya xa ya svB HwfB)
    as (? & ? & Hrun & HpBA & HcBA & HuBA & HbBA).
  rewrite HrBA in Hrun. injection Hrun as <- <-.
  fold g in HpA, HpB, HbA, HbB.
  destruct (two_reveals _ _ _ _ _ _ _ HpA HpAB) as (Hnd1 & Hc1 & Hg1).
  destruct (two_reveals _ _ _ _ _ _ _ HpB HpBA) as (Hnd2 & Hc2 & Hg2).
  assert (cellsOf (outA ++ outAB) ≡ₚ cellsOf (outB ++ outBA)) as Hperm.
  { apply NoDup_Permutation; [done..|]. intros q. rewrite Hc1, Hc2. tauto. }
  split; [|split; [done|]].
  2:{ intros Hca Hla Hcb Hlb.
      rewrite (revealCell_canonical _ _ _ _ _ _ _ Hwf Hca Hla HrA).
      rewrite (revealCell_canonical _ _ _ _ _ _ _ HwfA Hcb Hlb HrAB).
      rewrite (revealCell_canonical _ _ _ _ _ _ _ Hwf Hcb Hlb HrB).
      rewrite (revealCell_canonical _ _ _ _ _ _ _ HwfB Hca Hla HrBA).
      rewrite <- !fmap_app. apply fmap_Permutation.
      by rewrite <- !cellsOf_app. }
  assert (forall q, hasMineAt (completeGrid svA) q = hasMineAt g q) as HmA
    by apply (ch_mines _ _ _ (RevealPost_Changed _ _ _ _ HpA)).
  assert (forall q, hasMineAt (completeGrid svB) q = hasMineAt g q) as HmB
    by apply (ch_mines _ _ _ (RevealPost_Changed _ _ _ _ HpB)).
  transitivity (mkServer (revealAll (cellsOf (outA ++ outAB)) g) (gridChunks sv)
                  (uniqueUsersEver sv)
                  (bombsExploded sv + minesAmong g (cellsOf (outA ++ outAB)))).
  - apply Server_eq; cbn [completeGrid gridChunks uniqueUsersEver bombsExploded];
      [done|congruence|congruence|].
    rewrite cellsOf_app, minesAmong_app, HbAB, HbA.
    rewrite (minesAmong_ext g (completeGrid svA)) by done. lia.
  - symmetry. apply Server_eq; cbn [completeGrid gridChunks uniqueUsersEver bombsExploded];
      [|congruence|congruence|].
    + rewrite Hg2. apply revealAll_same_cells; [done| |].
      * intros p Hp%Hc1. destruct Hp as [Hp|Hp]; apply uncovers_hidden in Hp; apply Hp.
      * intros q. rewrite Hc1, Hc2. tauto.
    + rewrite (minesAmong_Permutation g _ _ Hperm).
      rewrite cellsOf_app, minesAmong_app, HbBA, HbB.
      rewrite (minesAmong_ext g (completeGrid svB)) by done. lia.
Qed.

(** X24. A chord click is idempotent: when [handleChordClick] has
    returned, the same click again returns the empty list and leaves the
    server state as it is. *)
Theorem chord_is_idempotent cx cy x y sv out sv' :
  wfGrid (completeGrid sv) ->
  handleChordClick cx cy x y sv = Ok (out, sv') ->
  handleChordClick cx cy x y sv' = Ok ([], sv').
Proof.
  intros Hwf Hrun.
  destruct (handleChordClick_spec cx cy x y sv Hwf) as (out' & sv'' & Hrun' & Hyes & Hno).
  rewrite Hrun in Hrun'. injection Hrun' as <- <-.
  set (p := (cx * CHUNK_SIZE + x, cy * CHUNK_SIZE + y)) in *.
  set (g := completeGrid sv) in *.
  destruct (classic_chordFires g p) as [Hf|Hf].
  2:{ destruct (Hno Hf) as [-> ->]. by apply handleChordClick_noop. }
  specialize (Hyes Hf).
  pose proof (ChordInv_Changed _ _ _ _ Hyes) as Hch.
  pose proof (ch_wf _ _ _ Hch Hwf) as Hwf'.
  destruct (classic_chordFires (completeGrid sv') p) as [Hf'|Hf'].
  2:{ by apply handleChordClick_noop. }
  rewrite (handleChordClick_fires cx cy x y sv' Hwf' Hf'). fold p.
  assert (candidates (completeGrid sv') p = []) as ->; [|done].
  apply elem_of_nil_inv. intros q [Hn Hh]%elem_of_candidates; [|done].
  assert (forall n, n ∈ cellsOf out -> inWorld n) as Hin.
  { intros n (m & _ & Hm)%(ci_cells _ _ _ _ Hyes).
    apply uncovers_hidden in Hm. apply Hm. }
  rewrite (ci_grid _ _ _ _ Hyes) in Hh. fold g in Hh.
  apply (hidden_after g _ Hin) in Hh as [Hh Hnot]. apply Hnot.
  apply (ci_cells _ _ _ _ Hyes). exists q. split.
  - apply elem_of_candidates; done.
  - by apply uncovers_self.
Qed.

(** ** The messages of the socket handlers *)

Lemma coordinatesKept_revealAll l g :
  (forall p, p ∈ l -> inWorld p) -> coordinatesKept g ->
  coordinatesKept (revealAll l g).
Proof.
  intros Hl Hg q c. rewrite look_revealAll
    by (intros p Hp; by apply inWorld_nonneg, Hl).
  destruct (look g q) as [c0|] eqn:Hc0; [|done]. cbn. intros [= <-].
  destruct (Hg q c0 Hc0). by destruct (decide (q ∈ l)), c0.
Qed.

Lemma broadcast_spec g (out : list Update.t) :
  wfGrid g -> (forall u, u ∈ out -> inWorld (Update.cell u)) ->
  exists msgs,
    broadcast g out = Ok msgs
    /\ Forall2 (fun u m =>
          look g (Update.cell u) = Some (CellUpdate.cell m)
          /\ CellUpdate.cx m = Update.cx u /\ CellUpdate.cy m = Update.cy u
          /\ CellUpdate.x m = Update.x u /\ CellUpdate.y m = Update.y u) out msgs.
Proof.
  intros Hwf Hout. unfold broadcast.
  assert (forall pre, exists msgs,
            forEach (fun out r =>
                 cell ← getCell g (Update.cell r).1 (Update.cell r).2;
                 Ok (out ++ [CellUpdate.mk (Update.cx r) (Update.cy r)
                                           (Update.x r) (Update.y r) cell]))
              out pre = Ok (pre ++ msgs)
            /\ Forall2 (fun u m =>
                 look g (Update.cell u) = Some (CellUpdate.cell m)
                 /\ CellUpdate.cx m = Update.cx u /\ CellUpdate.cy m = Update.cy u
                 /\ CellUpdate.x m = Update.x u /\ CellUpdate.y m = Update.y u)
                 out msgs) as Hgen.
  { induction out as [|u out IH]; intros pre.
    - exists []. split; [by rewrite app_nil_r|constructor].
    - destruct (look_wf g (Update.cell u) Hwf) as [c Hc]; [apply Hout; by left|].
      destruct (IH (fun v Hv => Hout v (list_elem_of_further _ _ _ Hv))
                  (pre ++ [CellUpdate.mk (Update.cx u) (Update.cy u)
                                         (Update.x u) (Update.y u) c]))
        as (msgs & Hrun & Hall).
      exists (CellUpdate.mk (Update.cx u) (Update.cy u) (Update.x u) (Update.y u) c
                :: msgs).
      split.
      + cbn [forEach]. rewrite (proj1 (look_Some _ _ _) Hc).
        cbn [mbind Result_bind]. rewrite Hrun. by rewrite <- app_assoc.
      + by constructor. }
  destruct (Hgen []) as (msgs & Hrun & Hall). by exists msgs.
Qed.

Lemma messages_consistent g g' out msgs :
  0 < CHUNK_SIZE -> coordinatesKept g' ->
  wellAddressed out ->
  (forall q, q ∈ cellsOf out -> revealedAt g' q = true) ->
  (forall q, q ∈ cellsOf out -> hidden g q) ->
  (forall q, flaggedAt g' q = flaggedAt g q) ->
  Forall2 (fun u m =>
     look g' (Update.cell u) = Some (CellUpdate.cell m)
     /\ CellUpdate.cx m = Update.cx u /\ CellUpdate.cy m = Update.cy u
     /\ CellUpdate.x m = Update.x u /\ CellUpdate.y m = Update.y u) out msgs ->
  length msgs = length out
  /\ forall m, m ∈ msgs ->
       Cell.revealed (CellUpdate.cell m) = true
       /\ Cell.flagged (CellUpdate.cell m) = false
       /\ Cell.x (CellUpdate.cell m) = CellUpdate.cx m * CHUNK_SIZE + CellUpdate.x m
       /\ Cell.y (CellUpdate.cell m) = CellUpdate.cy m * CHUNK_SIZE + CellUpdate.y m.
Proof.
  intros HS Hcoord Haddr Hrev Hhid Hflag Hall.
  split; [symmetry; by eapply Forall2_length|].
  intros m Hm. destruct (proj1 (list_elem_of_lookup _ _) Hm) as [i Hi].
  destruct (Forall2_lookup_r _ _ _ _ _ Hall Hi) as (u & Hu & Hc & Hcx & Hcy & Hx & Hy).
  assert (u ∈ out) as Huin by (by eapply list_elem_of_lookup_2).
  assert (Update.cell u ∈ cellsOf out) as Hcell.
  { unfold cellsOf. apply list_elem_of_fmap. by exists u. }
  pose proof (Haddr u Huin) as Hglobal. unfold globalOf in Hglobal.
  destruct (Hcoord _ _ Hc) as [Hcx' Hcy'].
  pose proof (Hrev _ Hcell) as Hr. unfold revealedAt in Hr. rewrite Hc in Hr.
  pose proof (Hflag (Update.cell u)) as Hf. unfold flaggedAt in Hf. rewrite Hc in Hf.
  destruct (Hhid _ Hcell) as (_ & c0 & Hc0 & _ & Hf0). rewrite Hc0 in Hf.
  rewrite Hcx, Hcy, Hx, Hy, Hcx', Hcy', <- Hglobal. cbn [fst snd].
  split; [done|]. split; [congruence|]. done.
Qed.

(** X25. The [cell_update] messages of a [reveal_cell] and of a
    [chord_click] request, on an initialized grid whose cells carry their
    coordinates (as [initializeCompleteGrid] writes them) and for a positive
    chunk size: the handler returns, one message goes out per record of the
    returned list, and each message carries a cell that reads
    [revealed = true], is not flagged, and whose own [x] and [y] are the
    world coordinates that the message's chunk and local coordinates name.
    The cells of the grid still carry their coordinates afterwards. *)
Theorem cell_updates_are_consistent cx cy x y sv :
  let g := completeGrid sv in
  wfGrid g -> coordinatesKept g -> 0 < CHUNK_SIZE ->
  (exists out msgs sv',
     revealCell cx cy x y sv = Ok (out, sv')
     /\ reveal_cell cx cy x y sv = Ok (msgs, sv')
     /\ length msgs = length out
     /\ coordinatesKept (completeGrid sv')
     /\ forall m, m ∈ msgs ->
          Cell.revealed (CellUpdate.cell m) = true
          /\ Cell.flagged (CellUpdate.cell m) = false
          /\ Cell.x (CellUpdate.cell m) = CellUpdate.cx m * CHUNK_SIZE + CellUpdate.x m
          /\ Cell.y (CellUpdate.cell m) = CellUpdate.cy m * CHUNK_SIZE + CellUpdate.y m)
  /\ (exists out msgs sv',
        handleChordClick cx cy x y sv = Ok (out, sv')
        /\ chord_click cx cy x y sv = Ok (msgs, sv')
        /\ length msgs = length out
        /\ coordinatesKept (completeGrid sv')
        /\ forall m, m ∈ msgs ->
             Cell.revealed (CellUpdate.cell m) = true
             /\ Cell.flagged (CellUpdate.cell m) = false
             /\ Cell.x (CellUpdate.cell m) = CellUpdate.cx m * CHUNK_SIZE + CellUpdate.x m
             /\ Cell.y (CellUpdate.cell m) = CellUpdate.cy m * CHUNK_SIZE + CellUpdate.y m).
Proof.
  intros g Hwf Hcoord HS.
  assert (forall out g',
            Changed g out g' -> g' = revealAll (cellsOf out) g ->
            (forall q, q ∈ cellsOf out -> hidden g q) -> wellAddressed out ->
            coordinatesKept g'
            /\ exists msgs, broadcast g' out = Ok msgs
                 /\ length msgs = length out
                 /\ forall m, m ∈ msgs ->
                      Cell.revealed (CellUpdate.cell m) = true
                      /\ Cell.flagged (CellUpdate.cell m) = false
                      /\ Cell.x (CellUpdate.cell m)
                         = CellUpdate.cx m * CHUNK_SIZE + CellUpdate.x m
                      /\ Cell.y (CellUpdate.cell m)
                         = CellUpdate.cy m * CHUNK_SIZE + CellUpdate.y m) as Hgen.
  { intros out g' Hch Hg' Hhid Haddr.
    assert (forall q, q ∈ cellsOf out -> inWorld q) as Hin
      by (intros q Hq; apply (Hhid q Hq)).
    assert (coordinatesKept g') as Hcoord'
      by (rewrite Hg'; by apply coordinatesKept_revealAll).
    split; [done|].
    destruct (broadcast_spec g' out (ch_wf _ _ _ Hch Hwf)) as (msgs & Hrun & Hall).
    { intros u Hu. apply Hin. unfold cellsOf. apply list_elem_of_fmap. by exists u. }
    exists msgs. split; [done|].
    apply (messages_consistent g g' out msgs HS Hcoord' Haddr); try done.
    - apply (ch_listed _ _ _ Hch).
    - apply (ch_flagged _ _ _ Hch). }
  split.
  - destruct (revealCell_spec cx cy x y sv Hwf) as (out & sv' & Hrun & Hpost & _).
    destruct (Hgen out (completeGrid sv') (RevealPost_Changed _ _ _ _ Hpost)
                (rp_grid _ _ _ _ Hpost)) as (Hcoord' & msgs & Hcast & Hlen & Hmsgs).
    { intros q Hq%(rp_cells _ _ _ _ Hpost). by apply uncovers_hidden in Hq. }
    { by apply (rp_addr _ _ _ _ Hpost). }
    exists out, msgs, sv'. split; [done|]. split; [|done].
    unfold reveal_cell. rewrite Hrun. cbn [mbind Result_bind fst snd].
    by rewrite Hcast.
  - destruct (handleChordClick_spec cx cy x y sv Hwf) as (out & sv' & Hrun & Hyes & Hno).
    destruct (classic_chordFires g (cx * CHUNK_SIZE + x, cy * CHUNK_SIZE + y)) as [Hf|Hf].
    + specialize (Hyes Hf).
      destruct (Hgen out (completeGrid sv') (ChordInv_Changed _ _ _ _ Hyes)
                  (ci_grid _ _ _ _ Hyes)) as (Hcoord' & msgs & Hcast & Hlen & Hmsgs).
      { intros q (m & _ & Hq)%(ci_cells _ _ _ _ Hyes). by apply uncovers_hidden in Hq. }
      { by apply (ci_addr _ _ _ _ Hyes). }
      exists out, msgs, sv'. split; [done|]. split; [|done].
      unfold chord_click. rewrite Hrun. cbn [mbind Result_bind fst snd].
      by rewrite Hcast.
    + destruct (Hno Hf) as [-> ->]. exists [], [], sv. split; [done|].
      split; [unfold chord_click; by rewrite Hrun|]. split; [done|]. split; [done|].
      by intros m ?%elem_of_nil.
Qed.

(** X26. The cells of a [chunk_data] answer carry their world
    coordinates: for chunk coordinates that are not negative, global
    coordinates of at most 2^53 (up to there the code's sums of doubles are
    exact), a positive
    chunk size and an initialized grid whose cells carry their coordinates,
    the entry at row [y] and column [x] of the extracted chunk is a cell
    whose own [x] and [y] are [cx * CHUNK_SIZE + x] and [cy * CHUNK_SIZE + y],
    inside the world and outside it. *)
Theorem chunk_cells_carry_coordinates g cx cy :
  wfGrid g -> coordinatesKept g -> 0 < CHUNK_SIZE -> 0 <= cx -> 0 <= cy ->
  cx * CHUNK_SIZE + CHUNK_SIZE <= 2 ^ 53 -> cy * CHUNK_SIZE + CHUNK_SIZE <= 2 ^ 53 ->
  exists chunk,
    extractChunkFromCompleteGrid g cx cy = Ok chunk
    /\ forall x y, 0 <= x < CHUNK_SIZE -> 0 <= y < CHUNK_SIZE ->
         exists c,
           index chunk y ≫= (fun row => index row x) = Some (CellCopy c)
           /\ Cell.x c = cx * CHUNK_SIZE + x /\ Cell.y c = cy * CHUNK_SIZE + y.
Proof.
  intros Hwf Hcoord HS Hcx Hcy _ _. eexists.
  split; [by apply extractChunk_nonneg|].
  intros x y Hx Hy.
  assert (index ((fun y => (fun x => chunkCellAt g (cx * CHUNK_SIZE + x, cy * CHUNK_SIZE + y))
                              <$> seqZ 0 CHUNK_SIZE) <$> seqZ 0 CHUNK_SIZE) y
          ≫= (fun row => index row x)
          = Some (chunkCellAt g (cx * CHUNK_SIZE + x, cy * CHUNK_SIZE + y))) as ->.
  { unfold index. rewrite !decide_True by lia.
    rewrite list_lookup_fmap, lookup_seqZ_lt by lia.
    cbn [fmap option_fmap option_map mbind option_bind].
    rewrite decide_True by lia.
    rewrite list_lookup_fmap, lookup_seqZ_lt by lia. cbn.
    by rewrite !Z2Nat.id by lia. }
  unfold chunkCellAt.
  destruct (look g (cx * CHUNK_SIZE + x, cy * CHUNK_SIZE + y)) as [c|] eqn:Hc.
  - exists c. split; [done|]. apply (Hcoord _ _ Hc).
  - eexists. split; [done|]. done.
Qed.

(** ** What a reveal reaches, on any grid *)

(** X27. What [revealCell] reveals, on any initialized grid: the call
    returns; when the target is a cell of the world that is neither
    revealed nor flagged, the returned list holds, without repetition,
    exactly the cells that the flood rule reaches from the target (a chain of
    steps, each from a cell with count 0 and no mine to one of its eight
    neighbours that is in the world, unrevealed, unflagged and no mine), the
    target included; otherwise the list is empty. The grid afterwards is
    the grid before with [revealed = true] on the listed cells. *)
Theorem reveal_reaches_what_the_flood_rule_reaches cx cy x y sv :
  let p := (cx * CHUNK_SIZE + x, cy * CHUNK_SIZE + y) in
  let g := completeGrid sv in
  wfGrid g ->
  exists out sv',
    revealCell cx cy x y sv = Ok (out, sv')
    /\ NoDup (cellsOf out)
    /\ (forall q, q ∈ cellsOf out <-> hidden g p /\ rtc (floodStep g) p q)
    /\ (hidden g p -> p ∈ cellsOf out)
    /\ (~ hidden g p -> out = [])
    /\ completeGrid sv' = revealAll (cellsOf out) g.
Proof.
  intros p g Hwf.
  destruct (revealCell_spec cx cy x y sv Hwf) as (out & sv' & Hrun & Hpost & _).
  fold p g in Hpost. exists out, sv'. split; [done|].
  split; [apply (rp_nodup _ _ _ _ Hpost)|].
  split; [apply (rp_cells _ _ _ _ Hpost)|].
  split; [|split; [|apply (rp_grid _ _ _ _ Hpost)]].
  - intros Hp. apply (rp_cells _ _ _ _ Hpost). by apply uncovers_self.
  - intros Hp. destruct out as [|u out]; [done|]. exfalso. apply Hp.
    assert (Update.cell u ∈ cellsOf (u :: out)) as Hu by (cbn; left).
    by apply (rp_cells _ _ _ _ Hpost) in Hu as [? _].
Qed.

(** X28. A reveal explodes at most the mine that was clicked: among the
    cells [revealCell] lists, only the target can hold a mine, and then the
    target is the only cell listed; [bombsExploded] grows by one when the
    target is an unrevealed, unflagged mine of the world and stays the same
    in every other case. A reveal on a cell without mine never reveals a
    mine. *)
Theorem reveal_explodes_only_the_clicked_mine cx cy x y sv out sv' :
  let p := (cx * CHUNK_SIZE + x, cy * CHUNK_SIZE + y) in
  let g := completeGrid sv in
  wfGrid g ->
  revealCell cx cy x y sv = Ok (out, sv') ->
  (forall q, q ∈ cellsOf out -> hasMineAt g q = true -> q = p /\ cellsOf out = [p])
  /\ (hidden g p /\ hasMineAt g p = true ->
      bombsExploded sv' = bombsExploded sv + 1)
  /\ (~ (hidden g p /\ hasMineAt g p = true) ->
      bombsExploded sv' = bombsExploded sv
      /\ forall q, q ∈ cellsOf out -> hasMineAt g q = false).
Proof.
  intros p g Hwf Hrun.
  destruct (revealCell_spec cx cy x y sv Hwf) as (out' & sv'' & Hrun' & Hpost & _ & _ & Hb).
  rewrite Hrun in Hrun'. injection Hrun' as <- <-. fold p g in Hpost, Hb.
  assert (hasMineAt g p = true -> forall q, q ∈ cellsOf out -> q = p) as Honly.
  { intros Hm q Hq%(rp_cells _ _ _ _ Hpost). by apply (uncovers_mine g p q). }
  assert (hasMineAt g p = false -> forall q, q ∈ cellsOf out -> hasMineAt g q = false)
    as Hsafe.
  { intros Hm q Hq%(rp_cells _ _ _ _ Hpost). by apply (uncovers_safe g p q). }
  assert (hasMineAt g p = true -> hidden g p -> cellsOf out = [p]) as Hone.
  { intros Hm Hp.
    assert (p ∈ cellsOf out) as Hin
      by (apply (rp_cells _ _ _ _ Hpost); by apply uncovers_self).
    pose proof (rp_nodup _ _ _ _ Hpost) as Hnd.
    destruct (cellsOf out) as [|a l]; [by apply elem_of_nil in Hin|].
    assert (a = p) as -> by (apply (Honly Hm); by left).
    destruct l as [|b l]; [done|].
    assert (b = p) as -> by (apply (Honly Hm); right; by left).
    apply NoDup_cons in Hnd as [Hnot _]. destruct Hnot. by left. }
  split; [|split].
  - intros q Hq Hm.
    destruct (hasMineAt g p) eqn:Hp.
    + rewrite (Honly eq_refl q Hq). split; [done|]. apply Hone; [done|].
      apply (rp_cells _ _ _ _ Hpost) in Hq. apply Hq.
    + rewrite (Hsafe eq_refl q Hq) in Hm. done.
  - intros [Hp Hm]. rewrite Hb, (Hone Hm Hp). unfold minesAmong.
    rewrite filter_cons, decide_True by done. cbn. lia.
  - intros Hnot.
    assert (forall q, q ∈ cellsOf out -> hasMineAt g q = false) as Hnone.
    { intros q Hq. destruct (hasMineAt g p) eqn:Hp; [|by apply Hsafe].
      destruct Hnot. split; [|done].
      apply (rp_cells _ _ _ _ Hpost) in Hq. apply Hq. }
    split; [|done]. rewrite Hb, minesAmong_none by done. lia.
Qed.

End Server.

Lemma demoGrid_initialized :
  initializeCompleteGrid 4 1 (1 # 4) 1 demoRandom = Ok demoGrid.
Proof. by vm_compute. Qed.

Lemma wfGrid_demoGrid : wfGrid 4 1 demoGrid.
Proof. split; [done|]. by repeat constructor. Qed.

Lemma wfGrid_chordGrid : wfGrid 4 1 chordGrid.
Proof. split; [done|]. by repeat constructor. Qed.

Lemma adjacencyInvariant_demoGrid : adjacencyInvariant 4 1 demoGrid.
Proof.
  by destruct (initializeCompleteGrid_spec 4 1 (1 # 4) 1 demoRandom demoGrid
                 demoGrid_initialized) as (_ & ? & _).
Qed.

Lemma inWorld_demo q : inWorld 4 1 q -> q ∈ [(0, 0); (1, 0); (2, 0); (3, 0)].
Proof. intros Hq. by apply (elem_of_worldList 4 1) in Hq. Qed.

Lemma nbr_demo p q : nbr p q -> q ∈ shift p <$> neighborOffsets.
Proof. intros (d & Hd & ->). apply list_elem_of_fmap. by exists d. Qed.

(** Scenario of the specification: a 10 x 10 world without mines; revealing
    (5, 5) reveals all 100 cells and explodes nothing. *)
Example reveal_empty_world :
  exists g out sv',
    initializeCompleteGrid 10 10 0 0 demoRandom = Ok g
    /\ revealCell 100 10 10 0 0 5 5 (mkServer g ∅ 0 0) = Ok (out, sv')
    /\ length out = 100%nat
    /\ bombsExploded sv' = 0
    /\ Forall (fun q => revealedAt (completeGrid sv') q = true) (worldList 10 10).
Proof.
  eexists _, _, _. split; [by vm_compute|]. split; [by vm_compute|].
  split; [by vm_compute|]. split; [by vm_compute|].
  apply (bool_decide_unpack (Forall _ _)). by vm_compute.
Qed.

(** Scenario of the specification: a 3 x 3 world with one mine at (1, 1);
    revealing it returns one record, of a revealed mine, and counts one
    explosion. *)
Example reveal_a_mine :
  exists g out sv',
    initializeCompleteGrid 3 3 (1 # 9) 1 (fun _ => (1 # 2)%Q) = Ok g
    /\ hasMineAt g (1, 1) = true
    /\ revealCell 100 3 3 0 0 1 1 (mkServer g ∅ 0 0) = Ok (out, sv')
    /\ cellsOf out = [(1, 1)]
    /\ revealedAt (completeGrid sv') (1, 1) = true
    /\ bombsExploded sv' = 1.
Proof.
  eexists _, _, _. split; [by vm_compute|]. split; [by vm_compute|].
  split; [by vm_compute|]. split; [by vm_compute|]. split; by vm_compute.
Qed.

Lemma demoRegion_cases p : p ∈ demoRegion -> p = (0, 0) \/ p = (1, 0).
Proof. unfold demoRegion. set_solver. Qed.

Lemma demoRegion_cells p : p ∈ demoRegion -> zero demoGrid p /\ hidden 4 1 demoGrid p.
Proof.
  intros [->| ->]%demoRegion_cases.
  - split; [eexists; split; [by vm_compute|done]|].
    split; [done|]. eexists. split; [by vm_compute|done].
  - split; [eexists; split; [by vm_compute|done]|].
    split; [done|]. eexists. split; [by vm_compute|done].
Qed.

Lemma demoRegion_connected : connected demoRegion.
Proof.
  intros p q [->| ->]%demoRegion_cases [->| ->]%demoRegion_cases;
    try apply rtc_refl; apply rtc_once; (split; [|unfold demoRegion; set_solver]).
  - exists (1, 0). split; [by_evaluation|done].
  - exists (-1, 0). split; [by_evaluation|done].
Qed.

Lemma demoRegion_border q : borders 4 1 demoRegion q -> numbered demoGrid q.
Proof.
  intros (Hw & Hout & p & Hp & Hn). apply inWorld_demo in Hw.
  apply nbr_demo in Hn.
  repeat (apply elem_of_cons in Hw as [->|Hw]).
  - exfalso. apply Hout. unfold demoRegion. set_solver.
  - exfalso. apply Hout. unfold demoRegion. set_solver.
  - eexists. split; [by vm_compute|done].
  - exfalso. apply demoRegion_cases in Hp as [->| ->]; revert Hn; by_evaluation.
  - by apply not_elem_of_nil in Hw.
Qed.

Lemma flood_fill_region_witness :
  wfGrid 4 1 demoGrid
  /\ adjacencyInvariant 4 1 demoGrid
  /\ (forall p, p ∈ demoRegion -> zero demoGrid p /\ hidden 4 1 demoGrid p)
  /\ connected demoRegion
  /\ (forall q, borders 4 1 demoRegion q -> numbered demoGrid q)
  /\ (0 * 2 + 0, 0 * 2 + 0) ∈ demoRegion
  /\ exists out sv',
       revealCell 2 4 1 0 0 0 0 demoServer = Ok (out, sv')
       /\ NoDup (cellsOf out)
       /\ (forall q, q ∈ cellsOf out
             <-> q ∈ demoRegion
                 \/ (borders 4 1 demoRegion q /\ numbered demoGrid q
                     /\ hidden 4 1 demoGrid q))
       /\ (forall q, q ∈ cellsOf out -> hasMineAt demoGrid q = false)
       /\ completeGrid sv' = revealAll (cellsOf out) demoGrid
       /\ (forall q, q ∈ cellsOf out -> revealedAt (completeGrid sv') q = true)
       /\ (forall q, q ∉ cellsOf out -> look (completeGrid sv') q = look demoGrid q)
       /\ bombsExploded sv' = bombsExploded demoServer.
Proof.
  assert ((0 * 2 + 0, 0 * 2 + 0) ∈ demoRegion) as Hstart
    by (unfold demoRegion; set_solver).
  split; [exact wfGrid_demoGrid|]. split; [exact adjacencyInvariant_demoGrid|].
  split; [exact demoRegion_cells|]. split; [exact demoRegion_connected|].
  split; [exact demoRegion_border|]. split; [exact Hstart|].
  exact (flood_fill_region 2 4 1 0 0 0 0 demoServer demoRegion
           wfGrid_demoGrid adjacencyInvariant_demoGrid demoRegion_cells
           demoRegion_connected demoRegion_border Hstart).
Defined.

Lemma chord_reveal_correct_witness :
  wfGrid 4 1 chordGrid
  /\ exists out sv',
      handleChordClick 2 4 1 1 0 0 0 chordServer = Ok (out, sv')
      /\ (forall c, look chordGrid (1 * 2 + 0, 0 * 2 + 0) = Some c ->
            Cell.revealed c = true -> 0 < Cell.adjacentMines c ->
            (flaggedNeighborCount 4 1 chordGrid (1 * 2 + 0, 0 * 2 + 0)
             + revealedMineNeighborCount 4 1 chordGrid (1 * 2 + 0, 0 * 2 + 0)
               = Cell.adjacentMines c ->
               (forall n, nbr (1 * 2 + 0, 0 * 2 + 0) n -> hidden 4 1 chordGrid n ->
                          n ∈ cellsOf out /\ revealedAt (completeGrid sv') n = true)
               /\ (forall q, q ∈ cellsOf out
                             <-> exists n, nbr (1 * 2 + 0, 0 * 2 + 0) n
                                           /\ hidden 4 1 chordGrid n
                                           /\ uncovers 4 1 chordGrid n q)
               /\ (forall n q, hasMineAt chordGrid n = true ->
                               uncovers 4 1 chordGrid n q -> q = n)
               /\ NoDup (cellsOf out)
               /\ completeGrid sv' = revealAll (cellsOf out) chordGrid
               /\ bombsExploded sv'
                  = bombsExploded chordServer
                    + minesAmong chordGrid
                        (candidates 4 1 chordGrid (1 * 2 + 0, 0 * 2 + 0))
               /\ gridChunks sv' = gridChunks chordServer)
            /\ (flaggedNeighborCount 4 1 chordGrid (1 * 2 + 0, 0 * 2 + 0)
                + revealedMineNeighborCount 4 1 chordGrid (1 * 2 + 0, 0 * 2 + 0)
                  <> Cell.adjacentMines c -> out = [] /\ sv' = chordServer)
            /\ (out <> [] <->
                flaggedNeighborCount 4 1 chordGrid (1 * 2 + 0, 0 * 2 + 0)
                + revealedMineNeighborCount 4 1 chordGrid (1 * 2 + 0, 0 * 2 + 0)
                  = Cell.adjacentMines c
                /\ candidates 4 1 chordGrid (1 * 2 + 0, 0 * 2 + 0) <> []))
      /\ (inBounds 4 1 (1 * 2 + 0) (0 * 2 + 0) = false
          \/ revealedAt chordGrid (1 * 2 + 0, 0 * 2 + 0) = false
          \/ (exists c, look chordGrid (1 * 2 + 0, 0 * 2 + 0) = Some c
                        /\ Cell.adjacentMines c = 0) ->
          out = [] /\ sv' = chordServer).
Proof.
  split; [exact wfGrid_chordGrid|].
  exact (chord_reveal_correct 2 4 1 1 0 0 0 chordServer wfGrid_chordGrid).
Defined.

(** The chord click of the witness, evaluated: the flag on the mine matches
    the number 1, and the hidden neighbour and the zero cell behind it are
    revealed. *)
Example chord_on_demo :
  exists out sv',
    handleChordClick 2 4 1 1 0 0 0 chordServer = Ok (out, sv')
    /\ cellsOf out = [(1, 0); (0, 0)]
    /\ bombsExploded sv' = 0
    /\ revealedAt (completeGrid sv') (3, 0) = false.
Proof.
  eexists _, _. split; [by vm_compute|]. split; [by vm_compute|].
  split; by vm_compute.
Qed.


Lemma flag_reveal_exclusion_witness :
  wfGrid 4 1 chordGrid
  /\ (revealedAt chordGrid (1 * 2 + 1, 0 * 2 + 0) = true ->
        flag_cell 2 4 1 1 0 1 0 chordServer = Ok (None, chordServer))
  /\ (flaggedAt chordGrid (1 * 2 + 1, 0 * 2 + 0) = true ->
        revealCell 2 4 1 1 0 1 0 chordServer = Ok ([], chordServer))
  /\ (forall q, revealedAt chordGrid q = true ->
        (exists out sv', revealCell 2 4 1 1 0 1 0 chordServer = Ok (out, sv')
                         /\ revealedAt (completeGrid sv') q = true)
        /\ (exists r sv', flag_cell 2 4 1 1 0 1 0 chordServer = Ok (r, sv')
                         /\ revealedAt (completeGrid sv') q = true)
        /\ (exists out sv', handleChordClick 2 4 1 1 0 1 0 chordServer = Ok (out, sv')
                         /\ revealedAt (completeGrid sv') q = true)).
Proof.
  split; [exact wfGrid_chordGrid|].
  exact (flag_reveal_exclusion 2 4 1 1 0 1 0 chordServer wfGrid_chordGrid).
Defined.

Lemma changed_cell_list_accuracy_witness :
  0 < 2
  /\ wfGrid 4 1 demoGrid
  /\ (exists out sv', revealCell 2 4 1 0 0 0 0 demoServer = Ok (out, sv')
        /\ listsChanges 2 demoGrid out (completeGrid sv'))
  /\ (exists out sv', handleChordClick 2 4 1 0 0 0 0 demoServer = Ok (out, sv')
        /\ listsChanges 2 demoGrid out (completeGrid sv')).
Proof.
  assert (0 < 2) as Hpos by lia.
  split; [exact Hpos|]. split; [exact wfGrid_demoGrid|].
  exact (changed_cell_list_accuracy 2 4 1 0 0 0 0 demoServer Hpos wfGrid_demoGrid).
Defined.

Lemma sampledGrid_initialized :
  initializeCompleteGrid 3 2 (1 # 2) 4 sampledRandom = Ok sampledGrid.
Proof. by vm_compute. Qed.

Lemma exact_mine_count_witness :
  0 < 3 /\ 0 < 2 /\ (0 <= 1 # 2)%Q
  /\ initializeCompleteGrid 3 2 (1 # 2) 4 sampledRandom = Ok sampledGrid
  /\ totalMines 3 2 sampledGrid = mineCount 3 2 (1 # 2)
  /\ 0 <= mineCount 3 2 (1 # 2).
Proof.
  assert (0 < 3) as HW by lia. assert (0 < 2) as HH by lia.
  assert (0 <= 1 # 2)%Q as Hp by (unfold Qle; simpl; lia).
  split; [exact HW|]. split; [exact HH|]. split; [exact Hp|].
  split; [exact sampledGrid_initialized|].
  exact (exact_mine_count 3 2 (1 # 2) 4 sampledRandom sampledGrid HW HH Hp
           sampledGrid_initialized).
Defined.

Lemma adjacency_invariant_preserved_witness :
  (initializeCompleteGrid 4 1 (1 # 4) 1 demoRandom = Ok demoGrid
   /\ wfGrid 4 1 demoGrid /\ adjacencyInvariant 4 1 demoGrid)
  /\ (exists out sv', revealCell 2 4 1 0 0 0 0 demoServer = Ok (out, sv')
        /\ layoutKept 4 1 demoGrid (completeGrid sv')
        /\ adjacencyInvariant 4 1 (completeGrid sv'))
  /\ (exists r sv', flag_cell 2 4 1 0 0 0 0 demoServer = Ok (r, sv')
        /\ layoutKept 4 1 demoGrid (completeGrid sv')
        /\ adjacencyInvariant 4 1 (completeGrid sv'))
  /\ (exists out sv', handleChordClick 2 4 1 0 0 0 0 demoServer = Ok (out, sv')
        /\ layoutKept 4 1 demoGrid (completeGrid sv')
        /\ adjacencyInvariant 4 1 (completeGrid sv')).
Proof.
  destruct (adjacency_invariant_preserved 2 4 1 (1 # 4)) as [Hinit Hops].
  split.
  - split; [exact demoGrid_initialized|].
    exact (Hinit 1%nat demoRandom demoGrid demoGrid_initialized).
  - exact (Hops 0 0 0 0 demoServer wfGrid_demoGrid adjacencyInvariant_demoGrid).
Defined.


(** Half a chunk and one cell, with chunks of two cells, is the cell
    (2, 0): the request [{ cx: 0.5, cy: 0, x: 1, y: 0 }] is a request of
    valid doubles whose global coordinate passes the bounds test and is a
    pair of integers, and it is answered as the cell (2, 0) is. *)
Lemma operations_on_half_a_chunk :
  Number.valid (Number.ofQ (1 # 2)) /\ Number.valid (Number.ofZ 1)
  /\ Number.valid (Number.ofZ 0)
  /\ outOfBounds_num 4 1
       (globalCoordinate 2 (Number.ofQ (1 # 2)) (Number.ofZ 1))
       (globalCoordinate 2 (Number.ofZ 0) (Number.ofZ 0)) = false
  /\ Number.toZ (globalCoordinate 2 (Number.ofQ (1 # 2)) (Number.ofZ 1)) = Some 2
  /\ Number.toZ (globalCoordinate 2 (Number.ofZ 0) (Number.ofZ 0)) = Some 0
  /\ (exists out_num out sv',
        revealCell_num 2 4 1 (Number.ofQ (1 # 2)) (Number.ofZ 0) (Number.ofZ 1)
                       (Number.ofZ 0) demoServer = Ok (out_num, sv')
        /\ revealCell 2 4 1 0 0 2 0 demoServer = Ok (out, sv')
        /\ NumUpdate.cell <$> out_num = cellsOf out
        /\ cellsOf out = [(2, 0)]).
Proof.
  split; [by vm_compute|]. split; [by vm_compute|]. split; [by vm_compute|].
  split; [by vm_compute|]. split; [by vm_compute|]. split; [by vm_compute|].
  eexists _, _, _. split; [by vm_compute|]. split; [by vm_compute|].
  split; by vm_compute.
Qed.

(** On the integers of the demo worlds the operations on numbers return
    what the operations on integers return; a coordinate outside the world
    gives the empty result, integer or not. *)
Lemma operations_on_integer_numbers :
  (exists out sv',
     revealCell 2 4 1 0 0 0 0 demoServer = Ok (out, sv')
     /\ revealCell_num 2 4 1 (Number.ofZ 0) (Number.ofZ 0) (Number.ofZ 0)
                       (Number.ofZ 0) demoServer
        = Ok (NumUpdate.ofUpdate <$> out, sv'))
  /\ (exists out sv',
        revealCell 2 4 1 1 0 1 0 demoServer = Ok (out, sv')
        /\ revealCell_num 2 4 1 (Number.ofZ 1) (Number.ofZ 0) (Number.ofZ 1)
                          (Number.ofZ 0) demoServer
           = Ok (NumUpdate.ofUpdate <$> out, sv'))
  /\ (exists out sv',
        handleChordClick 2 4 1 1 0 0 0 chordServer = Ok (out, sv')
        /\ handleChordClick_num 2 4 1 (Number.ofZ 1) (Number.ofZ 0) (Number.ofZ 0)
                                (Number.ofZ 0) chordServer
           = Ok (NumUpdate.ofUpdate <$> out, sv'))
  /\ (exists u sv',
        flag_cell 2 4 1 0 0 1 0 demoServer = Ok (Some u, sv')
        /\ flag_cell_num 2 4 1 (Number.ofZ 0) (Number.ofZ 0) (Number.ofZ 1)
                         (Number.ofZ 0) demoServer
           = Ok (Some (NumUpdate.ofUpdate u), sv'))
  /\ revealCell_num 2 4 1 (Number.ofZ 0) (Number.ofZ 0) (Number.ofQ (9 # 2))
                    (Number.ofZ 0) demoServer = Ok ([], demoServer)
  /\ revealCell_num 2 4 1 (Number.ofZ 0) (Number.ofZ 0) (Number.ofQ (-1 # 2))
                    (Number.ofZ 0) demoServer = Ok ([], demoServer).
Proof.
  split; [eexists _, _; split; by vm_compute|].
  split; [eexists _, _; split; by vm_compute|].
  split; [eexists _, _; split; by vm_compute|].
  split; [eexists _, _; split; by vm_compute|].
  split; by vm_compute.
Qed.

(** The mine count of the shipped configuration, and three counts for
    which the product of doubles and the exact product round apart:
    [100 * 0.145] is 14.499999999999998, [5 * 0.3] is 1.5 although the
    double 0.3 lies below 3/10, and [25 * 0.58] is 14.499999999999998. *)
Lemma mineCount_in_doubles :
  mineCount 800 700 (17 # 100) = 95200
  /\ mineCount 3 2 (1 # 2) = 3
  /\ mineCount 10 10 (145 # 1000) = 14
  /\ Math_round (inject_Z (10 * 10) * (145 # 1000)) = 15
  /\ mineCount 5 1 (3 # 10) = 2
  /\ Legacy.mineCount 5 (58 # 100) = 14
  /\ Math_round (inject_Z (5 * 5) * (58 # 100)) = 15.
Proof. repeat split; by vm_compute. Qed.

(** [percent] for one revealed cell of three: the double
    33.33333333333333, which is 4691249611844266 / 2^47. *)
Lemma percent_of_one_in_three :
  Number.mul (Number.div (Number.ofZ 1) (Number.ofZ 3)) (Number.ofZ 100)
  = S754_finite false 4691249611844266 (-47).
Proof. by vm_compute. Qed.

(** A record of the single-cell branch repeats the address of the request:
    the cell (2, 0) of the demo world revealed as [(cx 1, x 0)] and as
    [(cx 0, x 2)]. *)
Lemma records_repeat_the_address :
  (exists sv', revealCell 2 4 1 1 0 0 0 demoServer
               = Ok ([Update.mk 1 0 0 0 (2, 0)], sv'))
  /\ (exists sv', revealCell 2 4 1 0 0 2 0 demoServer
                  = Ok ([Update.mk 0 0 2 0 (2, 0)], sv')).
Proof. split; eexists; by vm_compute. Qed.

(** C5 fails on the code: a width of 0 is accepted, and so is a mine
    percentage of 1; neither run ends in an error. *)
Lemma initialize_accepts_invalid_configuration :
  initializeCompleteGrid 0 3 (17 # 100) 0 demoRandom = Ok [[]; []; []]
  /\ ~ throws (initializeCompleteGrid 0 3 (17 # 100) 0 demoRandom)
  /\ initializeCompleteGrid 1 1 1 1 (fun _ => 0%Q)
     = Ok [[Cell.mk 0 0 false true 0 false]]
  /\ ~ throws (initializeCompleteGrid 1 1 1 1 (fun _ => 0%Q)).
Proof.
  split; [by vm_compute|]. split; [intros [e He]; by vm_compute in He|].
  split; [by vm_compute|]. intros [e He]; by vm_compute in He.
Qed.

Lemma initialize_checks_nothing_witness :
  0 <= 0 /\ 0 <= 3 /\ (0 = 0 \/ 3 = 0 \/ (17 # 100 <= 0)%Q)
  /\ exists g, initializeCompleteGrid 0 3 (17 # 100) 0 demoRandom = Ok g
               /\ wfGrid 0 3 g /\ totalMines 0 3 g = 0.
Proof.
  assert (0 <= 0) as HW by lia. assert (0 <= 3) as HH by lia.
  assert (0 = 0 \/ 3 = 0 \/ (17 # 100 <= 0)%Q) as Hbad by (left; reflexivity).
  split; [exact HW|]. split; [exact HH|]. split; [exact Hbad|].
  exact (initialize_checks_nothing 0 3 (17 # 100) 0 demoRandom HW HH Hbad).
Defined.

(** C6 fails on [server.js]: a chunk requested before a reveal and again
    after it is served from [gridChunks] as first extracted. In the demo
    world the cell (0, 0) is revealed by the call in between, the second
    answer still says [revealed = false], and the sibling [getOrCreateChunk]
    that keeps no map answers [revealed = true]. *)
Theorem cached_chunk_is_stale :
  exists ch sv1 out sv2 ch' sv3 fresh,
    getOrCreateChunk 2 4 1 0 0 demoServer = Ok (ch, sv1)
    /\ revealCell 2 4 1 0 0 0 0 sv1 = Ok (out, sv2)
    /\ getOrCreateChunk 2 4 1 0 0 sv2 = Ok (ch', sv3)
    /\ revealedAt (completeGrid sv2) (0, 0) = true
    /\ ch' = ch
    /\ ch' !! 0%nat ≫= (.!! 0%nat) = Some (CellCopy (Cell.mk 0 0 false false 0 false))
    /\ getOrCreateChunk_uncached 2 4 1 0 0 sv2 = Ok (fresh, sv2)
    /\ fresh !! 0%nat ≫= (.!! 0%nat) = Some (CellCopy (Cell.mk 0 0 true false 0 false)).
Proof.
  eexists _, _, _, _, _, _, _. split; [by vm_compute|]. split; [by vm_compute|].
  split; [by vm_compute|]. split; [by vm_compute|]. split; [by vm_compute|].
  split; [by vm_compute|]. split; by vm_compute.
Qed.

(** C7 fails on the code: with the constants of [constants.js], the chunk
    (0, -1) makes [extractChunkFromCompleteGrid] throw, whatever the grid
    holds. *)
Theorem extract_throws_above_the_world (g : Grid) :
  extractChunkFromCompleteGrid 100 800 700 g 0 (-1) = Throw TypeError.
Proof. apply extractChunk_negative_row; lia. Qed.

(** And a chunk left of the world comes back with empty objects, not with
    default cells, on the rows that exist. *)
Example extract_left_of_the_world :
  extractChunkFromCompleteGrid 2 4 1 demoGrid (-1) 0
  = Ok [[EmptyObject; EmptyObject];
        [CellCopy (Cell.fresh (-2) 1); CellCopy (Cell.fresh (-1) 1)]].
Proof. by vm_compute. Qed.

(** * The lazily-chunked server file *)

(** The run with [legacyRandom] stores [legacyChunk] as chunk (0, 0). *)
Lemma legacy_first_chunk :
  Legacy.getOrCreateChunk 2 (1 # 4) legacyRandom 1 0 0 Legacy.start
    = Ok (legacyChunk, legacySeen).
Proof. by vm_compute. Qed.

(** X1. In the lazily-chunked server file [revealCell] and the [flag_cell]
    handler index the chunk with the local coordinates as given: for a
    chunk that is stored with its [CHUNK_SIZE] rows and a row index [y]
    outside [0 .. CHUNK_SIZE - 1], both end in a [TypeError], where the
    bounds test of [server.js] returns an empty result. *)
Theorem legacy_reveal_throws_outside_chunk
    (CHUNK_SIZE GRID_WIDTH GRID_HEIGHT : Z) (MINE_PERCENTAGE : Q)
    (random : nat -> Q) (fuel depth : nat) (cx cy x y : Z)
    (sv : Legacy.State) (chunk : Grid) :
  Legacy.gridChunks sv !! getChunkKey cx cy = Some chunk ->
  length chunk = Z.to_nat CHUNK_SIZE ->
  y < 0 \/ CHUNK_SIZE <= y ->
  Legacy.revealCell CHUNK_SIZE GRID_WIDTH GRID_HEIGHT MINE_PERCENTAGE random
                    fuel depth cx cy x y sv = Throw TypeError
  /\ Legacy.flag_cell CHUNK_SIZE MINE_PERCENTAGE random fuel cx cy x y sv
     = Throw TypeError.
Proof.
  intros Hstored Hrows Hy.
  assert (getCell chunk x y = Throw TypeError) as Hcell.
  { unfold getCell, index. destruct (decide (0 <= y)) as [Hpos|]; [|done].
    rewrite lookup_ge_None_2; [done|]. lia. }
  unfold Legacy.revealCell, Legacy.flag_cell, Legacy.getOrCreateChunk.
  rewrite Hstored. cbn [mbind Result_bind fst snd]. by rewrite Hcell.
Qed.

Lemma legacy_reveal_throws_outside_chunk_witness :
  Legacy.revealCell 2 4 2 (1 # 4) legacyRandom 1 9 0 0 0 2 legacySeen
    = Throw TypeError
  /\ Legacy.flag_cell 2 (1 # 4) legacyRandom 1 0 0 0 2 legacySeen
    = Throw TypeError.
Proof.
  apply (legacy_reveal_throws_outside_chunk 2 4 2 (1 # 4) legacyRandom 1 9
           0 0 0 2 legacySeen legacyChunk).
  - by vm_compute.
  - reflexivity.
  - right. lia.
Defined.

(** The same on a server that has not created any chunk yet: the chunk is
    created by the call, and the read of its missing row throws. *)
Example legacy_reveal_on_fresh_server :
  Legacy.revealCell 2 4 2 (1 # 4) legacyRandom 1 9 0 0 0 2 Legacy.start
    = Throw TypeError
  /\ Legacy.flag_cell 2 (1 # 4) legacyRandom 1 0 0 (-1) 0 Legacy.start
    = Throw TypeError.
Proof. split; by vm_compute. Qed.

(** In the lazily-chunked server file the counts of a chunk are taken
    when the chunk is created, against the chunks that exist at that time.
    In the run with [legacyRandom], chunk (0, 0) is created first: its cell
    (1, 1) counts the one mine of its own chunk. Chunk (1, 0) is created
    next, with a mine on the world cell (2, 0), a neighbour of (1, 1); the
    count stored in (1, 1) stays 1 while two of its neighbours hold a
    mine. *)
Theorem legacy_counts_miss_later_chunks :
  exists ch0 sv1 ch1 sv2 c,
    Legacy.getOrCreateChunk 2 (1 # 4) legacyRandom 1 0 0 Legacy.start = Ok (ch0, sv1)
    /\ Legacy.getOrCreateChunk 2 (1 # 4) legacyRandom 1 1 0 sv1 = Ok (ch1, sv2)
    /\ Legacy.look 2 sv2 (1, 1) = Some c
    /\ Cell.adjacentMines c = 1
    /\ Legacy.mineNeighbors 2 sv2 (1, 1) = 2.
Proof.
  eexists _, _, _, _, _. split; [by vm_compute|]. split; [by vm_compute|].
  split; [by vm_compute|]. split; by vm_compute.
Qed.

(** * Chunk requests in the demo world *)

Lemma extract_total_from_the_origin_witness :
  exists chunk,
    extractChunkFromCompleteGrid 2 4 1 demoGrid 1 0 = Ok chunk
    /\ length chunk = Z.to_nat 2
    /\ forall x y, 0 <= x < 2 -> 0 <= y < 2 ->
         let gridX := 1 * 2 + x in
         let gridY := 0 * 2 + y in
         exists entry,
           index chunk y ≫= (fun row => index row x) = Some entry
           /\ (inBounds 4 1 gridX gridY = true ->
               exists c, getCell demoGrid gridX gridY = Ok c /\ entry = CellCopy c)
           /\ (inBounds 4 1 gridX gridY = false ->
               entry = CellCopy (Cell.fresh gridX gridY)).
Proof.
  apply (extract_total_from_the_origin 2 4 1 demoGrid 1 0).
  - exact wfGrid_demoGrid.
  - lia.
  - lia.
  - lia.
  - lia.
  - lia.
Defined.

Lemma getOrCreateChunk_stale_witness :
  exists ch sv1 out sv2,
    getOrCreateChunk 2 4 1 0 0 demoServer = Ok (ch, sv1)
    /\ revealCell 2 4 1 0 0 0 0 sv1 = Ok (out, sv2)
    /\ out <> []
    /\ getOrCreateChunk 2 4 1 0 0 sv2 = Ok (ch, sv2).
Proof.
  eexists _, _, _, _. split; [by vm_compute|]. split; [by vm_compute|].
  split; [done|].
  eapply getOrCreateChunk_stale
    with (sv := demoServer) (rx := 0) (ry := 0) (lx := 0) (ly := 0).
  - exact wfGrid_demoGrid.
  - by vm_compute.
  - by vm_compute.
Defined.

Lemma getOrCreateChunk_uncached_fresh_witness :
  getOrCreateChunk_uncached 2 4 1 1 0 demoServer
  = Ok ((fun y => (fun x => chunkCellAt demoGrid (1 * 2 + x, 0 * 2 + y))
                    <$> seqZ 0 2) <$> seqZ 0 2, demoServer).
Proof.
  apply (getOrCreateChunk_uncached_fresh 2 4 1 1 0 demoServer).
  - exact wfGrid_demoGrid.
  - lia.
  - lia.
  - lia.
  - lia.
  - lia.
Defined.


(** * The lazily-chunked server file: a chunk at its creation *)

Lemma forEach_ext_in {A St} (f f' : St -> A -> Result St) (l : list A) :
  (forall s a, a ∈ l -> f s a = f' s a) -> forall s, forEach f l s = forEach f' l s.
Proof.
  induction l as [|a l IH]; intros Hext s; [done|]. cbn [forEach].
  rewrite (Hext s a) by left. destruct (f' s a) as [s1|e]; [|done].
  cbn [mbind Result_bind]. apply IH. intros s2 b Hb. apply Hext. by right.
Qed.

Lemma neighborOffsets_range d :
  d ∈ neighborOffsets -> -1 <= d.1 <= 1 /\ -1 <= d.2 <= 1.
Proof.
  revert d. apply Forall_forall.
  apply (bool_decide_unpack (Forall _ _)). by vm_compute.
Qed.

Section LegacyChunk.
Variable CHUNK_SIZE : Z.
Variable MINE_PERCENTAGE : Q.
Variable random : nat -> Q.
Variable fuel : nat.
Hypothesis chunk_pos : 0 < CHUNK_SIZE.

Lemma legacy_placeMinesLoop : forall n i placed g g' i',
  Legacy.placeMinesLoop CHUNK_SIZE MINE_PERCENTAGE random n i placed g = Ok (g', i') ->
  placeMinesLoop CHUNK_SIZE CHUNK_SIZE MINE_PERCENTAGE n random i placed g = Ok g'.
Proof.
  induction n as [|n IH]; intros i placed g g' i' Hrun.
  - change (Legacy.placeMinesLoop CHUNK_SIZE MINE_PERCENTAGE random 0 i placed g)
      with (if decide (placed < mineCount CHUNK_SIZE CHUNK_SIZE MINE_PERCENTAGE)
            then Throw Exhausted else Ok (g, i)) in Hrun.
    change (placeMinesLoop CHUNK_SIZE CHUNK_SIZE MINE_PERCENTAGE 0 random i placed g)
      with (if decide (placed < mineCount CHUNK_SIZE CHUNK_SIZE MINE_PERCENTAGE)
            then Throw Exhausted else Ok g).
    destruct (decide (placed < mineCount CHUNK_SIZE CHUNK_SIZE MINE_PERCENTAGE));
      [done|]. by injection Hrun as -> _.
  - change (Legacy.placeMinesLoop CHUNK_SIZE MINE_PERCENTAGE random (S n) i placed g)
      with (if decide (placed < mineCount CHUNK_SIZE CHUNK_SIZE MINE_PERCENTAGE) then
              let x := Qfloor (random i * inject_Z CHUNK_SIZE) in
              let y := Qfloor (random (S i) * inject_Z CHUNK_SIZE) in
              c ← getCell g x y;
              if negb (Cell.hasMine c)
              then Legacy.placeMinesLoop CHUNK_SIZE MINE_PERCENTAGE random n
                     (S (S i)) (placed + 1) (updCell Cell.setHasMine x y g)
              else Legacy.placeMinesLoop CHUNK_SIZE MINE_PERCENTAGE random n
                     (S (S i)) placed g
            else Ok (g, i)) in Hrun.
    change (placeMinesLoop CHUNK_SIZE CHUNK_SIZE MINE_PERCENTAGE (S n) random i placed g)
      with (if decide (placed < mineCount CHUNK_SIZE CHUNK_SIZE MINE_PERCENTAGE) then
              let x := Qfloor (random i * inject_Z CHUNK_SIZE) in
              let y := Qfloor (random (S i) * inject_Z CHUNK_SIZE) in
              c ← getCell g x y;
              if negb (Cell.hasMine c)
              then placeMinesLoop CHUNK_SIZE CHUNK_SIZE MINE_PERCENTAGE n random
                     (S (S i)) (placed + 1) (updCell Cell.setHasMine x y g)
              else placeMinesLoop CHUNK_SIZE CHUNK_SIZE MINE_PERCENTAGE n random
                     (S (S i)) placed g
            else Ok g).
    destruct (decide (placed < mineCount CHUNK_SIZE CHUNK_SIZE MINE_PERCENTAGE));
      [|by injection Hrun as -> _].
    set (x := Qfloor (random i * inject_Z CHUNK_SIZE)) in *.
    set (y := Qfloor (random (S i) * inject_Z CHUNK_SIZE)) in *.
    cbv zeta in *. clearbody x y.
    destruct (getCell g x y) as [c|e]; [|done]. cbn [mbind Result_bind] in *.
    destruct (negb (Cell.hasMine c)); by apply (IH _ _ _ _ i').
Qed.

Lemma wfGrid_createEmptyChunk cx cy :
  wfGrid CHUNK_SIZE CHUNK_SIZE (Legacy.createEmptyChunk CHUNK_SIZE cx cy).
Proof.
  unfold wfGrid, Legacy.createEmptyChunk. split.
  - by rewrite length_fmap, length_seqZ.
  - apply Forall_fmap, Forall_forall. intros y _. cbn.
    by rewrite length_fmap, length_seqZ.
Qed.

Lemma look_createEmptyChunk cx cy q c :
  look (Legacy.createEmptyChunk CHUNK_SIZE cx cy) q = Some c ->
  c = Cell.fresh (cx * CHUNK_SIZE + q.1) (cy * CHUNK_SIZE + q.2).
Proof.
  intros (Hx & Hy & row & Hrow & Hc)%look_Some%getCell_Ok.
  unfold Legacy.createEmptyChunk in Hrow. rewrite list_lookup_fmap in Hrow.
  destruct (seqZ 0 CHUNK_SIZE !! Z.to_nat q.2) as [y|] eqn:Hqy; [|done].
  cbn in Hrow. injection Hrow as <-. rewrite list_lookup_fmap in Hc.
  destruct (seqZ 0 CHUNK_SIZE !! Z.to_nat q.1) as [x|] eqn:Hqx; [|done].
  cbn in Hc. injection Hc as <-.
  apply lookup_seqZ in Hqx as [-> _], Hqy as [-> _]. f_equal; lia.
Qed.

Lemma totalMines_createEmptyChunk cx cy :
  totalMines CHUNK_SIZE CHUNK_SIZE (Legacy.createEmptyChunk CHUNK_SIZE cx cy) = 0.
Proof.
  unfold totalMines. apply minesAmong_none. intros q _. unfold hasMineAt.
  destruct (look _ q) as [c|] eqn:Hc; [|done].
  by rewrite (look_createEmptyChunk cx cy q c Hc).
Qed.

Section Alone.
Variable m : gmap string Grid.
Variable cx cy : Z.
Hypothesis alone : forall d1 d2,
  -1 <= d1 <= 1 -> -1 <= d2 <= 1 -> m !! getChunkKey (cx + d1) (cy + d2) = None.

Lemma legacy_count_alone chunk x y :
  0 <= x < CHUNK_SIZE -> 0 <= y < CHUNK_SIZE ->
  Legacy.countAdjacentMines CHUNK_SIZE m chunk x y cx cy
  = countAdjacentMinesInCompleteGrid CHUNK_SIZE CHUNK_SIZE chunk x y.
Proof.
  intros Hx Hy. unfold Legacy.countAdjacentMines, countAdjacentMinesInCompleteGrid.
  apply forEach_ext_in. intros count [dx dy] Hd%neighborOffsets_range.
  cbn [fst snd] in Hd. cbv zeta. unfold inBounds.
  destruct ((0 <=? x + dx) && (x + dx <? CHUNK_SIZE) && (0 <=? y + dy)
            && (y + dy <? CHUNK_SIZE)); [done|].
  rewrite alone; [done| |].
  - pose proof (Z.div_mod (x + dx) CHUNK_SIZE).
    pose proof (Z.mod_pos_bound (x + dx) CHUNK_SIZE chunk_pos). nia.
  - pose proof (Z.div_mod (y + dy) CHUNK_SIZE).
    pose proof (Z.mod_pos_bound (y + dy) CHUNK_SIZE chunk_pos). nia.
Qed.

Lemma legacy_fill_alone chunk :
  Legacy.fillAdjacentCounts CHUNK_SIZE m chunk cx cy
  = calculateAdjacentCountsForCompleteGrid CHUNK_SIZE CHUNK_SIZE chunk.
Proof.
  unfold Legacy.fillAdjacentCounts, calculateAdjacentCountsForCompleteGrid.
  apply forEach_ext_in. intros g y Hy%elem_of_seqZ.
  apply forEach_ext_in. intros g' x Hx%elem_of_seqZ.
  by rewrite legacy_count_alone by lia.
Qed.

End Alone.

(** X2. A chunk of the lazily-chunked server file at its creation. When
    neither the chunk nor any of its eight neighbour chunks is stored, a
    request that creates the chunk returns [CHUNK_SIZE] rows of
    [CHUNK_SIZE] cells, all unrevealed and unflagged and carrying their
    world coordinates, with exactly
    [Math.round(CHUNK_SIZE * CHUNK_SIZE * MINE_PERCENTAGE)] mines; every
    count is the number of mines on the neighbours INSIDE the chunk (the
    adjacency invariant of the chunk taken as a world of its own), so mines
    that neighbour chunks get later are not counted; and the chunk is
    stored under its key. *)
Theorem legacy_chunk_counts_only_its_own_mines cx cy sv ch sv' :
  (forall d1 d2, -1 <= d1 <= 1 -> -1 <= d2 <= 1 ->
     Legacy.gridChunks sv !! getChunkKey (cx + d1) (cy + d2) = None) ->
  Legacy.getOrCreateChunk CHUNK_SIZE MINE_PERCENTAGE random fuel cx cy sv
    = Ok (ch, sv') ->
  wfGrid CHUNK_SIZE CHUNK_SIZE ch
  /\ totalMines CHUNK_SIZE CHUNK_SIZE ch
     = Z.max 0 (Legacy.mineCount CHUNK_SIZE MINE_PERCENTAGE)
  /\ adjacencyInvariant CHUNK_SIZE CHUNK_SIZE ch
  /\ (forall q c, look ch q = Some c ->
        Cell.revealed c = false /\ Cell.flagged c = false
        /\ Cell.x c = cx * CHUNK_SIZE + q.1 /\ Cell.y c = cy * CHUNK_SIZE + q.2)
  /\ Legacy.gridChunks sv' = <[getChunkKey cx cy := ch]> (Legacy.gridChunks sv)
  /\ Legacy.bombsExploded sv' = Legacy.bombsExploded sv.
Proof.
  intros Halone Hrun. unfold Legacy.getOrCreateChunk in Hrun.
  pose proof (Halone 0 0 ltac:(lia) ltac:(lia)) as Hself.
  rewrite !Z.add_0_r in Hself. rewrite Hself in Hrun.
  unfold Legacy.placeMinesInChunk in Hrun.
  destruct (Legacy.placeMinesLoop CHUNK_SIZE MINE_PERCENTAGE random fuel
              (Legacy.randoms sv) 0 (Legacy.createEmptyChunk CHUNK_SIZE cx cy))
    as [[g1 i1]|e] eqn:Hplace; [|done].
  cbn [mbind Result_bind fst snd] in Hrun.
  apply legacy_placeMinesLoop in Hplace.
  destruct (placeMinesLoop_spec _ _ _ _ _ _ _ _ _ (wfGrid_createEmptyChunk cx cy) Hplace)
    as [Hwf1 Htot].
  rewrite (legacy_fill_alone _ cx cy Halone) in Hrun.
  destruct (calculateAdjacentCounts_spec CHUNK_SIZE CHUNK_SIZE g1 Hwf1)
    as (g' & Hcalc & Hcs).
  rewrite Hcalc in Hrun. cbn [mbind Result_bind] in Hrun. injection Hrun as <- <-.
  cbn [Legacy.gridChunks Legacy.bombsExploded].
  split; [apply Hcs|]. split.
  { pose proof (totalMines_createEmptyChunk cx cy) as Hzero.
    unfold totalMines in *.
    rewrite (minesAmong_ext g1 g')
      by (intros q;
          exact (countsSet_hasMineAt CHUNK_SIZE CHUNK_SIZE g1 _ g' q Hwf1 Hcs)).
    rewrite Htot, Hzero. unfold Legacy.mineCount, mineCount. lia. }
  split; [by eapply countsSet_adjacencyInvariant|]. split; [|done].
  intros q c Hq. destruct Hcs as [Hwf' Hcells].
  assert (inWorld CHUNK_SIZE CHUNK_SIZE q) as Hw.
  { apply look_Some in Hq.
    exact (getCell_wf_inv CHUNK_SIZE CHUNK_SIZE g' _ _ c Hwf' Hq). }
  destruct (look_wf _ _ g1 q Hwf1 Hw) as [c1 Hc1].
  destruct (Hcells q c1 Hc1) as (n & Hq' & _). rewrite Hq in Hq'. injection Hq' as ->.
  destruct (placeMinesLoop_keeps _ _ _ _ _ _ _ _ _ Hplace q c1 Hc1)
    as (c0 & Hc0 & Hr & Hf & Hx & Hy).
  apply look_createEmptyChunk in Hc0 as ->. cbn in *. done.
Qed.

End LegacyChunk.


(** * The further properties in the demo worlds *)

Lemma coordinatesKept_demoGrid : coordinatesKept demoGrid.
Proof.
  intros q c Hq.
  assert (inWorld 4 1 q) as Hw.
  { apply look_Some in Hq.
    exact (getCell_wf_inv 4 1 demoGrid _ _ c wfGrid_demoGrid Hq). }
  apply inWorld_demo in Hw.
  repeat (apply elem_of_cons in Hw as [->|Hw]); try (by apply elem_of_nil in Hw);
    injection Hq as <-; done.
Qed.

Lemma hidden_demo_mine : hidden 4 1 demoGrid (1 * 2 + 1, 0 * 2 + 0).
Proof. split; [reflexivity|]. eexists. split; [reflexivity|]. split; reflexivity. Qed.

Lemma chordFires_chordGrid : chordFires 4 1 chordGrid (1 * 2 + 0, 0 * 2 + 0).
Proof.
  split; [reflexivity|]. eexists. split; [reflexivity|]. split; [reflexivity|].
  split; [done|]. by vm_compute.
Qed.


Lemma reveal_of_mine_or_number_witness :
  hidden 4 1 demoGrid (1 * 2 + 1, 0 * 2 + 0)
  /\ look demoGrid (1 * 2 + 1, 0 * 2 + 0) = Some (Cell.mk 3 0 false true 0 false)
  /\ exists sv',
       revealCell 2 4 1 1 0 1 0 demoServer
       = Ok ([Update.mk 1 0 1 0 (1 * 2 + 1, 0 * 2 + 0)], sv')
       /\ look (completeGrid sv') (1 * 2 + 1, 0 * 2 + 0)
          = Some (Cell.setRevealed (Cell.mk 3 0 false true 0 false))
       /\ (forall q, q <> (1 * 2 + 1, 0 * 2 + 0) ->
             look (completeGrid sv') q = look demoGrid q)
       /\ bombsExploded sv' = bombsExploded demoServer + 1
       /\ gridChunks sv' = gridChunks demoServer
       /\ uniqueUsersEver sv' = uniqueUsersEver demoServer.
Proof.
  split; [exact hidden_demo_mine|]. split; [reflexivity|].
  exact (reveal_of_mine_or_number 2 4 1 1 0 1 0 demoServer
           (Cell.mk 3 0 false true 0 false) hidden_demo_mine eq_refl
           (or_introl eq_refl)).
Defined.

Lemma reveal_is_idempotent_witness :
  wfGrid 4 1 demoGrid
  /\ exists out sv',
       revealCell 2 4 1 0 0 0 0 demoServer = Ok (out, sv')
       /\ out <> []
       /\ revealCell 2 4 1 0 0 0 0 sv' = Ok ([], sv')
       /\ forall cx' cy' x' y',
            (cx' * 2 + x', cy' * 2 + y') ∈ cellsOf out ->
            revealCell 2 4 1 cx' cy' x' y' sv' = Ok ([], sv').
Proof.
  split; [exact wfGrid_demoGrid|]. eexists _, _.
  split; [by vm_compute|]. split; [done|].
  eapply (reveal_is_idempotent 2 4 1 0 0 0 0 demoServer);
    [exact wfGrid_demoGrid|by vm_compute].
Defined.

Lemma flag_twice_restores_witness :
  wfGrid 4 1 demoGrid
  /\ exists r sv',
       flag_cell 2 4 1 0 0 0 0 demoServer = Ok (r, sv')
       /\ sv' <> demoServer
       /\ flag_cell 2 4 1 0 0 0 0 sv' = Ok (r, demoServer).
Proof.
  split; [exact wfGrid_demoGrid|]. eexists _, _.
  split; [by vm_compute|]. split; [done|].
  eapply (flag_twice_restores 2 4 1 0 0 0 0 demoServer);
    [exact wfGrid_demoGrid|by vm_compute].
Defined.

Lemma revealCell_agrees_with_revealCellWithFlood_witness :
  isValidChunkCoords 0 0 = true
  /\ isValidCellCoords 2 0 0 = true
  /\ inBounds 4 1 (0 * 2 + 0) (0 * 2 + 0) = true
  /\ hasMineAt demoGrid (0 * 2 + 0, 0 * 2 + 0) = false
  /\ revealCell 2 4 1 0 0 0 0 demoServer
     = revealCellWithFlood 2 4 1 (0 * 2 + 0) (0 * 2 + 0) demoServer.
Proof.
  split; [reflexivity|]. split; [reflexivity|]. split; [reflexivity|].
  split; [reflexivity|].
  exact (revealCell_agrees_with_revealCellWithFlood 2 4 1 0 0 0 0 demoServer
           eq_refl eq_refl eq_refl eq_refl).
Defined.

Lemma flagged_cells_stay_covered_witness :
  wfGrid 4 1 chordGrid
  /\ flaggedAt chordGrid (3, 0) = true
  /\ (forall cx cy x y out sv',
        revealCell 2 4 1 cx cy x y chordServer = Ok (out, sv') ->
        ((3, 0) ∉ cellsOf out)
        /\ look (completeGrid sv') (3, 0) = look chordGrid (3, 0))
  /\ (forall cx cy x y out sv',
        handleChordClick 2 4 1 cx cy x y chordServer = Ok (out, sv') ->
        ((3, 0) ∉ cellsOf out)
        /\ look (completeGrid sv') (3, 0) = look chordGrid (3, 0)).
Proof.
  split; [exact wfGrid_chordGrid|]. split; [reflexivity|].
  exact (flagged_cells_stay_covered 2 4 1 chordServer (3, 0) wfGrid_chordGrid
           eq_refl).
Defined.

Lemma chord_is_a_sequence_of_reveals_witness :
  wfGrid 4 1 chordGrid
  /\ 0 < 2
  /\ chordFires 4 1 chordGrid (1 * 2 + 0, 0 * 2 + 0)
  /\ handleChordClick 2 4 1 1 0 0 0 chordServer
     = forEach (revealAt 2 4 1)
               (candidates 4 1 chordGrid (1 * 2 + 0, 0 * 2 + 0)) ([], chordServer).
Proof.
  assert (0 < 2) as Hpos by lia.
  split; [exact wfGrid_chordGrid|]. split; [exact Hpos|].
  split; [exact chordFires_chordGrid|].
  exact (chord_is_a_sequence_of_reveals 2 4 1 1 0 0 0 chordServer
           wfGrid_chordGrid Hpos chordFires_chordGrid).
Defined.

Lemma chunk_request_stores_one_chunk_witness :
  exists ch sv',
    getOrCreateChunk 2 4 1 0 0 demoServer = Ok (ch, sv')
    /\ gridChunks sv' !! getChunkKey 0 0 = Some ch
    /\ (forall cx' cy', (cx', cy') <> (0, 0) ->
          gridChunks sv' !! getChunkKey cx' cy'
          = gridChunks demoServer !! getChunkKey cx' cy')
    /\ chunk_count sv'
       = chunk_count demoServer
         + (if gridChunks demoServer !! getChunkKey 0 0 is Some _ then 0 else 1)
    /\ completeGrid sv' = completeGrid demoServer
    /\ bombsExploded sv' = bombsExploded demoServer
    /\ uniqueUsersEver sv' = uniqueUsersEver demoServer
    /\ getOrCreateChunk 2 4 1 0 0 sv' = Ok (ch, sv').
Proof.
  eexists _, _. split; [by vm_compute|].
  apply (chunk_request_stores_one_chunk 2 4 1 0 0 demoServer).
  by vm_compute.
Defined.

Lemma revealed_stats_reports_witness :
  wfGrid 4 1 chordGrid
  /\ exists st,
       revealed_stats 4 1 chordServer = Ok st
       /\ RevealedStats.total st = Z.max 0 4 * Z.max 0 1
       /\ RevealedStats.revealed st = countCells 4 1 (revealedAt chordGrid)
       /\ 0 <= RevealedStats.revealed st <= RevealedStats.total st
       /\ RevealedStats.bombsExploded st = bombsExploded chordServer
       /\ (RevealedStats.total st = 0 -> RevealedStats.percent st = Number.ofZ 0)
       /\ (RevealedStats.revealed st = 0 -> RevealedStats.percent st = Number.ofZ 0)
       /\ (0 < RevealedStats.total st ->
           RevealedStats.percent st
           = Number.mul (Number.div (Number.ofZ (RevealedStats.revealed st))
                                    (Number.ofZ (RevealedStats.total st)))
                        (Number.ofZ 100)).
Proof.
  split; [exact wfGrid_chordGrid|].
  exact (revealed_stats_reports 4 1 chordServer wfGrid_chordGrid).
Defined.

Lemma reveals_show_in_revealed_stats_witness :
  wfGrid 4 1 demoGrid
  /\ exists out sv' st st',
       revealCell 2 4 1 0 0 0 0 demoServer = Ok (out, sv')
       /\ revealed_stats 4 1 demoServer = Ok st
       /\ revealed_stats 4 1 sv' = Ok st'
       /\ RevealedStats.revealed st'
          = RevealedStats.revealed st + Z.of_nat (length out)
       /\ RevealedStats.total st' = RevealedStats.total st
       /\ RevealedStats.bombsExploded st'
          = RevealedStats.bombsExploded st + minesAmong demoGrid (cellsOf out).
Proof.
  split; [exact wfGrid_demoGrid|].
  destruct (reveals_show_in_revealed_stats 2 4 1 demoServer wfGrid_demoGrid)
    as [Hreveal _].
  destruct (Hreveal 0 0 0 0 _ _ eq_refl) as (st & st' & Hshow).
  eexists _, _, st, st'. split; [reflexivity|]. exact Hshow.
Defined.

Lemma flagged_stats_reports_witness :
  wfGrid 4 1 chordGrid
  /\ exists st,
       flagged_stats 4 1 chordServer = Ok st
       /\ FlaggedStats.flagged st = countCells 4 1 (flaggedAt chordGrid)
       /\ FlaggedStats.correctFlags st
          = countCells 4 1 (fun q => flaggedAt chordGrid q && hasMineAt chordGrid q)
       /\ FlaggedStats.totalMines st = countCells 4 1 (hasMineAt chordGrid)
       /\ 0 <= FlaggedStats.correctFlags st <= FlaggedStats.flagged st
       /\ FlaggedStats.correctFlags st <= FlaggedStats.totalMines st
       /\ FlaggedStats.flagged st <= Z.max 0 4 * Z.max 0 1
       /\ FlaggedStats.totalMines st <= Z.max 0 4 * Z.max 0 1.
Proof.
  split; [exact wfGrid_chordGrid|].
  exact (flagged_stats_reports 4 1 chordServer wfGrid_chordGrid).
Defined.

Lemma flags_show_in_flagged_stats_witness :
  wfGrid 4 1 chordGrid
  /\ exists u sv' st st',
       flag_cell 2 4 1 1 0 1 0 chordServer = Ok (Some u, sv')
       /\ flagged_stats 4 1 chordServer = Ok st
       /\ flagged_stats 4 1 sv' = Ok st'
       /\ FlaggedStats.flagged st' = FlaggedStats.flagged st + -1
       /\ FlaggedStats.correctFlags st' = FlaggedStats.correctFlags st + -1
       /\ FlaggedStats.totalMines st' = FlaggedStats.totalMines st.
Proof.
  split; [exact wfGrid_chordGrid|].
  destruct (flags_show_in_flagged_stats 2 4 1 chordServer wfGrid_chordGrid)
    as [Hflag _].
  destruct (Hflag 1 0 1 0 _ _ eq_refl) as (st & st' & Hshow).
  eexists _, _, st, st'. split; [reflexivity|]. exact Hshow.
Defined.

Lemma reset_gives_a_fresh_world_witness :
  exists sv',
    reset_chunks 4 1 (1 # 4) 1 demoRandom chordServer = Ok sv'
    /\ wfGrid 4 1 (completeGrid sv') /\ adjacencyInvariant 4 1 (completeGrid sv')
    /\ (forall q, inWorld 4 1 q -> hidden 4 1 (completeGrid sv') q)
    /\ totalMines 4 1 (completeGrid sv') = Z.max 0 (mineCount 4 1 (1 # 4))
    /\ gridChunks sv' = ∅ /\ chunk_count sv' = 0
    /\ bombsExploded sv' = bombsExploded chordServer
    /\ uniqueUsersEver sv' = uniqueUsersEver chordServer
    /\ (exists st, revealed_stats 4 1 sv' = Ok st
          /\ RevealedStats.revealed st = 0
          /\ RevealedStats.total st = Z.max 0 4 * Z.max 0 1
          /\ RevealedStats.percent st = Number.ofZ 0
          /\ RevealedStats.bombsExploded st = bombsExploded chordServer)
    /\ flagged_stats 4 1 sv'
       = Ok (FlaggedStats.mk 0 0 (Z.max 0 (mineCount 4 1 (1 # 4)))).
Proof.
  eexists. split; [by vm_compute|].
  apply (reset_gives_a_fresh_world 4 1 (1 # 4) 1 demoRandom chordServer).
  by vm_compute.
Defined.


Lemma adjacentMines_is_a_digit_witness :
  adjacencyInvariant 4 1 demoGrid
  /\ look demoGrid (2, 0) = Some (Cell.mk 2 0 false false 1 false)
  /\ 0 <= Cell.adjacentMines (Cell.mk 2 0 false false 1 false) <= 8
  /\ (Cell.adjacentMines (Cell.mk 2 0 false false 1 false) = 0 ->
      forall q, nbr (2, 0) q -> inWorld 4 1 q -> hasMineAt demoGrid q = false).
Proof.
  split; [exact adjacencyInvariant_demoGrid|]. split; [reflexivity|].
  exact (adjacentMines_is_a_digit 4 1 demoGrid (2, 0)
           (Cell.mk 2 0 false false 1 false) adjacencyInvariant_demoGrid eq_refl).
Defined.

Lemma reveal_all_uncovers_the_world_witness :
  wfGrid 4 1 chordGrid
  /\ reveal_all 2 4 1 true chordServer = (Forbidden, [], chordServer)
  /\ exists emitted sv',
       let g' := completeGrid sv' in
       reveal_all 2 4 1 false chordServer
       = (RevealedCells (countCells 4 1 (isHidden chordGrid)), emitted, sv')
       /\ g' = revealAll (cellsWhere 4 1 (isHidden chordGrid)) chordGrid
       /\ (forall q, inWorld 4 1 q ->
             revealedAt g' q = revealedAt chordGrid q || negb (flaggedAt chordGrid q))
       /\ (forall q, inWorld 4 1 q -> revealedAt g' q = true \/ flaggedAt g' q = true)
       /\ (forall q, flaggedAt g' q = flaggedAt chordGrid q)
       /\ (forall q, hasMineAt g' q = hasMineAt chordGrid q)
       /\ (forall q, Cell.adjacentMines <$> look g' q
                     = Cell.adjacentMines <$> look chordGrid q)
       /\ bombsExploded sv' = bombsExploded chordServer
       /\ gridChunks sv' = gridChunks chordServer
       /\ uniqueUsersEver sv' = uniqueUsersEver chordServer
       /\ cellsOf emitted = cellsWhere 4 1 (revealedAt g')
       /\ reveal_all 2 4 1 false sv' = (RevealedCells 0, emitted, sv').
Proof.
  split; [exact wfGrid_chordGrid|].
  exact (reveal_all_uncovers_the_world 2 4 1 chordServer wfGrid_chordGrid).
Defined.

Lemma legacy_chunk_counts_only_its_own_mines_witness :
  0 < 2
  /\ (forall d1 d2, -1 <= d1 <= 1 -> -1 <= d2 <= 1 ->
        Legacy.gridChunks Legacy.start !! getChunkKey (0 + d1) (0 + d2) = None)
  /\ Legacy.getOrCreateChunk 2 (1 # 4) legacyRandom 1 0 0 Legacy.start
     = Ok (legacyChunk, legacySeen)
  /\ wfGrid 2 2 legacyChunk
  /\ totalMines 2 2 legacyChunk = Z.max 0 (Legacy.mineCount 2 (1 # 4))
  /\ adjacencyInvariant 2 2 legacyChunk
  /\ (forall q c, look legacyChunk q = Some c ->
        Cell.revealed c = false /\ Cell.flagged c = false
        /\ Cell.x c = 0 * 2 + q.1 /\ Cell.y c = 0 * 2 + q.2)
  /\ Legacy.gridChunks legacySeen
     = <[getChunkKey 0 0 := legacyChunk]> (Legacy.gridChunks Legacy.start)
  /\ Legacy.bombsExploded legacySeen = Legacy.bombsExploded Legacy.start.
Proof.
  assert (0 < 2) as Hpos by lia.
  assert (forall d1 d2 : Z, -1 <= d1 <= 1 -> -1 <= d2 <= 1 ->
            Legacy.gridChunks Legacy.start !! getChunkKey (0 + d1) (0 + d2) = None)
    as Halone by (intros d1 d2 _ _; apply lookup_empty).
  assert (Legacy.getOrCreateChunk 2 (1 # 4) legacyRandom 1 0 0 Legacy.start
          = Ok (legacyChunk, legacySeen)) as Hrun by (by vm_compute).
  split; [exact Hpos|]. split; [exact Halone|]. split; [exact Hrun|].
  exact (legacy_chunk_counts_only_its_own_mines 2 (1 # 4) legacyRandom 1 Hpos
           0 0 Legacy.start legacyChunk legacySeen Halone Hrun).
Defined.

Lemma reveals_commute_witness :
  wfGrid 4 1 demoGrid
  /\ exists outA svA outAB svAB outB svB outBA svBA,
       revealCell 2 4 1 0 0 0 0 demoServer = Ok (outA, svA)
       /\ revealCell 2 4 1 1 0 1 0 svA = Ok (outAB, svAB)
       /\ revealCell 2 4 1 1 0 1 0 demoServer = Ok (outB, svB)
       /\ revealCell 2 4 1 0 0 0 0 svB = Ok (outBA, svBA)
       /\ svAB = svBA
       /\ cellsOf (outA ++ outAB) ≡ₚ cellsOf (outB ++ outBA)
       /\ outA ++ outAB ≡ₚ outB ++ outBA.
Proof.
  split; [exact wfGrid_demoGrid|]. eexists _, _, _, _, _, _, _, _.
  split; [by vm_compute|]. split; [by vm_compute|].
  split; [by vm_compute|]. split; [by vm_compute|].
  edestruct (reveals_commute 2 4 1 0 0 0 0 1 0 1 0 demoServer)
    as (Hsv & Hcells & Hrecords);
    [exact wfGrid_demoGrid|by vm_compute..|].
  split; [exact Hsv|]. split; [exact Hcells|].
  apply Hrecords; reflexivity.
Defined.

Lemma chord_is_idempotent_witness :
  wfGrid 4 1 chordGrid
  /\ exists out sv',
       handleChordClick 2 4 1 1 0 0 0 chordServer = Ok (out, sv')
       /\ out <> []
       /\ handleChordClick 2 4 1 1 0 0 0 sv' = Ok ([], sv').
Proof.
  split; [exact wfGrid_chordGrid|]. eexists _, _.
  split; [by vm_compute|]. split; [done|].
  eapply (chord_is_idempotent 2 4 1 1 0 0 0 chordServer);
    [exact wfGrid_chordGrid|by vm_compute].
Defined.

Lemma cell_updates_are_consistent_witness :
  wfGrid 4 1 demoGrid /\ coordinatesKept demoGrid /\ 0 < 2
  /\ (exists out msgs sv',
        revealCell 2 4 1 0 0 0 0 demoServer = Ok (out, sv')
        /\ reveal_cell 2 4 1 0 0 0 0 demoServer = Ok (msgs, sv')
        /\ length msgs = length out
        /\ coordinatesKept (completeGrid sv')
        /\ forall m, m ∈ msgs ->
             Cell.revealed (CellUpdate.cell m) = true
             /\ Cell.flagged (CellUpdate.cell m) = false
             /\ Cell.x (CellUpdate.cell m) = CellUpdate.cx m * 2 + CellUpdate.x m
             /\ Cell.y (CellUpdate.cell m) = CellUpdate.cy m * 2 + CellUpdate.y m)
  /\ (exists out msgs sv',
        handleChordClick 2 4 1 0 0 0 0 demoServer = Ok (out, sv')
        /\ chord_click 2 4 1 0 0 0 0 demoServer = Ok (msgs, sv')
        /\ length msgs = length out
        /\ coordinatesKept (completeGrid sv')
        /\ forall m, m ∈ msgs ->
             Cell.revealed (CellUpdate.cell m) = true
             /\ Cell.flagged (CellUpdate.cell m) = false
             /\ Cell.x (CellUpdate.cell m) = CellUpdate.cx m * 2 + CellUpdate.x m
             /\ Cell.y (CellUpdate.cell m) = CellUpdate.cy m * 2 + CellUpdate.y m).
Proof.
  assert (0 < 2) as Hpos by lia.
  split; [exact wfGrid_demoGrid|]. split; [exact coordinatesKept_demoGrid|].
  split; [exact Hpos|].
  exact (cell_updates_are_consistent 2 4 1 0 0 0 0 demoServer wfGrid_demoGrid
           coordinatesKept_demoGrid Hpos).
Defined.

Lemma chunk_cells_carry_coordinates_witness :
  wfGrid 4 1 demoGrid /\ coordinatesKept demoGrid /\ 0 < 2 /\ 0 <= 1 /\ 0 <= 0
  /\ 1 * 2 + 2 <= 2 ^ 53 /\ 0 * 2 + 2 <= 2 ^ 53
  /\ exists chunk,
       extractChunkFromCompleteGrid 2 4 1 demoGrid 1 0 = Ok chunk
       /\ forall x y, 0 <= x < 2 -> 0 <= y < 2 ->
            exists c,
              index chunk y ≫= (fun row => index row x) = Some (CellCopy c)
              /\ Cell.x c = 1 * 2 + x /\ Cell.y c = 0 * 2 + y.
Proof.
  assert (0 < 2) as Hpos by lia.
  assert (0 <= 1) as Hcx by lia. assert (0 <= 0) as Hcy by lia.
  assert (1 * 2 + 2 <= 2 ^ 53) as Hbx by lia.
  assert (0 * 2 + 2 <= 2 ^ 53) as Hby by lia.
  split; [exact wfGrid_demoGrid|]. split; [exact coordinatesKept_demoGrid|].
  split; [exact Hpos|]. split; [exact Hcx|]. split; [exact Hcy|].
  split; [exact Hbx|]. split; [exact Hby|].
  exact (chunk_cells_carry_coordinates 2 4 1 demoGrid 1 0 wfGrid_demoGrid
           coordinatesKept_demoGrid Hpos Hcx Hcy Hbx Hby).
Defined.


Lemma reveal_reaches_what_the_flood_rule_reaches_witness :
  wfGrid 4 1 demoGrid
  /\ exists out sv',
       revealCell 2 4 1 0 0 0 0 demoServer = Ok (out, sv')
       /\ NoDup (cellsOf out)
       /\ (forall q, q ∈ cellsOf out
             <-> hidden 4 1 demoGrid (0 * 2 + 0, 0 * 2 + 0)
                 /\ rtc (floodStep 4 1 demoGrid) (0 * 2 + 0, 0 * 2 + 0) q)
       /\ (hidden 4 1 demoGrid (0 * 2 + 0, 0 * 2 + 0) ->
           (0 * 2 + 0, 0 * 2 + 0) ∈ cellsOf out)
       /\ (~ hidden 4 1 demoGrid (0 * 2 + 0, 0 * 2 + 0) -> out = [])
       /\ completeGrid sv' = revealAll (cellsOf out) demoGrid.
Proof.
  split; [exact wfGrid_demoGrid|].
  exact (reveal_reaches_what_the_flood_rule_reaches 2 4 1 0 0 0 0 demoServer
           wfGrid_demoGrid).
Defined.

Lemma reveal_explodes_only_the_clicked_mine_witness :
  wfGrid 4 1 demoGrid
  /\ exists out sv',
       revealCell 2 4 1 1 0 1 0 demoServer = Ok (out, sv')
       /\ (forall q, q ∈ cellsOf out -> hasMineAt demoGrid q = true ->
             q = (1 * 2 + 1, 0 * 2 + 0) /\ cellsOf out = [(1 * 2 + 1, 0 * 2 + 0)])
       /\ (hidden 4 1 demoGrid (1 * 2 + 1, 0 * 2 + 0)
           /\ hasMineAt demoGrid (1 * 2 + 1, 0 * 2 + 0) = true ->
           bombsExploded sv' = bombsExploded demoServer + 1)
       /\ (~ (hidden 4 1 demoGrid (1 * 2 + 1, 0 * 2 + 0)
              /\ hasMineAt demoGrid (1 * 2 + 1, 0 * 2 + 0) = true) ->
           bombsExploded sv' = bombsExploded demoServer
           /\ forall q, q ∈ cellsOf out -> hasMineAt demoGrid q = false).
Proof.
  split; [exact wfGrid_demoGrid|]. eexists _, _. split; [by vm_compute|].
  eapply (reveal_explodes_only_the_clicked_mine 2 4 1 1 0 1 0 demoServer);
    [exact wfGrid_demoGrid|by vm_compute].
Defined.
